(** * deepcell/tracking.py: the [cell_tracker] class

    A shallow embedding of the tracker of [src/deepcell/tracking.py] and the
    properties of its cost matrix, its track life cycle, its feature windows
    and its annotation clean-up.

    Conventions of the embedding.
    - numpy label planes are flattened: a frame is a [list Z] of pixel labels,
      the label volume [self.y] a list of frames.
    - Python exceptions are values of [exn]; code that can raise lives in the
      [result] monad.
    - [self.tracks] is a dict keyed by [0 .. n-1] (a new key is always
      [max(keys) + 1], see [_create_new_track]); it is kept as a list whose
      positions are the keys.  A track is a record for the fixed entries
      ('label', 'frames', 'daughters', 'capped', 'parent') plus a string-keyed
      map for the feature histories written by [_get_features].
    - probabilities and costs only meet [+], [-], [*] and comparisons and are
      rationals [Q]; centroids meet [np.linalg.norm] and are real numbers. *)

From Stdlib Require Import ZArith QArith Reals Lra Lia List String Permutation.
From stdpp Require Import gmap strings list fin_maps sorting.

Open Scope Z_scope.

(** ** Exceptions *)

Inductive exn : Type :=
| ValueError (msg : string)
| KeyError (key : string)
| IndexError
| NameError (name : string)
| TypeError
| UnboundLocalError (name : string)
| FloatingPointError.

Inductive result (A : Type) : Type :=
| Ok (a : A)
| Raise (e : exn).
Arguments Ok {A} a.
Arguments Raise {A} e.

#[global] Instance result_ret : MRet result := fun A a => Ok a.
#[global] Instance result_bind : MBind result := fun A B k c =>
  match c with
  | Ok a => k a
  | Raise e => Raise e
  end.

(** A Python [for] loop whose body may raise. *)
Fixpoint for_each {S A} (body : S -> A -> result S) (xs : list A) (s : S)
  : result S :=
  match xs with
  | [] => Ok s
  | x :: xs' => s' ← body s x; for_each body xs' s'
  end.

(** A comprehension whose element expression may raise. *)
Fixpoint traverse {A B} (f : A -> result B) (xs : list A) : result (list B) :=
  match xs with
  | [] => Ok []
  | x :: xs' => y ← f x; ys ← traverse f xs'; Ok (y :: ys)
  end.

(** [enumerate(xs)] *)
Definition enumerate {A} (xs : list A) : list (nat * A) :=
  combine (seq 0 (length xs)) xs.

(** ** Annotation clean-up ([_clean_up_annotations]) *)

(** [np.unique]: the distinct values of an array in ascending order. *)
Fixpoint unique_insert (v : Z) (l : list Z) : list Z :=
  match l with
  | [] => [v]
  | h :: t =>
      if v <? h then v :: h :: t
      else if v =? h then h :: t
      else h :: unique_insert v t
  end.

Definition np_unique (a : list Z) : list Z := foldr unique_insert [] a.

(** [y_frame_new[y_frame == old_label] = new_label] *)
Definition mask_assign (y_frame : list Z) (old_label new_label : Z)
    (y_frame_new : list Z) : list Z :=
  zip_with (fun v cur => if v =? old_label then new_label else cur)
           y_frame y_frame_new.

(** The body of the loop over frames: the new plane of one frame. *)
Definition clean_frame (y_frame : list Z) : list Z :=
  let unique_cells := np_unique y_frame in
  let y_frame_new := replicate (length y_frame) 0 in
  fold_left
    (fun y_new '(new_label, old_label) =>
       mask_assign y_frame old_label (Z.of_nat new_label) y_new)
    (enumerate unique_cells) y_frame_new.

(** [for frame in range(number_of_frames): ... y[frame] = y_frame_new] *)
Definition clean_up_annotations (y : list (list Z)) : list (list Z) :=
  fold_left
    (fun y frame =>
       match y !! frame with
       | Some y_frame => <[frame := clean_frame y_frame]> y
       | None => y
       end)
    (seq 0 (length y)) y.

(** ** numpy indexing *)

Section indexing.
Context {A : Type}.

(** [a[i]] with Python's negative indices. *)
Definition py_index (a : list A) (i : Z) : result A :=
  let n := Z.of_nat (length a) in
  let j := if i <? 0 then n + i else i in
  if (0 <=? j) && (j <? n) then
    match a !! Z.to_nat j with
    | Some x => Ok x
    | None => Raise IndexError
    end
  else Raise IndexError.

(** [a[frames]] for an index array [frames]. *)
Definition take_indices (a : list A) (frames : list Z) : result (list A) :=
  traverse (py_index a) frames.

(** [a[start:]] *)
Definition slice_from (a : list A) (start : Z) : list A :=
  let n := Z.of_nat (length a) in
  let s := if start <? 0 then Z.max 0 (n + start) else start in
  drop (Z.to_nat s) a.

(** [a[0:-1]] *)
Definition drop_last (a : list A) : list A := take (length a - 1) a.

(** [a[[-1]]] *)
Definition last_row (a : list A) : result (list A) :=
  x ← py_index a (-1); Ok [x].
End indexing.

(** [list(range(-1, -n-1, -1))], that is [-1; -2; ...; -n] *)
Definition range_down (n : nat) : list Z :=
  map (fun k => - Z.of_nat k) (seq 1 n).

(** [np.amax] of a non-empty integer array. *)
Definition amax (a : list Z) : result Z :=
  match a with
  | [] => Raise (ValueError "zero-size array to reduction operation maximum")
  | h :: t => Ok (fold_left Z.max t h)
  end.

(** ** Feature windows ([_fetch_track_appearances] and its siblings) *)

(** The body of the loop over tracks in [_fetch_track_appearances]: the window
    of one track from its stored history [app]. *)
Definition fetch_window {A} (track_length : nat) (app : list A)
  : result (list A) :=
  if Z.of_nat (length app) >? Z.of_nat track_length - 1 then
    Ok (slice_from app (- Z.of_nat track_length))
  else
    let track_length' := length app in
    let missing_frames := (track_length - track_length')%nat in
    let frames :=
      range_down track_length'
        ++ replicate missing_frames (- Z.of_nat track_length') in
    take_indices app frames.

(** The same body in [_fetch_track_perimeters] and [_fetch_track_centroids],
    where the short-history assignment sits in [try: ... except: print(...)]:
    on an exception the row keeps the zeros of [np.zeros]. *)
Definition fetch_window_guarded {A} (zero : A) (track_length : nat)
    (cen : list A) : list A :=
  match fetch_window track_length cen with
  | Ok w => w
  | Raise _ => replicate track_length zero
  end.

(** ** Tracks and the tracker object *)

(** The value of one feature in one frame: a numeric array, flattened. *)
Abbreviation Val := (list R).

(** A Python dict with string keys. *)
Definition dict_get {V} (d : gmap string V) (key : string) : result V :=
  match d !! key with
  | Some v => Ok v
  | None => Raise (KeyError key)
  end.

(** [d.update(items)] *)
Definition dict_update {V} (d : gmap string V) (items : list (string * V))
  : gmap string V :=
  fold_left (fun d '(key, v) => <[key := v]> d) items d.

Record track : Type := Track {
  label : Z;
  frames : list nat;
  daughters : list nat;
  capped : bool;
  parent : option nat;
  feats : gmap string (list Val)
}.

(** The collaborators the class reaches outside this file: the measurements
    of [regionprops] and [resize] inside [_get_features], the Keras model,
    [MovieDataGenerator.random_transform] and scipy's
    [linear_sum_assignment]. *)
Class Collaborators : Type := {
  (** appearance, centroid, neighborhood and perimeter of the cell [label]
      of frame [frame] in the label volume [y] *)
  extract : list (list Z) → nat → Z → Val * Val * Val * Val;
  (** [model.predict]: one probability triple per sample *)
  predict : list (list (list Val)) → list (Q * Q * Q);
  random_transform : list Val → list Val;
  linear_sum_assignment : list (list Q) → list nat * list nat
}.

Record cell_tracker : Type := CellTracker {
  y : list (list Z);
  crop_dim : nat;
  death : Q;
  birth : Q;
  division : Q;
  max_distance : R;
  track_length : nat;
  occupancy_grid_size : nat;
  features : list string;
  feature_shape : gmap string (list nat);
  tracks : list track;
  y_tracked : list (list Z)
}.

Definition set_tracks (self : cell_tracker) (ts : list track) : cell_tracker :=
  CellTracker (y self) (crop_dim self) (death self) (birth self)
    (division self) (max_distance self) (track_length self)
    (occupancy_grid_size self) (features self) (feature_shape self) ts
    (y_tracked self).

Definition set_y_tracked (self : cell_tracker) (yt : list (list Z))
  : cell_tracker :=
  CellTracker (y self) (crop_dim self) (death self) (birth self)
    (division self) (max_distance self) (track_length self)
    (occupancy_grid_size self) (features self) (feature_shape self)
    (tracks self) yt.

(** [self.y[frame]] *)
Definition get_frame (y : list (list Z)) (frame : nat) : result (list Z) :=
  match y !! frame with
  | Some y_frame => Ok y_frame
  | None => Raise IndexError
  end.

Section get_features.
Context `{Collaborators}.

(** [_get_features(X, y, [frame], [cell_label])].  [regionprops] of the mask
    [y_frame == cell_label] is empty when no pixel carries the label, and
    [props[0]] raises [IndexError]. *)
Definition get_features (y : list (list Z)) (frame : nat)
    (cell_label : option Z) : result (list (string * list Val)) :=
  y_frame ← get_frame y frame;
  match cell_label with
  | Some l =>
      if bool_decide (l ∈ y_frame) then
        let '(appearance, centroid, occupancy_grid, perimeter) :=
          extract y frame l in
        Ok [("appearance", [appearance]); ("distance", [centroid]);
            ("neighborhood", [occupancy_grid]); ("perimeter", [perimeter])]
      else Raise IndexError
  | None => Raise IndexError
  end.

(** [_create_new_track(frame, cell_id)]; the new key is the position at the
    end of the list. *)
Definition create_new_track (y : list (list Z)) (tracks : list track)
    (frame : nat) (cell_id : option Z) : result (list track) :=
  let new_track := length tracks in
  let label :=
    match cell_id with
    | None => Z.of_nat new_track + 1
    | Some c => c
    end in
  fs ← get_features y frame cell_id;
  Ok (tracks ++ [Track label [frame] [] false None (dict_update ∅ fs)]).

(** [_initialize_tracks]: the tracks and the first tracked plane. *)
Definition initialize_tracks (y : list (list Z))
  : result (list track * list (list Z)) :=
  y0 ← get_frame y 0;
  let unique_cells := filter (fun l => l ≠ 0) (np_unique y0) in
  tracks ← for_each (fun ts label => create_new_track y ts 0 (Some label))
                    unique_cells [];
  Ok (tracks, [y0]).
End get_features.

(** ** Feature windows of all tracks ([_fetch_track_feature]) *)

Definition fetch_track_appearances (self : cell_tracker)
  : result (list (list Val)) :=
  traverse (fun t => app ← dict_get (feats t) "appearance";
                     fetch_window (track_length self) app)
           (tracks self).

Definition fetch_track_perimeters (self : cell_tracker)
  : result (list (list Val)) :=
  traverse (fun t => per ← dict_get (feats t) "perimeter";
                     Ok (fetch_window_guarded [0%R] (track_length self) per))
           (tracks self).

Definition fetch_track_centroids (self : cell_tracker)
  : result (list (list Val)) :=
  traverse (fun t => cen ← dict_get (feats t) "distance";
                     Ok (fetch_window_guarded [0%R; 0%R] (track_length self) cen))
           (tracks self).

Definition fetch_track_occupancy_grids (self : cell_tracker)
  : result (list (list Val)) :=
  traverse (fun t => og ← dict_get (feats t) "neighborhood";
                     fetch_window (track_length self) og)
           (tracks self).

Definition fetch_track_feature (self : cell_tracker) (feature : string)
  : result (list (list Val)) :=
  if (feature =? "appearance")%string then fetch_track_appearances self
  else if (feature =? "distance")%string then fetch_track_centroids self
  else if (feature =? "perimeter")%string then fetch_track_perimeters self
  else if (feature =? "neighborhood")%string then
    fetch_track_occupancy_grids self
  else Raise (ValueError "_fetch_track_feature: Unknown feature").

(** [{feature_name: self._fetch_track_feature(feature_name)
      for feature_name in self.features}] *)
Definition fetch_track_features (self : cell_tracker)
  : result (gmap string (list (list Val))) :=
  for_each (fun d feature_name =>
              tf ← fetch_track_feature self feature_name;
              Ok (<[feature_name := tf]> d))
           (features self) ∅.

(** ** Distance preprocessing ([_compute_feature]) *)

Section distances.
Open Scope R_scope.

Definition sum_squares (v : Val) : R := foldr (fun x acc => x * x + acc) 0 v.

(** [np.linalg.norm] of a vector *)
Definition norm (v : Val) : R := sqrt (sum_squares v).

(** [np.diff(centroids, axis=0)] *)
Definition np_diff (centroids : list Val) : list Val :=
  zip_with (fun a b => zip_with Rminus b a) centroids (tail centroids).

(** The body of the loop "make sure the distances are all less than max
    distance".  Real numbers have no nan: a division by a zero norm, which
    numpy reports with a warning and answers with nan, is kept apart as
    [FloatingPointError]. *)
Definition clamp (max_distance : R) (dist : Val) : result Val :=
  if Rgt_dec (norm dist) max_distance then
    if Req_dec_T (norm dist) 0 then Raise FloatingPointError
    else Ok (map (fun x => x / norm dist * max_distance) dist)
  else Ok dist.

Definition compute_feature (max_distance : R) (feature_name : string)
    (track_feature : list Val) (frame_feature : Val)
  : result (list Val * Val) :=
  if (feature_name =? "appearance")%string then
    Ok (track_feature, frame_feature)
  else if (feature_name =? "distance")%string then
    let centroids := track_feature ++ [frame_feature] in
    let distances := np_diff centroids in
    let zero_pad := [[0; 0]] in
    let distances := zero_pad ++ distances in
    distances ← traverse (clamp max_distance) distances;
    last ← py_index distances (-1);
    Ok (drop_last distances, last)
  else if (feature_name =? "neighborhood")%string then
    Ok (track_feature, frame_feature)
  else if (feature_name =? "perimeter")%string then
    Ok (track_feature, frame_feature)
  else Raise (NameError "feature").
End distances.

(** ** Matrices of costs *)

Abbreviation matrix := (list (list Q)).

Section matrices.
Open Scope Q_scope.

Definition np_zeros (rows cols : nat) : matrix :=
  replicate rows (replicate cols 0).
Definition np_ones (rows cols : nat) : matrix :=
  replicate rows (replicate cols 1).
Definition np_eye (n : nat) : matrix :=
  map (fun i => map (fun j => if (i =? j)%nat then 1 else 0) (seq 0 n))
      (seq 0 n).
(** [np.diag] of a vector *)
Definition np_diag (v : list Q) : matrix :=
  imap (fun i x => map (fun j => if (i =? j)%nat then x else 0)
                       (seq 0 (length v))) v.
Definition mat_add (a b : matrix) : matrix := zip_with (zip_with Qplus) a b.
Definition mat_sub (a b : matrix) : matrix := zip_with (zip_with Qminus) a b.
Definition mat_scale (c : Q) (a : matrix) : matrix := map (map (Qmult c)) a.
(** [a.T] for [a] with [cols] columns *)
Definition transpose (cols : nat) (a : matrix) : matrix :=
  map (fun j => map (fun row => default 0 (row !! j)) a) (seq 0 cols).

(** [m[r0:r1, c0:c1] = block] *)
Definition set_block (m : matrix) (r0 r1 c0 c1 : nat) (block : matrix)
  : matrix :=
  imap (fun i row =>
          if (r0 <=? i)%nat && (i <? r1)%nat then
            imap (fun j x =>
                    if (c0 <=? j)%nat && (j <? c1)%nat then
                      default x (block !! (i - r0)%nat ≫= (.!! (j - c0)%nat))
                    else x) row
          else row) m.

(** [m[i, j]] *)
Definition entry (m : matrix) (i j : nat) : option Q :=
  m !! i ≫= (.!! j).
End matrices.

(** [np.reshape(a, (rows, cols, ...))] of a flat array of [rows * cols] items *)
Definition reshape {X} (rows cols : nat) (a : list X) : result (list (list X)) :=
  if (length a =? rows * cols)%nat then
    Ok (map (fun r => take cols (drop (r * cols) a)) (seq 0 rows))
  else Raise (ValueError "cannot reshape array").

(** ** The cost matrix ([_get_cost_matrix]) *)

(** [a[i]] for a non-negative position *)
Definition index {A} (a : list A) (i : nat) : result A :=
  match a !! i with
  | Some x => Ok x
  | None => Raise IndexError
  end.

Section cost_matrix.
Context `{Collaborators}.

(** "Fill frame_features with zero matrices" *)
Definition zero_frame_features (self : cell_tracker) (number_of_cells : nat)
  : result (gmap string (list Val)) :=
  for_each (fun d feature_name =>
              feature_shape ← dict_get (feature_shape self) feature_name;
              let zeros := replicate (foldr Nat.mul 1%nat feature_shape) 0%R in
              Ok (<[feature_name := replicate number_of_cells zeros]> d))
           (features self) ∅.

(** "Fill frame_features with the proper values" *)
Definition fill_frame_features (self : cell_tracker) (frame : nat)
    (number_of_cells : nat) (frame_features : gmap string (list Val))
  : result (gmap string (list Val)) :=
  for_each (fun d cell =>
              cell_features ←
                get_features (y self) frame (Some (Z.of_nat cell + 1));
              for_each (fun d '(feature_name, feature_value) =>
                          column ← dict_get d feature_name;
                          Ok (<[feature_name :=
                                  <[cell := concat feature_value]> column]> d))
                       cell_features d)
           (seq 0 number_of_cells) frame_features.

(** The inputs of the model: for every feature, the track windows [in_1]
    and the cell values [in_2], one row per (track, cell) pair in row-major
    order. *)
Definition model_inputs (self : cell_tracker)
    (number_of_tracks number_of_cells : nat)
    (track_features : gmap string (list (list Val)))
    (frame_features : gmap string (list Val))
  : result (list (list (list Val))) :=
  samples ←
    traverse (fun '(track, cell) =>
                traverse (fun feature_name =>
                            tfs ← dict_get track_features feature_name;
                            tf ← index tfs track;
                            ffs ← dict_get frame_features feature_name;
                            ff ← index ffs cell;
                            compute_feature (max_distance self) feature_name
                                            tf ff)
                         (features self))
             (list_prod (seq 0 number_of_tracks) (seq 0 number_of_cells));
  Ok (concat
        (imap (fun i _ =>
                 [ map (fun smp => (default ([], []) (smp !! i)).1) samples;
                   map (fun smp => [(default ([], []) (smp !! i)).2]) samples ])
              (features self))).

(** Lines 229-234: the assignment block, capped tracks barred. *)
Definition capped_assignment (self : cell_tracker)
    (number_of_tracks number_of_cells : nat)
    (predictions : list (list (Q * Q * Q))) : matrix :=
  let assignment_matrix :=
    map (map (fun p : Q * Q * Q => (1 - p.1.2)%Q)) predictions in
  fold_left
    (fun am track =>
       match tracks self !! track with
       | Some t =>
           if capped t then <[track := replicate number_of_cells 1%Q]> am
           else am
       | None => am
       end)
    (seq 0 number_of_tracks) assignment_matrix.

(** Lines 229-253: the matrix from the reshaped predictions. *)
Definition assemble_cost_matrix (self : cell_tracker)
    (number_of_tracks number_of_cells : nat)
    (predictions : list (list (Q * Q * Q))) : matrix :=
  let assignment_matrix :=
    capped_assignment self number_of_tracks number_of_cells predictions in
  let birth_diagonal := replicate number_of_cells (birth self) in
  let birth_matrix :=
    mat_sub (mat_add (np_diag birth_diagonal)
                     (np_ones number_of_cells number_of_cells))
            (np_eye number_of_cells) in
  let death_matrix :=
    mat_sub (mat_add (mat_scale (death self) (np_eye number_of_tracks))
                     (np_ones number_of_tracks number_of_tracks))
            (np_eye number_of_tracks) in
  let mordor_matrix := transpose number_of_cells assignment_matrix in
  let n := (number_of_tracks + number_of_cells)%nat in
  let cost_matrix := np_zeros n n in
  let cost_matrix :=
    set_block cost_matrix 0 number_of_tracks 0 number_of_cells
              assignment_matrix in
  let cost_matrix :=
    set_block cost_matrix number_of_tracks n 0 number_of_cells
              birth_matrix in
  let cost_matrix :=
    set_block cost_matrix 0 number_of_tracks number_of_cells n
              death_matrix in
  let cost_matrix :=
    set_block cost_matrix number_of_tracks n number_of_cells n
              mordor_matrix in
  cost_matrix.

Definition get_cost_matrix (self : cell_tracker) (frame : nat)
  : result matrix :=
  let number_of_tracks := length (tracks self) in
  y_frame ← get_frame (y self) frame;
  number_of_cells ← amax y_frame;
  if number_of_cells <? 0 then
    Raise (ValueError "negative dimensions are not allowed")
  else
    let number_of_cells := Z.to_nat number_of_cells in
    track_features ← fetch_track_features self;
    frame_features ← zero_frame_features self number_of_cells;
    frame_features ←
      fill_frame_features self frame number_of_cells frame_features;
    model_input ←
      model_inputs self number_of_tracks number_of_cells
                   track_features frame_features;
    predictions ←
      reshape number_of_tracks number_of_cells (predict model_input);
    Ok (assemble_cost_matrix self number_of_tracks number_of_cells
                             predictions).

(** [_run_lap] *)
Definition run_lap (cost_matrix : matrix) : list (nat * nat) :=
  let '(row_ind, col_ind) := linear_sum_assignment cost_matrix in
  combine row_ind col_ind.
End cost_matrix.

(** ** Parent search ([_get_parent]) *)

(** [np.amax] of a non-empty array of numbers *)
Definition amaxQ (a : list Q) : result Q :=
  match a with
  | [] => Raise (ValueError "zero-size array to reduction operation maximum")
  | h :: t => Ok (fold_left (fun m x => if Qle_bool m x then x else m) t h)
  end.

(** [np.where(probs == max_prob)[0][0]] *)
Fixpoint first_where (max_prob : Q) (probs : list Q) : result nat :=
  match probs with
  | [] => Raise IndexError
  | p :: probs' =>
      if Qeq_bool p max_prob then Ok 0%nat
      else i ← first_where max_prob probs'; Ok (S i)
  end.

(** Lines 417-433: the decision from the division scores [probs]. *)
Definition choose_parent (tracks : list track) (division : Q) (probs : list Q)
  : result (option nat) :=
  let number_of_tracks := length tracks in
  probs ←
    for_each (fun probs track =>
                t ← index tracks track;
                if capped t then
                  if (track <? length probs)%nat then Ok (<[track := 0%Q]> probs)
                  else Raise IndexError
                else Ok probs)
             (seq 0 number_of_tracks) probs;
  max_prob ← amaxQ probs;
  parent_id ← first_where max_prob probs;
  if negb (Qle_bool max_prob division) then Ok (Some parent_id)
  else Ok None.

Section get_parent.
Context `{Collaborators}.

(** The local function [get_track_and_frame_feature]; the arrays have one
    row per track. *)
Definition get_track_and_frame_feature (self : cell_tracker)
    (feature_name : string)
    (track_feature frame_feature : list (list Val))
  : result (list (list Val) * list (list Val)) :=
  if (feature_name =? "appearance")%string then
    Ok (track_feature, frame_feature)
  else if (feature_name =? "distance")%string then
    let all_centroids := zip_with app track_feature frame_feature in
    let distances := map np_diff all_centroids in
    let distances := map (fun d => [0%R; 0%R] :: d) distances in
    let track_distances := map drop_last distances in
    cell_distances ← traverse last_row distances;
    cell_distances ←
      traverse (fun dist =>
                  if Rgt_dec (norm (concat dist)) (max_distance self) then
                    if Req_dec_T (norm (concat dist)) 0 then
                      Raise FloatingPointError
                    else
                      Ok (map (map (fun x => (x / norm (concat dist)
                                              * max_distance self)%R)) dist)
                  else Ok dist)
               cell_distances;
    Ok (track_distances, cell_distances)
  else if (feature_name =? "neighborhood")%string then
    let occupancy_grids := zip_with app track_feature frame_feature in
    let occupancy_grids := map random_transform occupancy_grids in
    cell_occupancy_grids ← traverse last_row occupancy_grids;
    Ok (map drop_last occupancy_grids, cell_occupancy_grids)
  else if (feature_name =? "perimeter")%string then
    Ok (track_feature, frame_feature)
  else Raise TypeError.

Definition get_parent (self : cell_tracker) (frame : nat) (cell : Z)
  : result (option nat) :=
  track_features ← fetch_track_features self;
  cell_features ← get_features (y self) frame (Some cell);
  let cell_features := dict_update ∅ cell_features in
  frame_features ←
    for_each (fun d feature_name =>
                cf ← dict_get cell_features feature_name;
                tf ← dict_get track_features feature_name;
                Ok (<[feature_name := replicate (length tf) cf]> d))
             (features self) (∅ : gmap string (list (list Val)));
  model_input ←
    for_each (fun model_input feature_name =>
                tf ← dict_get track_features feature_name;
                ff ← dict_get frame_features feature_name;
                '(track_feature, frame_feature) ←
                  get_track_and_frame_feature self feature_name tf ff;
                Ok (model_input ++ [track_feature; frame_feature]))
             (features self) [];
  let predictions := predict model_input in
  let probs := map (fun p : Q * Q * Q => p.2) predictions in
  choose_parent (tracks self) (division self) probs.
End get_parent.

(** ** The track life cycle ([_update_tracks]) *)

(** The three tests of the loop over assignments, on Python integers. *)
Definition is_continuation (number_of_tracks number_of_cells : Z)
    (a : nat * nat) : bool :=
  (Z.of_nat a.1 <? number_of_tracks) && (Z.of_nat a.2 <? number_of_cells).
Definition is_birth (number_of_tracks number_of_cells : Z)
    (a : nat * nat) : bool :=
  (Z.of_nat a.1 >? number_of_tracks - 1) && (Z.of_nat a.2 <? number_of_cells).
Definition is_death (number_of_tracks number_of_cells : Z)
    (a : nat * nat) : bool :=
  (Z.of_nat a.1 <? number_of_tracks) && (Z.of_nat a.2 >? number_of_cells - 1).

(** What [_update_tracks] mutates while it runs: the tracks, the plane
    [y_tracked_update] and the local variable [new_track_id], unbound until
    its first assignment. *)
Record frame_state : Type := FrameState {
  st_tracks : list track;
  y_tracked_update : list Z;
  new_track_id : option nat
}.

(** [frames.remove(frame)]: the first occurrence goes. *)
Fixpoint list_remove (frame : nat) (frames : list nat) : list nat :=
  match frames with
  | [] => []
  | f :: frames' =>
      if (f =? frame)%nat then frames' else f :: list_remove frame frames'
  end.

(** Lines 297-302: record the parent found for the new track. *)
Definition link_parent (tracks : list track) (new_track_id : nat)
    (parent_id : option nat) : result (list track) :=
  new_t ← index tracks new_track_id;
  match parent_id with
  | Some p =>
      let tracks :=
        <[new_track_id := Track (label new_t) (frames new_t) (daughters new_t)
                                (capped new_t) (Some p) (feats new_t)]> tracks in
      parent_t ← index tracks p;
      Ok (<[p := Track (label parent_t) (frames parent_t)
                       (daughters parent_t ++ [new_track_id]) (capped parent_t)
                       (parent parent_t) (feats parent_t)]> tracks)
  | None =>
      Ok (<[new_track_id := Track (label new_t) (frames new_t)
                                  (daughters new_t) (capped new_t) None
                                  (feats new_t)]> tracks)
  end.

(** Lines 311-315: "cap the tracks of cells that divided". *)
Definition cap_tracks (tracks : list track) : list track :=
  let number_of_tracks := length tracks in
  fold_left
    (fun ts track =>
       match ts !! track with
       | Some t =>
           if (0 <? length (daughters t))%nat then
             <[track := Track (label t) (frames t) (daughters t) true
                              (parent t) (feats t)]> ts
           else ts
       | None => ts
       end)
    (seq 0 number_of_tracks) tracks.

Section update_tracks.
Context `{Collaborators}.

(** "Take care of everything if cells are tracked" *)
Definition continue_track (self : cell_tracker) (frame : nat)
    (y_frame : list Z) (track : nat) (cell_id : Z) (st : frame_state)
  : result frame_state :=
  let track_id := Z.of_nat track + 1 in
  t ← index (st_tracks st) track;
  let frames := frames t ++ [frame] in
  cell_features ← get_features (y self) frame (Some cell_id);
  fs ← for_each (fun fs '(feature_name, cell_feature) =>
                   old ← dict_get fs feature_name;
                   Ok (<[feature_name := old ++ cell_feature]> fs))
                cell_features (feats t);
  Ok (FrameState
        (<[track := Track (label t) frames (daughters t) (capped t)
                          (parent t) fs]> (st_tracks st))
        (mask_assign y_frame cell_id track_id (y_tracked_update st))
        (new_track_id st)).

(** "Create a new track if there was a birth" *)
Definition birth_track (self : cell_tracker) (frame : nat)
    (y_frame : list Z) (cell : nat) (st : frame_state)
  : result frame_state :=
  let cell_id := Z.of_nat cell + 1 in
  tracks ← create_new_track (y self) (st_tracks st) frame
                            (Some (Z.of_nat cell + 1));
  let new_track_id := (length tracks - 1)%nat in
  parent_id ← get_parent (set_tracks self tracks) frame cell_id;
  tracks ← link_parent tracks new_track_id parent_id;
  Ok (FrameState tracks
        (mask_assign y_frame (Z.of_nat cell + 1) (Z.of_nat new_track_id + 1)
                     (y_tracked_update st))
        (Some new_track_id)).

(** The body of the loop over assignments. *)
Definition assignment_step (self : cell_tracker) (frame : nat)
    (y_frame : list Z) (number_of_tracks number_of_cells : Z)
    (st : frame_state) (a : nat * nat) : result frame_state :=
  let '(track, cell) := a in
  let cell_id := Z.of_nat cell + 1 in
  st ← (if is_continuation number_of_tracks number_of_cells (track, cell)
        then continue_track self frame y_frame track cell_id st
        else Ok st);
  st ← (if is_birth number_of_tracks number_of_cells (track, cell)
        then birth_track self frame y_frame cell st
        else Ok st);
  if is_death number_of_tracks number_of_cells (track, cell) then Ok st
  else Ok st.

(** The body of the loop "check and make sure cells that divided did not
    get assigned to the same cell". *)
Definition repair_step (self : cell_tracker) (frame : nat)
    (st : frame_state) (track : nat) : result frame_state :=
  t ← index (st_tracks st) track;
  if (0 <? length (daughters t))%nat then
    if bool_decide (frame ∈ frames t) then
      (* print("new track id ", new_track_id) *)
      _ ← match new_track_id st with
          | Some id => Ok id
          | None => Raise (UnboundLocalError "new_track_id")
          end;
      let cell_id := label t in
      tracks ← create_new_track (y self) (st_tracks st) frame (Some cell_id);
      let new_track_id := (length tracks - 1)%nat in
      new_t ← index tracks new_track_id;
      new_fs ← for_each (fun fs feature_name =>
                           history ← dict_get (feats t) feature_name;
                           last ← last_row history;
                           Ok (<[feature_name := last]> fs))
                        (features self) (feats new_t);
      let tracks :=
        <[new_track_id := Track (label new_t) (frames new_t)
                                (daughters new_t) (capped new_t)
                                (Some track) new_fs]> tracks in
      old_fs ← for_each (fun fs feature_name =>
                           history ← dict_get fs feature_name;
                           Ok (<[feature_name := drop_last history]> fs))
                        (features self) (feats t);
      let tracks :=
        <[track := Track (label t) (list_remove frame (frames t))
                         (daughters t ++ [new_track_id]) (capped t)
                         (parent t) old_fs]> tracks in
      Ok (FrameState tracks
            (map (fun v => if v =? Z.of_nat track + 1
                           then Z.of_nat new_track_id + 1 else v)
                 (y_tracked_update st))
            (Some new_track_id))
    else Ok st
  else Ok st.

Definition update_tracks (self : cell_tracker)
    (assignments : list (nat * nat)) (frame : nat) : result cell_tracker :=
  let number_of_tracks := Z.of_nat (length (tracks self)) in
  y_frame ← get_frame (y self) frame;
  number_of_cells ← amax y_frame;
  let zeros := replicate (length y_frame) 0 in
  st ← for_each (assignment_step self frame y_frame number_of_tracks
                                 number_of_cells)
                assignments
                (FrameState (tracks self) zeros None);
  let st := FrameState (cap_tracks (st_tracks st)) (y_tracked_update st)
                       (new_track_id st) in
  let number_of_tracks := length (st_tracks st) in
  st ← for_each (repair_step self frame) (seq 0 number_of_tracks) st;
  Ok (set_y_tracked (set_tracks self (st_tracks st))
                    (y_tracked self ++ [y_tracked_update st])).

(** One iteration of the loop of [_track_cells]: the two calls the file
    shows, followed by the update they prepare. *)
Definition track_frame (self : cell_tracker) (frame : nat)
  : result cell_tracker :=
  cost_matrix ← get_cost_matrix self frame;
  let assignments := run_lap cost_matrix in
  update_tracks self assignments frame.
End update_tracks.

(** ** Construction ([__init__]) *)

(** [sorted(features)] on strings *)
Definition py_sorted (l : list string) : list string :=
  merge_sort (fun a b => String.leb a b) l.

Section init.
Context `{Collaborators}.

(** [cell_tracker(movie, annotation, model, features, ...)].  [channels] is
    [movie.shape[channel_axis]]; the movie itself and the model are reached
    through the collaborators. *)
Definition init (annotation : list (list Z)) (channels : nat)
    (features : option (list string)) (crop_dim : nat) (death birth division : Q)
    (max_distance : R) (track_length occupancy_grid_size : nat)
  : result cell_tracker :=
  match features with
  | None => Raise (ValueError "cell_tracking: No features specified.")
  | Some features =>
      let features := py_sorted features in
      let feature_shape : gmap string (list nat) :=
        <["appearance" := [crop_dim; crop_dim; channels]]>
        (<["neighborhood" := [2 * occupancy_grid_size + 1;
                              2 * occupancy_grid_size + 1; 1]%nat]>
         (<["perimeter" := [1%nat]]>
          (<["distance" := [2%nat]]> ∅))) in
      let y := clean_up_annotations annotation in
      '(tracks, y_tracked) ← initialize_tracks y;
      Ok (CellTracker y crop_dim death birth division max_distance
                      track_length occupancy_grid_size features feature_shape
                      tracks y_tracked)
  end.
End init.

(** ** Vocabulary of the statements *)

(** How many assignments of a matching pass a test of the loop. *)
Fixpoint count {A} (p : A → bool) (l : list A) : nat :=
  match l with
  | [] => 0
  | x :: l' => (if p x then 1 else 0) + count p l'
  end.


(** What the sequence of masked writes of the clean-up does to one pixel
    holding [v]. *)
Definition relabel (pairs : list (nat * Z)) (v cur : Z) : Z :=
  fold_left (fun c '(n, o) => if v =? o then Z.of_nat n else c) pairs cur.

(** Whether the track at key [i] is capped. *)
Definition capped_at (tracks : list track) (i : nat) : bool :=
  match tracks !! i with
  | Some t => capped t
  | None => false
  end.

(** The frame under processing occurs in a track's frames at most once, and
    then last. *)
Definition holds_at_most_last (frame : nat) (t : track) : Prop :=
  frame ∉ frames t ∨ (∃ old, (frame ∉ old) ∧ frames t = old ++ [frame]).

(** A capped track has a daughter. *)
Definition capped_has_daughter (t : track) : Prop :=
  capped t = true → daughters t ≠ [].

(** Same frames and capped flag, daughters kept. *)
Definition keeps_shape (t t' : track) : Prop :=
  frames t' = frames t ∧ capped t' = capped t ∧
  (daughters t ≠ [] → daughters t' ≠ []).

(** What holds of the tracks between two iterations of the loop over
    assignments, [remaining] being the assignments still to come. *)
Definition loop_invariant (frame : nat) (number_of_tracks : Z)
    (remaining : list (nat * nat)) (st : frame_state) : Prop :=
  NoDup (map fst remaining) ∧
  number_of_tracks ≤ Z.of_nat (length (st_tracks st)) ∧
  ∀ i t, st_tracks st !! i = Some t →
    capped_has_daughter t ∧
    ((frame ∉ frames t) ∨
     ((∃ old, (frame ∉ old) ∧ frames t = old ++ [frame]) ∧
      (Z.of_nat i < number_of_tracks → i ∉ map fst remaining))).

(** What holds of the tracks between two iterations of the repair loop. *)
Definition repair_invariant (frame : nat) (number_of_tracks : nat)
    (remaining : list nat) (st : frame_state) : Prop :=
  (number_of_tracks ≤ length (st_tracks st))%nat ∧
  ∀ i t, st_tracks st !! i = Some t →
    capped_has_daughter t ∧ holds_at_most_last frame t ∧
    ((i < number_of_tracks)%nat → i ∉ remaining → daughters t ≠ [] →
     frame ∉ frames t) ∧
    ((number_of_tracks ≤ i)%nat → capped t = false).

(** The track [_create_new_track] makes for the cell [l] of frame [frame]. *)
Definition new_track `{Collaborators} (y : list (list Z)) (frame : nat) (l : Z)
  : track :=
  let '(appearance, centroid, occupancy_grid, perimeter) := extract y frame l in
  Track l [frame] [] false None
        (dict_update ∅ [("appearance", [appearance]); ("distance", [centroid]);
                        ("neighborhood", [occupancy_grid]);
                        ("perimeter", [perimeter])]).

(** The names [_get_features] files its measurements under. *)
Definition feature_names : list string :=
  ["appearance"; "distance"; "neighborhood"; "perimeter"].


(** What one call of [_update_tracks] for [frame] keeps of a track that
    existed before it: label, parent and the frames other than [frame]; the
    daughters it had, as the first ones; the capped flag once it is set. *)
Definition keeps_lineage (frame : nat) (t t' : track) : Prop :=
  label t' = label t ∧ parent t' = parent t ∧
  daughters t `prefix_of` daughters t' ∧
  (capped t = true → capped t' = true) ∧
  filter (fun f => f ≠ frame) (frames t')
  = filter (fun f => f ≠ frame) (frames t).

(** Every track of [ts] is still there in [ts'], under the same key. *)
Definition extends_tracks (frame : nat) (ts ts' : list track) : Prop :=
  ∀ i t, ts !! i = Some t → ∃ t', ts' !! i = Some t' ∧ keeps_lineage frame t t'.

(** A pixel value of the tracked plane: background, or the key plus one of a
    track that holds the frame. *)
Definition tracked_pixel (frame : nat) (tracks : list track) (w : Z) : Prop :=
  w = 0 ∨ (0 < w ∧ ∃ t, tracks !! Z.to_nat (w - 1) = Some t ∧ frame ∈ frames t).

(** ** Sample collaborators and sample states for the examples *)

(** A movie whose cells all sit at the origin, a model that answers every
    sample with the same triple, and a solver that answers the identity
    matching. *)
Definition sample_collaborators : Collaborators := {|
  extract := fun _ _ l => ([IZR l], [0%R; 0%R], [0%R], [1%R]);
  predict := fun model_input =>
    match model_input with
    | in_1 :: _ => map (fun _ => (1 # 10, 8 # 10, 1 # 10)%Q) in_1
    | [] => []
    end;
  random_transform := fun og => og;
  linear_sum_assignment := fun cm => (seq 0 (length cm), seq 0 (length cm))
|}.

(** A track with the given appearance and centroid histories. *)
Definition sample_track (frames : list nat) (daughters : list nat)
    (capped : bool) (appearance centroid : list Val) : track :=
  Track 1 frames daughters capped None
        (dict_update ∅ [("appearance", appearance); ("distance", centroid);
                        ("neighborhood", appearance); ("perimeter", appearance)]).

Definition sample_tracker (y : list (list Z)) (track_length : nat)
    (features : list string) (tracks : list track) : cell_tracker :=
  CellTracker y 1 (9 # 10) (9 # 10) (2 # 10) 200 track_length 0 features
              (dict_update ∅ [("appearance", [1; 1; 1]%nat);
                              ("neighborhood", [1; 1; 1]%nat);
                              ("perimeter", [1%nat]); ("distance", [2%nat])])
              tracks [].

(** One track seen in frames 0 and 1, asked for a window of three frames. *)
Definition two_frame_tracker : cell_tracker :=
  sample_tracker [[0; 1]; [0; 1]] 3
    ["appearance"; "distance"; "neighborhood"; "perimeter"]
    [sample_track [0; 1]%nat [] false [[1%R]; [2%R]] [[0%R; 0%R]; [3%R; 4%R]]].

(** Two tracks before frame 2: track 0 divided in frame 1 (daughter 1, capped)
    and holds frame 0; track 1 was born in frame 1.  Frame 2 shows cells 1
    and 2. *)
Definition divided_tracker : cell_tracker :=
  sample_tracker [[1; 0; 0; 0]; [0; 1; 0; 0]; [1; 2; 0; 0]] 1
    ["appearance"; "distance"; "neighborhood"; "perimeter"]
    [sample_track [0%nat] [1%nat] true [[1%R]] [[0%R; 0%R]];
     Track 1 [1%nat] [] false (Some 0%nat)
           (dict_update ∅ [("appearance", [[1%R]]); ("distance", [[0%R; 0%R]]);
                           ("neighborhood", [[0%R]]); ("perimeter", [[1%R]])])].

(** A track left without any frame, as the repair leaves a track that was
    born, chosen as a parent and repaired in one frame. *)
Definition emptied_tracker : cell_tracker :=
  sample_tracker [[0; 1]; [0; 1]] 1
    ["appearance"; "distance"; "neighborhood"; "perimeter"]
    [sample_track [] [1%nat] true [] []].

(** Two tracks seen in frame 0; frame 1 shows no cell. *)
Definition resting_tracker : cell_tracker :=
  sample_tracker [[1; 2; 0; 0]; [0; 0; 0; 0]] 1
    ["appearance"; "distance"; "neighborhood"; "perimeter"]
    [sample_track [0%nat] [] false [[1%R]] [[0%R; 0%R]];
     sample_track [0%nat] [] false [[2%R]] [[0%R; 0%R]]].

(** A model that sees a division in every pair. *)
Definition dividing_collaborators : Collaborators := {|
  extract := fun _ _ l => ([IZR l], [0%R; 0%R], [0%R], [1%R]);
  predict := fun model_input =>
    match model_input with
    | in_1 :: _ => map (fun _ => (1 # 10, 1 # 10, 8 # 10)%Q) in_1
    | [] => []
    end;
  random_transform := fun og => og;
  linear_sum_assignment := fun cm => (seq 0 (length cm), seq 0 (length cm))
|}.

(** One track seen in frame 0, tracked on appearance alone; frame 1 shows
    cells 1 and 2. *)
Definition dividing_tracker : cell_tracker :=
  sample_tracker [[1; 0]; [1; 2]] 1 ["appearance"]
    [sample_track [0%nat] [] false [[1%R]] [[0%R; 0%R]]].

(** * Properties *)

(** ** Annotation clean-up *)

Section unique_facts.
Implicit Types (v w : Z) (l a : list Z).

Lemma elem_of_unique_insert v w l :
  w ∈ unique_insert v l ↔ w = v ∨ w ∈ l.
Proof.
  induction l as [|h t IH]; simpl.
  - rewrite list_elem_of_singleton, elem_of_nil. tauto.
  - destruct (Z.ltb_spec v h); [by rewrite (elem_of_cons _ w v)|].
    destruct (Z.eqb_spec v h) as [->|].
    + rewrite elem_of_cons. tauto.
    + rewrite !elem_of_cons, IH. tauto.
Qed.

Lemma elem_of_np_unique w a : w ∈ np_unique a ↔ w ∈ a.
Proof.
  induction a as [|x a IH]; simpl; [done|].
  rewrite elem_of_unique_insert, IH, elem_of_cons. tauto.
Qed.

Lemma unique_insert_sorted v l :
  StronglySorted Z.lt l → StronglySorted Z.lt (unique_insert v l).
Proof.
  induction 1 as [|h t Hs IH Hh]; simpl.
  - repeat constructor.
  - destruct (Z.ltb_spec v h).
    + constructor; [by constructor|].
      constructor; [done|]. eapply Forall_impl; [exact Hh|]. simpl; lia.
    + destruct (Z.eqb_spec v h); [by constructor|].
      constructor; [done|].
      apply Forall_forall. intros w Hw.
      apply elem_of_unique_insert in Hw as [->|Hw]; [lia|].
      by eapply Forall_forall in Hh.
Qed.

Lemma np_unique_sorted a : StronglySorted Z.lt (np_unique a).
Proof.
  induction a; simpl; [constructor|by apply unique_insert_sorted].
Qed.

Lemma sorted_lt_NoDup l : StronglySorted Z.lt l → NoDup l.
Proof.
  induction 1 as [|h t Hs IH Hh]; constructor; [|done].
  intros Hin. eapply Forall_forall in Hh; [|done]. lia.
Qed.

Lemma np_unique_NoDup a : NoDup (np_unique a).
Proof. apply sorted_lt_NoDup, np_unique_sorted. Qed.
End unique_facts.

Section clean_frame_facts.
Implicit Types (v w cur : Z) (l y_frame acc : list Z).

Lemma mask_assign_length y_frame o n acc :
  length acc = length y_frame →
  length (mask_assign y_frame o n acc) = length y_frame.
Proof. intros H. unfold mask_assign. rewrite length_zip_with. lia. Qed.

Lemma fold_mask_assign_length pairs y_frame acc :
  length acc = length y_frame →
  length (fold_left (fun y_new '(n, o) => mask_assign y_frame o (Z.of_nat n) y_new)
                    pairs acc) = length y_frame.
Proof.
  revert acc. induction pairs as [|[n o] pairs IH]; intros acc H; simpl; [done|].
  apply IH. by apply mask_assign_length.
Qed.

Lemma fold_mask_assign_lookup pairs y_frame acc p v cur :
  y_frame !! p = Some v → acc !! p = Some cur →
  fold_left (fun y_new '(n, o) => mask_assign y_frame o (Z.of_nat n) y_new)
            pairs acc !! p = Some (relabel pairs v cur).
Proof.
  revert acc cur. induction pairs as [|[n o] pairs IH]; intros acc cur Hv Hc; simpl.
  - done.
  - apply IH; [done|]. unfold mask_assign.
    rewrite lookup_zip_with, Hv. simpl. by rewrite Hc.
Qed.

Lemma relabel_absent l s v cur :
  v ∉ l → relabel (combine (seq s (length l)) l) v cur = cur.
Proof.
  revert s cur. induction l as [|h t IH]; intros s cur Hv; simpl; [done|].
  apply not_elem_of_cons in Hv as [Hne Hv].
  destruct (Z.eqb_spec v h); [done|]. by apply IH.
Qed.

Lemma relabel_position l s v cur i :
  NoDup l → l !! i = Some v →
  relabel (combine (seq s (length l)) l) v cur = Z.of_nat (s + i).
Proof.
  revert s cur i. induction l as [|h t IH]; intros s cur i Hnd Hi; [done|].
  apply NoDup_cons in Hnd as [Hh Hnd]. destruct i as [|i]; simpl in *.
  - injection Hi as ->. rewrite Z.eqb_refl.
    change (relabel (combine (seq (S s) (length t)) t) v (Z.of_nat s) =
            Z.of_nat (s + 0)).
    rewrite relabel_absent by done. f_equal. lia.
  - destruct (Z.eqb_spec v h) as [->|].
    + exfalso. apply Hh. by eapply list_elem_of_lookup_2.
    + change (relabel (combine (seq (S s) (length t)) t) v cur =
              Z.of_nat (s + S i)).
      rewrite (IH (S s) cur i) by done. f_equal. lia.
Qed.

Lemma clean_frame_length y_frame : length (clean_frame y_frame) = length y_frame.
Proof.
  unfold clean_frame. apply fold_mask_assign_length. by rewrite length_replicate.
Qed.

Lemma clean_frame_lookup y_frame p v (k : nat) :
  y_frame !! p = Some v → np_unique y_frame !! k = Some v →
  clean_frame y_frame !! p = Some (Z.of_nat k).
Proof.
  intros Hv Hk. unfold clean_frame, enumerate.
  erewrite fold_mask_assign_lookup; [|done|].
  - f_equal. apply (relabel_position _ 0%nat); [apply np_unique_NoDup|done].
  - apply lookup_lt_Some in Hv. by apply lookup_replicate_2.
Qed.

Lemma clean_up_annotations_map (y : list (list Z)) :
  clean_up_annotations y = map clean_frame y.
Proof.
  unfold clean_up_annotations.
  assert (∀ n, (n ≤ length y)%nat →
    fold_left (fun y0 frame =>
                 match y0 !! frame with
                 | Some y_frame => <[frame := clean_frame y_frame]> y0
                 | None => y0
                 end) (seq 0 n) y
    = map clean_frame (take n y) ++ drop n y) as H.
  { induction n as [|n IH]; intros Hn; [done|].
    rewrite seq_S, fold_left_app, IH by lia. simpl.
    destruct (lookup_lt_is_Some_2 y n) as [yf Hyf]; [lia|].
    assert (length (map clean_frame (take n y)) = n) as Hlen.
    { rewrite length_map, length_take. lia. }
    rewrite lookup_app_r, Hlen, Nat.sub_diag by lia.
    rewrite (drop_S _ _ _ Hyf). simpl.
    rewrite insert_app_r_alt, Hlen, Nat.sub_diag by lia. simpl.
    rewrite (take_S_r _ _ _ Hyf), map_app. simpl. by rewrite <- app_assoc. }
  rewrite H by done. by rewrite firstn_all, drop_all, app_nil_r.
Qed.
End clean_frame_facts.

Section clean_up_claim.
Implicit Types (y : list (list Z)) (y_frame y_new : list Z).

Lemma np_unique_lookup_total y_frame v :
  v ∈ y_frame → ∃ k : nat, np_unique y_frame !! k = Some v.
Proof.
  intros Hv. apply elem_of_np_unique in Hv.
  by apply list_elem_of_lookup_1 in Hv.
Qed.

(** The least value of a frame is the head of its sorted unique values. *)
Lemma np_unique_least y_frame v :
  v ∈ y_frame → (∀ w, w ∈ y_frame → v ≤ w) → np_unique y_frame !! 0%nat = Some v.
Proof.
  intros Hv Hmin. pose proof (np_unique_sorted y_frame) as Hs.
  apply elem_of_np_unique in Hv.
  assert (∀ w, w ∈ np_unique y_frame → v ≤ w) as Hmin'.
  { intros w Hw. apply Hmin. by apply elem_of_np_unique. }
  destruct (np_unique y_frame) as [|h t]; [by apply elem_of_nil in Hv|].
  simpl. f_equal. apply StronglySorted_inv in Hs as [_ Hh].
  apply elem_of_cons in Hv as [->|Hv]; [done|].
  eapply Forall_forall in Hh; [|done].
  specialize (Hmin' h). rewrite elem_of_cons in Hmin'. lia.
Qed.

(** C10.  In every frame, clean-up sends each pixel to the position of its
    old label in the ascending list of the frame's distinct labels.  Hence,
    for label planes (no negative label): a frame with a background pixel
    keeps background 0 and numbers its cells 1..K, every number used; a
    frame without a 0 pixel sends its smallest cell label to 0. *)
Theorem clean_up_annotations_rank y frame y_frame :
  y !! frame = Some y_frame →
  ∃ y_new,
    clean_up_annotations y !! frame = Some y_new ∧
    length y_new = length y_frame ∧
    StronglySorted Z.lt (np_unique y_frame) ∧
    (∀ w, w ∈ np_unique y_frame ↔ w ∈ y_frame) ∧
    (∀ p v, y_frame !! p = Some v →
       ∃ k : nat, y_new !! p = Some (Z.of_nat k) ∧
                  np_unique y_frame !! k = Some v) ∧
    (Forall (Z.le 0) y_frame → 0 ∈ y_frame →
       let K := Z.of_nat (length (np_unique y_frame)) - 1 in
       (∀ p, y_frame !! p = Some 0 → y_new !! p = Some 0) ∧
       (∀ p v, y_frame !! p = Some v → v ≠ 0 →
          ∃ k, y_new !! p = Some k ∧ 1 ≤ k ≤ K) ∧
       (∀ k, 1 ≤ k ≤ K → k ∈ y_new)) ∧
    (Forall (Z.le 0) y_frame → 0 ∉ y_frame →
       ∀ p v, y_frame !! p = Some v → (∀ w, w ∈ y_frame → v ≤ w) →
              v ≠ 0 ∧ y_new !! p = Some 0).
Proof.
  intros Hf. exists (clean_frame y_frame).
  assert (∀ p v, y_frame !! p = Some v →
            ∃ k : nat, clean_frame y_frame !! p = Some (Z.of_nat k) ∧
                       np_unique y_frame !! k = Some v) as Hrank.
  { intros p v Hv.
    destruct (np_unique_lookup_total y_frame v) as [k Hk].
    { by eapply list_elem_of_lookup_2. }
    exists k. split; [by eapply clean_frame_lookup|done]. }
  split_and!.
  - by rewrite clean_up_annotations_map, list_lookup_fmap, Hf.
  - apply clean_frame_length.
  - apply np_unique_sorted.
  - intros w. apply elem_of_np_unique.
  - exact Hrank.
  - intros Hpos H0 K.
    assert (np_unique y_frame !! 0%nat = Some 0) as Hzero.
    { apply np_unique_least; [done|]. intros w Hw.
      by eapply Forall_forall in Hpos. }
    split_and!.
    + intros p Hp. by apply (clean_frame_lookup _ _ 0 0%nat).
    + intros p v Hv Hne. destruct (Hrank p v Hv) as (k & Hk & Hu).
      exists (Z.of_nat k). split; [done|].
      apply lookup_lt_Some in Hu as Hlt.
      destruct k as [|k]; [congruence|]. subst K. lia.
    + intros k Hk. subst K.
      destruct (lookup_lt_is_Some_2 (np_unique y_frame) (Z.to_nat k))
        as [v Hv]; [lia|].
      assert (v ∈ y_frame) as Hin.
      { apply elem_of_np_unique. by eapply list_elem_of_lookup_2. }
      apply list_elem_of_lookup_1 in Hin as [p Hp].
      eapply list_elem_of_lookup_2 with (i := p).
      rewrite (clean_frame_lookup _ _ _ _ Hp Hv). f_equal. lia.
  - intros Hpos H0 p v Hv Hmin. split.
    + intros ->. apply H0. by eapply list_elem_of_lookup_2.
    + apply (clean_frame_lookup _ _ v 0%nat); [done|].
      apply np_unique_least; [|done]. by eapply list_elem_of_lookup_2.
Qed.

Lemma clean_up_annotations_rank_witness :
  ∃ y_new,
    clean_up_annotations [[0; 7; 7; 3]; [5; 9; 5]] !! 1%nat = Some y_new ∧
    y_new = [0; 1; 0].
Proof.
  destruct (clean_up_annotations_rank [[0; 7; 7; 3]; [5; 9; 5]] 1 [5; 9; 5])
    as (y_new & Hy & _); [reflexivity|].
  exists y_new. split; [exact Hy|].
  vm_compute in Hy. by injection Hy as <-.
Defined.
End clean_up_claim.

(** ** Feature windows *)

Section traverse_facts.
Context {A B : Type} (f : A → result B).

Lemma traverse_Forall2 xs ys :
  Forall2 (fun x y => f x = Ok y) xs ys → traverse f xs = Ok ys.
Proof.
  induction 1 as [|x y xs ys Hxy _ IH]; simpl; [done|].
  by rewrite Hxy, IH.
Qed.

Lemma traverse_inv xs ys :
  traverse f xs = Ok ys → Forall2 (fun x y => f x = Ok y) xs ys.
Proof.
  revert ys. induction xs as [|x xs IH]; intros ys; simpl.
  - intros [= <-]. constructor.
  - destruct (f x) as [b|] eqn:Hx; simpl; [|done].
    destruct (traverse f xs) as [bs|]; simpl; [|done].
    intros [= <-]. constructor; [done|]. by apply IH.
Qed.

Lemma traverse_app xs1 xs2 ys1 ys2 :
  traverse f xs1 = Ok ys1 → traverse f xs2 = Ok ys2 →
  traverse f (xs1 ++ xs2) = Ok (ys1 ++ ys2).
Proof.
  intros H1%traverse_inv H2%traverse_inv.
  apply traverse_Forall2. by apply Forall2_app.
Qed.
End traverse_facts.

Section window_facts.
Context {A : Type}.
Implicit Types (app : list A) (W k : nat).

Lemma py_index_neg app k x :
  (1 ≤ k ≤ length app)%nat → app !! (length app - k)%nat = Some x →
  py_index app (- Z.of_nat k) = Ok x.
Proof.
  intros Hk Hx. unfold py_index.
  destruct (Z.ltb_spec (- Z.of_nat k) 0); [|lia].
  replace (Z.of_nat (length app) + - Z.of_nat k)
    with (Z.of_nat (length app - k)) by lia.
  rewrite Nat2Z.id, Hx.
  destruct (Z.leb_spec 0 (Z.of_nat (length app - k))); [|lia].
  destruct (Z.ltb_spec (Z.of_nat (length app - k)) (Z.of_nat (length app)));
    [done|lia].
Qed.

Lemma range_down_lookup k i :
  (i < k)%nat → range_down k !! i = Some (- Z.of_nat (S i)).
Proof.
  intros Hi. unfold range_down.
  rewrite list_lookup_fmap, lookup_seq_lt by done. done.
Qed.

Lemma take_indices_range_down app :
  take_indices app (range_down (length app)) = Ok (reverse app).
Proof.
  apply traverse_Forall2, Forall2_same_length_lookup_2.
  - unfold range_down. by rewrite length_map, length_seq, length_reverse.
  - intros i z x Hz Hx.
    assert (i < length app)%nat as Hi.
    { apply lookup_lt_Some in Hx. by rewrite length_reverse in Hx. }
    rewrite range_down_lookup in Hz by done. injection Hz as <-.
    rewrite reverse_lookup in Hx by done.
    apply py_index_neg; [lia|]. by rewrite <- Hx.
Qed.

Lemma take_indices_oldest app oldest n :
  app !! 0%nat = Some oldest →
  take_indices app (replicate n (- Z.of_nat (length app)))
  = Ok (replicate n oldest).
Proof.
  intros Ho. apply traverse_Forall2, Forall2_replicate.
  apply lookup_lt_Some in Ho as Hlen.
  apply py_index_neg; [lia|]. by rewrite Nat.sub_diag.
Qed.

(** A history shorter than the window: the recorded values newest first,
    then the oldest one repeated. *)
Lemma fetch_window_short W app oldest :
  app !! 0%nat = Some oldest → (length app < W)%nat →
  fetch_window W app
  = Ok (reverse app ++ replicate (W - length app) oldest).
Proof.
  intros Ho Hlen. unfold fetch_window.
  destruct (Z.gtb_spec (Z.of_nat (length app)) (Z.of_nat W - 1)); [lia|].
  apply traverse_app;
    [apply take_indices_range_down|by apply take_indices_oldest].
Qed.

(** A history that fills the window: its last [W] values in recorded
    order. *)
Lemma fetch_window_full W app :
  (1 ≤ W ≤ length app)%nat →
  fetch_window W app = Ok (drop (length app - W) app).
Proof.
  intros HW. unfold fetch_window, slice_from.
  destruct (Z.gtb_spec (Z.of_nat (length app)) (Z.of_nat W - 1)); [|lia].
  destruct (Z.ltb_spec (- Z.of_nat W) 0); [|lia].
  do 2 f_equal. lia.
Qed.

(** The window has [W] slots and every slot holds a recorded value. *)
Lemma fetch_window_recorded W app :
  (1 ≤ W)%nat → app ≠ [] →
  ∃ w, fetch_window W app = Ok w ∧ length w = W ∧ ∀ x, x ∈ w → x ∈ app.
Proof.
  intros HW Hne.
  assert (∃ oldest, app !! 0%nat = Some oldest) as [oldest Ho].
  { destruct app; [done|]. by eexists. }
  destruct (decide (length app < W)%nat) as [Hlt|Hge].
  - eexists. split; [by apply fetch_window_short|]. split.
    + rewrite length_app, length_reverse, length_replicate. lia.
    + intros x [Hx|Hx]%elem_of_app.
      * by rewrite elem_of_reverse in Hx.
      * apply elem_of_replicate in Hx as [-> _].
        eapply list_elem_of_lookup_2. exact Ho.
  - eexists. split; [apply fetch_window_full; lia|]. split.
    + rewrite length_drop. lia.
    + intros x Hx. eapply elem_of_sublist; [exact Hx|apply sublist_drop].
Qed.

(** One recorded frame: the value fills the whole window. *)
Lemma fetch_window_single W (a : A) :
  (1 ≤ W)%nat → fetch_window W [a] = Ok (replicate W a).
Proof.
  intros HW. destruct (decide (W = 1%nat)) as [->|].
  - by rewrite fetch_window_full by (simpl; lia).
  - rewrite (fetch_window_short W [a] a) by (done || simpl; lia).
    simpl. f_equal. destruct W as [|[|W]]; try lia. done.
Qed.
End window_facts.

(** C6 (code bug).  A track recorded in two frames, with appearances [a1] then
    [a2] and centroids [c1] then [c2], asked for a window of three: the code
    answers newest first and pads behind, [a2; a1; a1] and [c2; c1; c1]; the
    oldest-first order [a1; a1; a2] of the full-window branch is not what
    comes out. *)
Theorem fetch_window_short_order :
  fetch_track_appearances two_frame_tracker
  = Ok [[[2%R]; [1%R]; [1%R]]] ∧
  fetch_track_centroids two_frame_tracker
  = Ok [[[3%R; 4%R]; [0%R; 0%R]; [0%R; 0%R]]] ∧
  fetch_track_appearances two_frame_tracker
  ≠ Ok [[[1%R]; [1%R]; [2%R]]] ∧
  fetch_track_centroids two_frame_tracker
  ≠ Ok [[[0%R; 0%R]; [0%R; 0%R]; [3%R; 4%R]]].
Proof.
  assert (fetch_track_appearances two_frame_tracker
          = Ok [[[2%R]; [1%R]; [1%R]]]) as Happ by reflexivity.
  assert (fetch_track_centroids two_frame_tracker
          = Ok [[[3%R; 4%R]; [0%R; 0%R]; [0%R; 0%R]]]) as Hcen by reflexivity.
  split_and!; [done|done| |].
  - rewrite Happ. intros [= Heq]. lra.
  - rewrite Hcen. intros [= Heq _]. lra.
Qed.

(** ** Displacement clamping *)

Section clamp_facts.
Open Scope R_scope.
Implicit Types (v dist : Val) (c : R).

Lemma sum_squares_nonneg v : 0 <= sum_squares v.
Proof.
  induction v as [|x v IH]; simpl; [lra|].
  pose proof (Rle_0_sqr x) as Hx. unfold Rsqr in Hx. lra.
Qed.

Lemma sum_squares_scale c v :
  sum_squares (map (Rmult c) v) = c * c * sum_squares v.
Proof. induction v as [|x v IH]; simpl; [lra|]. rewrite IH. ring. Qed.

Lemma norm_nonneg v : 0 <= norm v.
Proof. apply sqrt_pos. Qed.

Lemma norm_scale c v : 0 <= c → norm (map (Rmult c) v) = c * norm v.
Proof.
  intros Hc. unfold norm. rewrite sum_squares_scale.
  rewrite sqrt_mult; [|nra|apply sum_squares_nonneg].
  by rewrite sqrt_square.
Qed.

Lemma norm_zero_vector : norm [0; 0] = 0.
Proof.
  unfold norm. simpl.
  replace (0 * 0 + (0 * 0 + 0)) with 0 by ring. apply sqrt_0.
Qed.

(** What the loop body leaves in place of one displacement. *)
Lemma clamp_spec max_distance dist :
  0 <= max_distance →
  ∃ out, clamp max_distance dist = Ok out ∧
    (norm dist > max_distance →
       norm dist ≠ 0 ∧
       out = map (fun x => x / norm dist * max_distance) dist ∧
       (∃ c, 0 <= c ∧ out = map (Rmult c) dist) ∧
       norm out = max_distance) ∧
    (norm dist <= max_distance → out = dist).
Proof.
  intros Hmax. unfold clamp.
  destruct (Rgt_dec (norm dist) max_distance) as [Hgt|Hle].
  - assert (norm dist ≠ 0) as Hne by lra.
    destruct (Req_dec_T (norm dist) 0) as [|_]; [done|].
    eexists. split; [done|]. split; [|lra]. intros _.
    assert (map (fun x => x / norm dist * max_distance) dist
            = map (Rmult (max_distance / norm dist)) dist) as Heq.
    { apply map_ext. intros x. field. done. }
    assert (0 <= max_distance / norm dist) as Hc.
    { apply Rmult_le_pos; [done|].
      apply Rlt_le, Rinv_0_lt_compat. lra. }
    split_and!; [done|done|by eexists| ].
    rewrite Heq, norm_scale by done. by field.
  - exists dist. split; [done|]. split; [lra|done].
Qed.

Lemma py_index_last {A} (l : list A) (x : A) :
  py_index (l ++ [x]) (-1) = Ok x.
Proof.
  change (-1)%Z with (- Z.of_nat 1)%Z. apply py_index_neg.
  - rewrite length_app. simpl. lia.
  - rewrite length_app. simpl.
    replace (length l + 1 - 1)%nat with (length l) by lia.
    by rewrite lookup_app_r, Nat.sub_diag.
Qed.

Lemma drop_last_snoc {A} (l : list A) (x : A) : drop_last (l ++ [x]) = l.
Proof.
  unfold drop_last. rewrite length_app. simpl.
  replace (length l + 1 - 1)%nat with (length l) by lia.
  by rewrite take_app_length.
Qed.

Lemma traverse_clamp max_distance (ds : list Val) :
  0 <= max_distance →
  ∃ outs, traverse (clamp max_distance) ds = Ok outs ∧
          Forall2 (fun dist out => clamp max_distance dist = Ok out) ds outs.
Proof.
  intros Hmax. induction ds as [|d ds (outs & Houts & Hall)].
  - exists []. split; [done|constructor].
  - destruct (clamp_spec max_distance d Hmax) as (out & Hout & _).
    exists (out :: outs). split.
    + simpl. by rewrite Hout, Houts.
    + by constructor.
Qed.
End clamp_facts.

Lemma bind_Ok {A B} (a : A) (k : A → result B) : (Ok a ≫= k) = k a.
Proof. reflexivity. Qed.

Section clamp_claim.
Open Scope R_scope.

Lemma compute_feature_distance max_distance track_feature frame_feature :
  compute_feature max_distance "distance" track_feature frame_feature
  = (distances ← traverse (clamp max_distance)
                    ([0; 0] :: np_diff (track_feature ++ [frame_feature]));
     last ← py_index distances (-1);
     Ok (drop_last distances, last)).
Proof. reflexivity. Qed.


End clamp_claim.

(** The copy of the preprocessing inside [_get_parent] clamps the cell-side
    displacement only: the track-side displacements leave it as the plain
    consecutive differences. *)
Lemma get_parent_track_distances `{Collaborators} (self : cell_tracker)
    (track_feature frame_feature track_distances cell_distances
       : list (list Val)) :
  get_track_and_frame_feature self "distance" track_feature frame_feature
  = Ok (track_distances, cell_distances) →
  track_distances
  = map (fun centroids => drop_last ([0%R; 0%R] :: np_diff centroids))
        (zip_with app track_feature frame_feature).
Proof.
  unfold get_track_and_frame_feature. simpl. intros Hget.
  destruct (traverse last_row _) as [cd|]; [|done]. rewrite bind_Ok in Hget.
  destruct (traverse _ cd) as [cd'|]; [|done]. rewrite bind_Ok in Hget.
  injection Hget as <- _. by rewrite !map_map.
Qed.

(** ** The cost matrix *)

Section matrix_facts.
Open Scope Q_scope.
Implicit Types (m a b block : matrix) (i j : nat) (x c : Q).

Lemma entry_np_zeros rows cols i j :
  (i < rows)%nat → (j < cols)%nat → entry (np_zeros rows cols) i j = Some 0.
Proof.
  intros Hi Hj. unfold entry, np_zeros.
  rewrite lookup_replicate_2 by done. simpl. by apply lookup_replicate_2.
Qed.

Lemma entry_np_ones rows cols i j :
  (i < rows)%nat → (j < cols)%nat → entry (np_ones rows cols) i j = Some 1.
Proof.
  intros Hi Hj. unfold entry, np_ones.
  rewrite lookup_replicate_2 by done. simpl. by apply lookup_replicate_2.
Qed.

Lemma entry_np_eye n i j :
  (i < n)%nat → (j < n)%nat →
  entry (np_eye n) i j = Some (if (i =? j)%nat then 1 else 0).
Proof.
  intros Hi Hj. unfold entry, np_eye.
  rewrite list_lookup_fmap, lookup_seq_lt by done. simpl.
  by rewrite list_lookup_fmap, lookup_seq_lt.
Qed.

Lemma entry_np_diag n x i j :
  (i < n)%nat → (j < n)%nat →
  entry (np_diag (replicate n x)) i j = Some (if (i =? j)%nat then x else 0).
Proof.
  intros Hi Hj. unfold entry, np_diag.
  rewrite list_lookup_imap, lookup_replicate_2 by done. simpl.
  by rewrite list_lookup_fmap, length_replicate, lookup_seq_lt.
Qed.

Lemma entry_zip_with (f : Q → Q → Q) a b i j x1 x2 :
  entry a i j = Some x1 → entry b i j = Some x2 →
  entry (zip_with (zip_with f) a b) i j = Some (f x1 x2).
Proof.
  unfold entry. intros Ha Hb.
  rewrite lookup_zip_with.
  destruct (a !! i) as [ra|]; [|done]. destruct (b !! i) as [rb|]; [|done].
  simpl in *. by rewrite lookup_zip_with, Ha, Hb.
Qed.

Lemma entry_mat_scale c a i j x :
  entry a i j = Some x → entry (mat_scale c a) i j = Some (c * x).
Proof.
  unfold entry, mat_scale. intros Ha. rewrite list_lookup_fmap.
  destruct (a !! i) as [ra|]; [|done]. simpl in *.
  by rewrite list_lookup_fmap, Ha.
Qed.

Lemma entry_transpose cols a i j x :
  (j < cols)%nat → entry a i j = Some x →
  entry (transpose cols a) j i = Some x.
Proof.
  unfold entry, transpose. intros Hj Ha.
  rewrite list_lookup_fmap, lookup_seq_lt by done. simpl.
  rewrite list_lookup_fmap.
  destruct (a !! i) as [ra|]; [|done]. simpl in *. by rewrite Ha.
Qed.

Lemma entry_set_block m (r0 r1 c0 c1 : nat) block i j :
  entry (set_block m r0 r1 c0 c1 block) i j
  = (fun x => if (r0 <=? i)%nat && (i <? r1)%nat
                 && ((c0 <=? j)%nat && (j <? c1)%nat)
              then default x (entry block (i - r0) (j - c0)) else x)
    <$> entry m i j.
Proof.
  unfold entry, set_block. rewrite list_lookup_imap.
  destruct (m !! i) as [row|]; [|done]. simpl.
  destruct ((r0 <=? i)%nat && (i <? r1)%nat); simpl.
  - by rewrite list_lookup_imap.
  - by destruct (row !! j).
Qed.
End matrix_facts.

Ltac decide_bounds :=
  repeat match goal with
         | |- context [(?a <=? ?b)%nat] => destruct (Nat.leb_spec a b); try lia
         | |- context [(?a <? ?b)%nat] => destruct (Nat.ltb_spec a b); try lia
         | |- context [(?a =? ?b)%nat] => destruct (Nat.eqb_spec a b); try lia
         end;
  simpl.

Section assemble_facts.
Open Scope Q_scope.
Context `{Collaborators}.
Implicit Types (self : cell_tracker) (predictions : list (list (Q * Q * Q))).

Lemma cap_rows_length self M n (am : matrix) :
  length (fold_left
            (fun am track =>
               match tracks self !! track with
               | Some t => if capped t then <[track := replicate M 1]> am
                           else am
               | None => am
               end) (seq 0 n) am) = length am.
Proof.
  induction n as [|n IH]; [done|].
  rewrite seq_S, fold_left_app. simpl.
  destruct (tracks self !! n) as [t|]; [|done].
  destruct (capped t); [|done]. by rewrite length_insert.
Qed.

Lemma cap_rows_lookup self M n (am : matrix) t tr :
  tracks self !! t = Some tr →
  fold_left
    (fun am track =>
       match tracks self !! track with
       | Some t => if capped t then <[track := replicate M 1]> am else am
       | None => am
       end) (seq 0 n) am !! t
  = (fun row => if (t <? n)%nat && capped tr then replicate M 1 else row)
    <$> am !! t.
Proof.
  intros Ht. induction n as [|n IH].
  - simpl. by destruct (am !! t).
  - rewrite seq_S, fold_left_app. simpl.
    destruct (decide (t = n)) as [->|Hne].
    + rewrite Ht. rewrite Nat.ltb_irrefl in IH. simpl in IH.
      destruct (Nat.ltb_spec n (S n)); [|lia]. simpl.
      destruct (capped tr); [|done].
      destruct (am !! n) as [row|] eqn:Hrow.
      * rewrite list_lookup_insert_eq; [done|].
        rewrite cap_rows_length. by eapply lookup_lt_Some.
      * simpl. apply lookup_ge_None. rewrite length_insert, cap_rows_length.
        by apply lookup_ge_None.
    + assert ((t <? S n)%nat = (t <? n)%nat) as ->.
      { destruct (Nat.ltb_spec t (S n)), (Nat.ltb_spec t n); done || lia. }
      rewrite <- IH.
      destruct (tracks self !! n) as [tn|]; [|done].
      destruct (capped tn); [|done]. by rewrite list_lookup_insert_ne.
Qed.

Lemma entry_capped_assignment self M predictions t c tr p :
  tracks self !! t = Some tr → (t < length (tracks self))%nat → (c < M)%nat →
  predictions !! t ≫= (.!! c) = Some p →
  entry (capped_assignment self (length (tracks self)) M predictions) t c
  = Some (if capped tr then 1 else 1 - p.1.2).
Proof.
  intros Ht HtN Hc Hp. unfold entry, capped_assignment.
  rewrite (cap_rows_lookup _ _ _ _ _ _ Ht), list_lookup_fmap.
  destruct (predictions !! t) as [row|]; [|done]. simpl in *.
  destruct (Nat.ltb_spec t (length (tracks self))); [|lia]. simpl.
  destruct (capped tr).
  - by apply lookup_replicate_2.
  - by rewrite list_lookup_fmap, Hp.
Qed.

Lemma assemble_cost_matrix_blocks self N M predictions :
  assemble_cost_matrix self N M predictions
  = set_block
      (set_block
         (set_block
            (set_block (np_zeros (N + M) (N + M)) 0 N 0 M
                       (capped_assignment self N M predictions))
            N (N + M) 0 M
            (mat_sub (mat_add (np_diag (replicate M (birth self)))
                              (np_ones M M)) (np_eye M)))
         0 N M (N + M)
         (mat_sub (mat_add (mat_scale (death self) (np_eye N))
                           (np_ones N N)) (np_eye N)))
      N (N + M) M (N + M)
      (transpose M (capped_assignment self N M predictions)).
Proof. reflexivity. Qed.
End assemble_facts.

Section get_cost_matrix_facts.
Context `{Collaborators}.

Lemma reshape_shape {X} (rows cols : nat) (a : list X) predictions :
  reshape rows cols a = Ok predictions →
  length predictions = rows ∧ Forall (fun row => length row = cols) predictions.
Proof.
  unfold reshape. destruct (Nat.eqb_spec (length a) (rows * cols)); [|done].
  intros [= <-]. split; [by rewrite length_map, length_seq|].
  apply Forall_forall. intros row [r [-> Hr]]%list_elem_of_fmap.
  apply elem_of_seq in Hr. rewrite length_take, length_drop. nia.
Qed.

(** What [_get_cost_matrix] returns is the assembly of lines 229-253 on the
    model's answer, reshaped to one row per track and one column per cell. *)
Lemma get_cost_matrix_assemble (self : cell_tracker) (frame : nat)
    (cost_matrix : matrix) :
  get_cost_matrix self frame = Ok cost_matrix →
  ∃ (M : nat) model_input predictions,
    reshape (length (tracks self)) M (predict model_input) = Ok predictions ∧
    length predictions = length (tracks self) ∧
    Forall (fun row => length row = M) predictions ∧
    cost_matrix = assemble_cost_matrix self (length (tracks self)) M predictions.
Proof.
  unfold get_cost_matrix. intros Hcm.
  destruct (get_frame (y self) frame) as [y_frame|]; [|done].
  rewrite bind_Ok in Hcm.
  destruct (amax y_frame) as [m|]; [|done]. rewrite bind_Ok in Hcm.
  destruct (m <? 0); [done|].
  destruct (fetch_track_features self) as [tf|]; [|done].
  rewrite bind_Ok in Hcm.
  destruct (zero_frame_features self (Z.to_nat m)) as [zf|]; [|done].
  rewrite bind_Ok in Hcm.
  destruct (fill_frame_features self frame (Z.to_nat m) zf) as [ff|]; [|done].
  rewrite bind_Ok in Hcm.
  destruct (model_inputs self (length (tracks self)) (Z.to_nat m) tf ff)
    as [mi|]; [|done].
  rewrite bind_Ok in Hcm.
  destruct (reshape (length (tracks self)) (Z.to_nat m) (predict mi))
    as [predictions|] eqn:Hre; [|done].
  rewrite bind_Ok in Hcm. injection Hcm as <-.
  destruct (reshape_shape _ _ _ _ Hre) as [Hrows Hcols].
  by exists (Z.to_nat m), mi, predictions.
Qed.
End get_cost_matrix_facts.

Section cost_matrix_claims.
Open Scope Q_scope.
Implicit Types (self : cell_tracker) (predictions : list (list (Q * Q * Q))).

Lemma prediction_lookup predictions N M t c :
  length predictions = N → Forall (fun row => length row = M) predictions →
  (t < N)%nat → (c < M)%nat → ∃ p, predictions !! t ≫= (.!! c) = Some p.
Proof.
  intros HN HM Ht Hc.
  destruct (lookup_lt_is_Some_2 predictions t) as [row Hrow]; [lia|].
  rewrite Hrow. simpl. apply lookup_lt_is_Some_2.
  eapply Forall_lookup_1 in HM; [|done]. lia.
Qed.

(** C2, as the code has it.  With N open tracks and M candidate cells, the
    top-left N×M block of the cost matrix holds, for the pair (track, cell),
    1 minus the component at index 1 of the model's triple (the second
    one), and 1 in the whole row of a capped track. *)
Theorem cost_matrix_top_left self M predictions t c :
  let N := length (tracks self) in
  length predictions = N → Forall (fun row => length row = M) predictions →
  (t < N)%nat → (c < M)%nat →
  ∃ tr p,
    tracks self !! t = Some tr ∧
    predictions !! t ≫= (.!! c) = Some p ∧
    entry (assemble_cost_matrix self N M predictions) t c
    = Some (if capped tr then 1 else 1 - p.1.2).
Proof.
  intros N HN HM Ht Hc.
  destruct (lookup_lt_is_Some_2 (tracks self) t) as [tr Htr]; [done|].
  destruct (prediction_lookup predictions N M t c) as [p Hp]; [done..|].
  exists tr, p. split_and!; [done..|].
  rewrite assemble_cost_matrix_blocks, !entry_set_block.
  rewrite entry_np_zeros by lia. simpl. decide_bounds.
  subst N. rewrite !Nat.sub_0_r.
  by rewrite (entry_capped_assignment self M predictions t c tr p).
Qed.

Lemma cost_matrix_top_left_witness :
  ∃ tr p,
    tracks two_frame_tracker !! 0%nat = Some tr ∧
    [[(7 # 10, 2 # 10, 1 # 10)]] !! 0%nat ≫= (.!! 0%nat) = Some p ∧
    entry (assemble_cost_matrix two_frame_tracker 1 1
                                [[(7 # 10, 2 # 10, 1 # 10)]]) 0 0
    = Some (if capped tr then 1 else 1 - p.1.2).
Proof.
  apply (cost_matrix_top_left two_frame_tracker 1
                              [[(7 # 10, 2 # 10, 1 # 10)]] 0 0).
  - reflexivity.
  - repeat constructor.
  - simpl. lia.
  - lia.
Defined.

(** C2 as the spec words it fails: for the triple (0.7, 0.2, 0.1) of an
    uncapped track the cost is 1 - 0.2, not 1 minus the first component. *)
Lemma cost_matrix_first_component_counterexample :
  ∃ x, entry (assemble_cost_matrix two_frame_tracker 1 1
                                   [[(7 # 10, 2 # 10, 1 # 10)]]) 0 0 = Some x ∧
       x == 1 - (2 # 10) ∧ ¬ x == 1 - (7 # 10).
Proof.
  exists (1 - (2 # 10)). split_and!; [reflexivity|reflexivity|].
  intros Heq. vm_compute in Heq. discriminate.
Qed.
End cost_matrix_claims.

Section cost_matrix_blocks_claim.
Open Scope Q_scope.
Implicit Types (self : cell_tracker) (predictions : list (list (Q * Q * Q))).

Lemma entry_prior_block n x i j :
  (i < n)%nat → (j < n)%nat →
  ∃ v, entry (mat_sub (mat_add (np_diag (replicate n x)) (np_ones n n))
                      (np_eye n)) i j = Some v ∧
       v == (if (i =? j)%nat then x else 1).
Proof.
  intros Hi Hj. eexists. split.
  - unfold mat_sub, mat_add.
    apply entry_zip_with; [|by apply entry_np_eye].
    apply entry_zip_with; [by apply entry_np_diag|by apply entry_np_ones].
  - simpl. destruct (i =? j)%nat; ring.
Qed.

Lemma entry_death_block n x i j :
  (i < n)%nat → (j < n)%nat →
  ∃ v, entry (mat_sub (mat_add (mat_scale x (np_eye n)) (np_ones n n))
                      (np_eye n)) i j = Some v ∧
       v == (if (i =? j)%nat then x else 1).
Proof.
  intros Hi Hj. eexists. split.
  - unfold mat_sub, mat_add.
    apply entry_zip_with; [|by apply entry_np_eye].
    apply entry_zip_with; [|by apply entry_np_ones].
    by apply entry_mat_scale, entry_np_eye.
  - simpl. destruct (i =? j)%nat; ring.
Qed.

(** C3.  With N open tracks and M candidate cells the (N+M)×(N+M) matrix
    has, right of the top-left block, the N×N block with the death cost on
    the diagonal and 1 elsewhere; below it, the M×M block with the birth
    cost on the diagonal and 1 elsewhere; and in the remaining corner the
    transpose of the top-left block as it stands after the capped rows were
    set to 1. *)
Theorem cost_matrix_blocks self M predictions :
  let N := length (tracks self) in
  let cost_matrix := assemble_cost_matrix self N M predictions in
  length predictions = N → Forall (fun row => length row = M) predictions →
  length cost_matrix = (N + M)%nat ∧
  Forall (fun row => length row = (N + M)%nat) cost_matrix ∧
  (∀ i j, (i < N)%nat → (j < N)%nat →
     ∃ v, entry cost_matrix i (M + j) = Some v ∧
          v == (if (i =? j)%nat then death self else 1)) ∧
  (∀ i j, (i < M)%nat → (j < M)%nat →
     ∃ v, entry cost_matrix (N + i) j = Some v ∧
          v == (if (i =? j)%nat then birth self else 1)) ∧
  (∀ t c, (t < N)%nat → (c < M)%nat →
     ∃ v, entry cost_matrix t c = Some v ∧
          entry cost_matrix (N + c) (M + t) = Some v).
Proof.
  intros N cost_matrix HN HM. subst cost_matrix. split_and!.
  - rewrite assemble_cost_matrix_blocks. unfold set_block, np_zeros.
    by rewrite !length_imap, length_replicate.
  - rewrite assemble_cost_matrix_blocks. apply Forall_forall.
    intros row Hrow. apply list_elem_of_lookup_1 in Hrow as [i Hi].
    unfold set_block, np_zeros in Hi.
    rewrite !list_lookup_imap in Hi.
    destruct (replicate (N + M) (replicate (N + M) 0) !! i) as [r0|] eqn:Hr0;
      [|done].
    apply lookup_replicate in Hr0 as [-> _]. simpl in Hi.
    injection Hi as <-.
    repeat match goal with
           | |- context [if ?b then _ else _] => destruct b
           end;
      by rewrite ?length_imap, length_replicate.
  - intros i j Hi Hj.
    destruct (entry_death_block N (death self) i j Hi Hj) as (v & Hv & Heq).
    exists v. split; [|done].
    rewrite assemble_cost_matrix_blocks, !entry_set_block.
    rewrite entry_np_zeros by lia. simpl. decide_bounds.
    rewrite Nat.sub_0_r. replace (M + j - M)%nat with j by lia.
    fold N. by rewrite Hv.
  - intros i j Hi Hj.
    destruct (entry_prior_block M (birth self) i j Hi Hj) as (v & Hv & Heq).
    exists v. split; [|done].
    rewrite assemble_cost_matrix_blocks, !entry_set_block.
    rewrite entry_np_zeros by lia. simpl. decide_bounds.
    rewrite Nat.sub_0_r. replace (N + i - N)%nat with i by lia.
    by rewrite Hv.
  - intros t c Ht Hc.
    destruct (lookup_lt_is_Some_2 (tracks self) t) as [tr Htr]; [done|].
    destruct (prediction_lookup predictions N M t c) as [p Hp]; [done..|].
    pose proof (entry_capped_assignment self M predictions t c tr p
                  Htr Ht Hc Hp) as Hentry.
    eexists. rewrite assemble_cost_matrix_blocks, !entry_set_block.
    rewrite !entry_np_zeros by lia. simpl. decide_bounds.
    rewrite !Nat.sub_0_r.
    replace (N + c - N)%nat with c by lia.
    replace (M + t - M)%nat with t by lia.
    fold N in Hentry.
    rewrite (entry_transpose M _ t c _ Hc Hentry), Hentry. done.
Qed.

Lemma cost_matrix_blocks_witness :
  let cost_matrix :=
    assemble_cost_matrix two_frame_tracker 1 2
                         [[(7 # 10, 2 # 10, 1 # 10); (1 # 10, 8 # 10, 1 # 10)]] in
  length cost_matrix = 3%nat ∧
  ∃ v, entry cost_matrix 0 2 = Some v ∧ v == death two_frame_tracker.
Proof.
  destruct (cost_matrix_blocks two_frame_tracker 2
              [[(7 # 10, 2 # 10, 1 # 10); (1 # 10, 8 # 10, 1 # 10)]])
    as (Hlen & _ & Hdeath & _); [reflexivity|by repeat constructor|].
  split; [exact Hlen|]. apply (Hdeath 0%nat 0%nat); simpl; lia.
Defined.
End cost_matrix_blocks_claim.

(** ** The matching read by the life cycle *)

Section count_facts.
Context {A : Type}.
Implicit Types (p q r : A → bool) (l : list A).




End count_facts.


Section matching_claim.
Implicit Types (assignments : list (nat * nat)) (N M : nat).


End matching_claim.

Section death_claim.
Context `{Collaborators}.

(** C8.  An assignment with track index below N and cell index at least M
    passes the death test only, and the loop body hands back the state it
    was given: every field of every track (frames, feature histories,
    label, parent, daughters, capped flag) is as before. *)
Theorem death_leaves_state (self : cell_tracker) (frame : nat)
    (y_frame : list Z) (N M : Z) (st : frame_state) (track cell : nat) :
  Z.of_nat track < N → M ≤ Z.of_nat cell →
  is_death N M (track, cell) = true ∧
  is_continuation N M (track, cell) = false ∧
  is_birth N M (track, cell) = false ∧
  assignment_step self frame y_frame N M st (track, cell) = Ok st.
Proof.
  intros Htrack Hcell.
  assert (is_death N M (track, cell) = true) as Hdeath.
  { unfold is_death. simpl.
    destruct (Z.ltb_spec (Z.of_nat track) N); [|lia].
    destruct (Z.gtb_spec (Z.of_nat cell) (M - 1)); [done|lia]. }
  assert (is_continuation N M (track, cell) = false) as Hcont.
  { unfold is_continuation. simpl.
    destruct (Z.ltb_spec (Z.of_nat cell) M); [lia|].
    by rewrite andb_false_r. }
  assert (is_birth N M (track, cell) = false) as Hbirth.
  { unfold is_birth. simpl.
    destruct (Z.ltb_spec (Z.of_nat cell) M); [lia|].
    by rewrite andb_false_r. }
  split_and!; [done..|].
  unfold assignment_step. by rewrite Hcont, Hbirth, Hdeath.
Qed.
End death_claim.

Lemma death_leaves_state_witness :
  @assignment_step sample_collaborators two_frame_tracker 1 [0; 1] 1 1
    (FrameState (tracks two_frame_tracker) [0; 0] None) (0, 1)%nat
  = Ok (FrameState (tracks two_frame_tracker) [0; 0] None).
Proof.
  apply (@death_leaves_state sample_collaborators two_frame_tracker 1 [0; 1]
           1 1 (FrameState (tracks two_frame_tracker) [0; 0] None) 0 1); lia.
Defined.

(** ** Parent search *)


Section amax_facts.
Open Scope Q_scope.
Implicit Types (probs : list Q) (m x : Q).



End amax_facts.

Section choose_parent_facts.
Open Scope Q_scope.
Implicit Types (tracks : list track) (probs : list Q).



End choose_parent_facts.

Section parent_claim.
Open Scope Q_scope.
Implicit Types (tracks : list track) (probs : list Q).


End parent_claim.

Section parent_resolution.
Open Scope Q_scope.
Implicit Types (tracks : list track) (probs : list Q).

(** [_get_parent] decides from the third component of the model's triples,
    one per existing track. *)
Lemma get_parent_choose `{Collaborators} (self : cell_tracker) (frame : nat)
    (cell : Z) (r : option nat) :
  get_parent self frame cell = Ok r →
  ∃ model_input,
    choose_parent (tracks self) (division self)
                  (map (fun p : Q * Q * Q => p.2) (predict model_input))
    = Ok r.
Proof.
  unfold get_parent. intros Hr.
  destruct (fetch_track_features self) as [tf|]; [|done].
  rewrite bind_Ok in Hr.
  destruct (get_features (y self) frame (Some cell)) as [cf|]; [|done].
  rewrite bind_Ok in Hr.
  destruct (for_each _ (features self) ∅) as [ff|]; [|done].
  rewrite bind_Ok in Hr.
  destruct (for_each _ (features self) []) as [mi|]; [|done].
  rewrite bind_Ok in Hr. by exists mi.
Qed.


End parent_resolution.

(** ** Construction *)

Section init_facts.
Context `{Collaborators}.

Lemma get_features_present (y : list (list Z)) frame y_frame l :
  y !! frame = Some y_frame → l ∈ y_frame →
  ∃ fs, get_features y frame (Some l) = Ok fs.
Proof.
  intros Hf Hl. unfold get_features, get_frame. rewrite Hf, bind_Ok.
  rewrite bool_decide_eq_true_2 by done.
  destruct (extract y frame l) as [[[a c] g] p]. by eexists.
Qed.

Lemma create_new_track_ok (y : list (list Z)) ts frame l fs :
  get_features y frame (Some l) = Ok fs →
  create_new_track y ts frame (Some l)
  = Ok (ts ++ [Track l [frame] [] false None (dict_update ∅ fs)]).
Proof. intros Hfs. unfold create_new_track. by rewrite Hfs. Qed.

Lemma create_tracks_present (y : list (list Z)) y0 labels ts :
  y !! 0%nat = Some y0 → (∀ l, l ∈ labels → l ∈ y0) →
  ∃ ts', for_each (fun ts label => create_new_track y ts 0 (Some label))
                  labels ts = Ok ts'.
Proof.
  intros Hy0. revert ts. induction labels as [|l labels IH]; intros ts Hin.
  - by eexists.
  - destruct (get_features_present y 0 y0 l) as [fs Hfs];
      [done|apply Hin; by left|].
    cbn [for_each]. rewrite (create_new_track_ok _ _ _ _ _ Hfs), bind_Ok.
    apply IH. intros l' Hl'. apply Hin. by right.
Qed.

Lemma initialize_tracks_ok (y : list (list Z)) :
  y ≠ [] → ∃ r, initialize_tracks y = Ok r.
Proof.
  intros Hy. unfold initialize_tracks, get_frame.
  destruct y as [|y0 y'] eqn:Heq; [done|]. rewrite <- Heq.
  assert (y !! 0%nat = Some y0) as Hy0 by by rewrite Heq.
  rewrite Hy0, bind_Ok.
  destruct (create_tracks_present y y0
              (filter (fun l => l ≠ 0) (np_unique y0)) []) as [ts ->].
  - done.
  - intros l [_ Hl]%list_elem_of_filter. by apply elem_of_np_unique.
  - rewrite bind_Ok. by eexists.
Qed.

(** C9, as the code has it.  The constructor raises [ValueError] when no
    feature collection is given ([features=None]).  Any collection that is
    given, empty or with unknown names, is accepted, sorted and stored
    (the label volume having a first frame).  An unknown name is refused,
    with [ValueError], by [_fetch_track_feature], that is when the windows
    of the tracks are fetched. *)
Theorem init_checks_features_given (annotation : list (list Z))
    (channels : nat) (crop_dim : nat) (death birth division : Q)
    (max_distance : R) (track_length occupancy_grid_size : nat) :
  init annotation channels None crop_dim death birth division max_distance
       track_length occupancy_grid_size
  = Raise (ValueError "cell_tracking: No features specified.") ∧
  (annotation ≠ [] →
   ∀ fs, ∃ self,
     init annotation channels (Some fs) crop_dim death birth division
          max_distance track_length occupancy_grid_size = Ok self ∧
     features self = py_sorted fs) ∧
  (∀ self name,
     name ∉ ["appearance"; "distance"; "perimeter"; "neighborhood"] →
     ∃ msg, fetch_track_feature self name = Raise (ValueError msg)).
Proof.
  split_and!.
  - done.
  - intros Hne fs. unfold init.
    destruct (initialize_tracks_ok (clean_up_annotations annotation))
      as [[ts yt] ->].
    { rewrite clean_up_annotations_map. by destruct annotation. }
    rewrite bind_Ok. by eexists.
  - intros self name Hname. unfold fetch_track_feature.
    assert (∀ s, s ∈ ["appearance"; "distance"; "perimeter"; "neighborhood"]
                 → (name =? s)%string = false) as Hneq.
    { intros s Hs. apply String.eqb_neq. by intros ->. }
    rewrite !Hneq by set_solver. by eexists.
Qed.
End init_facts.

Lemma init_checks_features_given_witness :
  ∃ self,
    @init sample_collaborators [[0; 3; 3; 7]] 1 (Some ["bogus"]) 32
          (9 # 10) (9 # 10) (2 # 10) 200 1 10 = Ok self ∧
    features self = py_sorted ["bogus"].
Proof.
  apply (@init_checks_features_given sample_collaborators [[0; 3; 3; 7]] 1 32
           (9 # 10) (9 # 10) (2 # 10) 200 1 10).
  done.
Defined.

(** C9 as the spec words it fails: the constructor accepts an unknown feature
    name, and it accepts an empty feature collection. *)
Lemma init_accepts_counterexample :
  (∃ self,
     @init sample_collaborators [[0; 3; 3; 7]] 1 (Some ["bogus"]) 32
           (9 # 10) (9 # 10) (2 # 10) 200 1 10 = Ok self ∧
     features self = ["bogus"] ∧ length (tracks self) = 2%nat) ∧
  (∃ self,
     @init sample_collaborators [[0; 3; 3; 7]] 1 (Some []) 32
           (9 # 10) (9 # 10) (2 # 10) 200 1 10 = Ok self ∧
     features self = [] ∧ length (tracks self) = 2%nat).
Proof.
  split; eexists; (split; [reflexivity|split; reflexivity]).
Qed.

(** ** The repair pass *)

Lemma for_each_invariant {S A} (body : S → A → result S)
    (I : list A → S → Prop) :
  (∀ x xs s s', I (x :: xs) s → body s x = Ok s' → I xs s') →
  ∀ xs s s', I xs s → for_each body xs s = Ok s' → I [] s'.
Proof.
  intros Hstep xs. induction xs as [|x xs IH]; intros s s' HI Hrun.
  - simpl in Hrun. by injection Hrun as <-.
  - cbn [for_each] in Hrun. destruct (body s x) as [s1|] eqn:Hbody; [|done].
    rewrite bind_Ok in Hrun. eapply IH; [|done]. by eapply Hstep.
Qed.

Lemma list_remove_absent (frame : nat) (l : list nat) :
  frame ∉ l → list_remove frame l = l.
Proof.
  induction l as [|f l IH]; intros Hnot; simpl; [done|].
  apply not_elem_of_cons in Hnot as [Hne Hnot].
  destruct (Nat.eqb_spec f frame); [done|]. by rewrite IH.
Qed.

Lemma list_remove_last (frame : nat) (old : list nat) :
  frame ∉ old → list_remove frame (old ++ [frame]) = old.
Proof.
  induction old as [|f old IH]; intros Hnot; simpl.
  - by rewrite Nat.eqb_refl.
  - apply not_elem_of_cons in Hnot as [Hne Hnot].
    destruct (Nat.eqb_spec f frame); [done|]. by rewrite IH.
Qed.

Lemma holds_at_most_last_removed frame t :
  holds_at_most_last frame t → frame ∉ list_remove frame (frames t).
Proof.
  intros [Hnot|(old & Hnot & ->)].
  - by rewrite list_remove_absent.
  - by rewrite list_remove_last.
Qed.

(** "Cap the tracks of cells that divided", track by track. *)
Lemma cap_tracks_map (tracks : list track) :
  cap_tracks tracks
  = map (fun t => if (0 <? length (daughters t))%nat
                  then Track (label t) (frames t) (daughters t) true
                             (parent t) (feats t)
                  else t) tracks.
Proof.
  unfold cap_tracks.
  set (f := fun t => if (0 <? length (daughters t))%nat
                     then Track (label t) (frames t) (daughters t) true
                                (parent t) (feats t)
                     else t).
  assert (∀ n, (n ≤ length tracks)%nat →
    fold_left
      (fun ts track =>
         match ts !! track with
         | Some t =>
             if (0 <? length (daughters t))%nat then
               <[track := Track (label t) (frames t) (daughters t) true
                                (parent t) (feats t)]> ts
             else ts
         | None => ts
         end) (seq 0 n) tracks
    = map f (take n tracks) ++ drop n tracks) as Hfold.
  { induction n as [|n IH]; intros Hn; [done|].
    rewrite seq_S, fold_left_app, IH by lia. simpl.
    destruct (lookup_lt_is_Some_2 tracks n) as [t Ht]; [lia|].
    assert (length (map f (take n tracks)) = n) as Hlen.
    { rewrite length_map, length_take. lia. }
    rewrite lookup_app_r, Hlen, Nat.sub_diag by lia.
    rewrite (drop_S _ _ _ Ht). simpl.
    rewrite (take_S_r _ _ _ Ht), map_app. simpl. rewrite <- app_assoc. simpl.
    assert (f t = if (0 <? length (daughters t))%nat
                  then Track (label t) (frames t) (daughters t) true
                             (parent t) (feats t)
                  else t) as -> by done.
    destruct (0 <? length (daughters t))%nat; [|done].
    by rewrite insert_app_r_alt, Hlen, Nat.sub_diag by lia. }
  rewrite Hfold by done. by rewrite firstn_all, drop_all, app_nil_r.
Qed.

Section assignment_loop_facts.
Context `{Collaborators}.
Implicit Types (self : cell_tracker) (st : frame_state) (t : track).

Lemma keeps_shape_refl t : keeps_shape t t.
Proof. by split_and!. Qed.

Lemma insert_keeps_shape (tracks : list track) k t t1 :
  tracks !! k = Some t → keeps_shape t t1 →
  ∀ i t', <[k := t1]> tracks !! i = Some t' →
          ∃ t0, tracks !! i = Some t0 ∧ keeps_shape t0 t'.
Proof.
  intros Hk Hshape i t' Hi.
  apply list_lookup_insert_Some in Hi as [(-> & -> & _)|[Hne Hi]].
  - by exists t.
  - exists t'. split; [done|apply keeps_shape_refl].
Qed.

Lemma link_parent_inv (tracks tracks' : list track) new_id r :
  link_parent tracks new_id r = Ok tracks' →
  length tracks' = length tracks ∧
  ∀ i t', tracks' !! i = Some t' →
          ∃ t, tracks !! i = Some t ∧ keeps_shape t t'.
Proof.
  unfold link_parent, index. intros Hlink.
  destruct (tracks !! new_id) as [new_t|] eqn:Hnew; [|done].
  rewrite bind_Ok in Hlink. destruct r as [p|].
  - set (tracks1 := <[new_id := _]> tracks) in Hlink.
    destruct (tracks1 !! p) as [parent_t|] eqn:Hp; [|done].
    rewrite bind_Ok in Hlink. injection Hlink as <-. split.
    + subst tracks1. by rewrite !length_insert.
    + intros i t' Hi.
      eapply insert_keeps_shape in Hi as (t1 & Ht1 & Hs1); [|exact Hp|].
      * subst tracks1.
        eapply insert_keeps_shape in Ht1 as (t0 & Ht0 & Hs0);
          [|exact Hnew|by split_and!].
        exists t0. split; [done|].
        destruct Hs0 as (Hf0 & Hc0 & Hd0), Hs1 as (Hf1 & Hc1 & Hd1).
        split_and!; [congruence|congruence|auto].
      * split_and!; [done|done|]. simpl. intros _. by destruct (daughters parent_t).
  - injection Hlink as <-. split; [by rewrite length_insert|].
    intros i t' Hi.
    eapply insert_keeps_shape in Hi; [done|exact Hnew|by split_and!].
Qed.

Lemma continue_track_inv self frame y_frame track cell_id st st' :
  continue_track self frame y_frame track cell_id st = Ok st' →
  ∃ t fs,
    st_tracks st !! track = Some t ∧
    st_tracks st'
    = <[track := Track (label t) (frames t ++ [frame]) (daughters t)
                       (capped t) (parent t) fs]> (st_tracks st) ∧
    new_track_id st' = new_track_id st.
Proof.
  unfold continue_track, index. intros Hc.
  destruct (st_tracks st !! track) as [t|]; [|done]. rewrite bind_Ok in Hc.
  destruct (get_features (y self) frame (Some cell_id)) as [cf|]; [|done].
  rewrite bind_Ok in Hc.
  destruct (for_each _ cf (feats t)) as [fs|]; [|done].
  rewrite bind_Ok in Hc. injection Hc as <-. by exists t, fs.
Qed.

Lemma birth_track_inv self frame y_frame cell st st' :
  birth_track self frame y_frame cell st = Ok st' →
  ∃ new_t r,
    link_parent (st_tracks st ++ [new_t]) (length (st_tracks st)) r
    = Ok (st_tracks st') ∧
    frames new_t = [frame] ∧ capped new_t = false ∧ daughters new_t = [] ∧
    new_track_id st' = Some (length (st_tracks st)).
Proof.
  unfold birth_track, create_new_track. intros Hb.
  destruct (get_features (y self) frame (Some (Z.of_nat cell + 1)))
    as [fs|]; [|done].
  rewrite !bind_Ok in Hb.
  destruct (get_parent _ frame (Z.of_nat cell + 1)) as [r|]; [|done].
  rewrite bind_Ok in Hb.
  rewrite length_app in Hb. cbn [length] in Hb.
  replace (length (st_tracks st) + 1 - 1)%nat with (length (st_tracks st))
    in Hb by lia.
  destruct (link_parent _ (length (st_tracks st)) r) as [tracks'|] eqn:Hl;
    [|done].
  rewrite bind_Ok in Hb. injection Hb as <-. by eexists _, r.
Qed.

Lemma loop_invariant_weaken frame N a rest st :
  loop_invariant frame N (a :: rest) st → loop_invariant frame N rest st.
Proof.
  intros (Hnd & Hlen & Hall). split_and!.
  - simpl in Hnd. by apply NoDup_cons in Hnd as [_ ?].
  - done.
  - intros i t Hi. destruct (Hall i t Hi) as [Hcap [Hnot|[Hold Hrem]]].
    + split; [done|by left].
    + split; [done|]. right. split; [done|].
      intros HiN Hin. apply (Hrem HiN). simpl. by right.
Qed.

Lemma assignment_step_invariant self frame y_frame N M st a rest st' :
  loop_invariant frame N (a :: rest) st →
  assignment_step self frame y_frame N M st a = Ok st' →
  loop_invariant frame N rest st'.
Proof.
  intros HI Hstep. destruct a as [track cell]. unfold assignment_step in Hstep.
  destruct (is_continuation N M (track, cell)) eqn:Hcont.
  - assert (is_birth N M (track, cell) = false) as Hbirth.
    { unfold is_continuation, is_birth in *. simpl in *.
      destruct (Z.ltb_spec (Z.of_nat track) N); [|done].
      destruct (Z.gtb_spec (Z.of_nat track) (N - 1)); [lia|done]. }
    rewrite Hbirth in Hstep.
    destruct (continue_track self frame y_frame track (Z.of_nat cell + 1) st)
      as [st1|] eqn:Hc; [|done].
    rewrite !bind_Ok in Hstep.
    assert (st' = st1) as -> by (destruct (is_death _ _ _); congruence).
    apply continue_track_inv in Hc as (t & fs & Ht & Htracks & _).
    destruct HI as (Hnd & Hlen & Hall).
    simpl in Hnd. apply NoDup_cons in Hnd as [Hfresh Hnd].
    assert (Z.of_nat track < N) as HtrackN.
    { unfold is_continuation in Hcont. simpl in Hcont.
      by destruct (Z.ltb_spec (Z.of_nat track) N). }
    split_and!; [done|by rewrite Htracks, length_insert|].
    intros i t' Hi. rewrite Htracks in Hi.
    apply list_lookup_insert_Some in Hi as [(-> & <- & _)|[Hne Hi]].
    + destruct (Hall _ _ Ht) as [Hcap [Hnot|[_ Hrem]]].
      * split; [done|]. right. split; [by exists (frames t)|done].
      * exfalso. apply (Hrem HtrackN). simpl. by left.
    + destruct (Hall _ _ Hi) as [Hcap [Hnot|[Hold Hrem]]].
      * split; [done|by left].
      * split; [done|]. right. split; [done|].
        intros HiN Hin. apply (Hrem HiN). simpl. by right.
  - rewrite bind_Ok in Hstep.
    destruct (is_birth N M (track, cell)) eqn:Hbirth.
    + destruct (birth_track self frame y_frame cell st) as [st2|] eqn:Hb;
        [|done].
      rewrite bind_Ok in Hstep.
      assert (st' = st2) as -> by (destruct (is_death _ _ _); congruence).
      apply birth_track_inv in Hb as (new_t & r & Hl & Hf & Hc & Hd & _).
      apply link_parent_inv in Hl as [Hlen' Hshape].
      apply loop_invariant_weaken in HI as (Hnd & Hlen & Hall).
      split_and!; [done|rewrite Hlen', length_app; simpl; lia|].
      intros i t' Hi. destruct (Hshape i t' Hi) as (t0 & Ht0 & Hf0 & Hc0 & Hd0).
      destruct (decide (i < length (st_tracks st))%nat) as [Hlt|Hge].
      * rewrite lookup_app_l in Ht0 by done.
        destruct (Hall _ _ Ht0) as [Hcap Hframes]. split.
        -- intros Hcapped. apply Hd0, Hcap. congruence.
        -- by rewrite Hf0.
      * rewrite lookup_app_r in Ht0 by lia.
        apply list_lookup_singleton_Some in Ht0 as [_ <-]. split.
        -- intros Hcapped. congruence.
        -- right. split; [|lia]. exists []. rewrite Hf0, Hf.
           split; [apply not_elem_of_nil|done].
    + rewrite bind_Ok in Hstep.
      assert (st' = st) as -> by (destruct (is_death _ _ _); congruence).
      by eapply loop_invariant_weaken.
Qed.
End assignment_loop_facts.

Section repair_facts.
Context `{Collaborators}.
Implicit Types (self : cell_tracker) (st : frame_state) (t : track).

Lemma repair_step_skip self frame st track t :
  st_tracks st !! track = Some t →
  daughters t = [] ∨ frame ∉ frames t →
  repair_step self frame st track = Ok st.
Proof.
  intros Ht Hskip. unfold repair_step, index. rewrite Ht, bind_Ok.
  destruct (daughters t) as [|d ds] eqn:Hd; [done|]. simpl.
  destruct Hskip as [|Hnot]; [done|].
  by rewrite bool_decide_eq_false_2.
Qed.

(** The repair of a track that has a daughter and holds the frame, reached
    before any assignment of [new_track_id]. *)
Lemma repair_step_unbound self frame st track t :
  st_tracks st !! track = Some t →
  daughters t ≠ [] → frame ∈ frames t → new_track_id st = None →
  repair_step self frame st track = Raise (UnboundLocalError "new_track_id").
Proof.
  intros Ht Hd Hf Hid. unfold repair_step, index. rewrite Ht, bind_Ok.
  destruct (daughters t) as [|d ds]; [done|]. simpl.
  rewrite bool_decide_eq_true_2 by done. by rewrite Hid.
Qed.

Lemma dict_get_Some {V} (d : gmap string V) (key : string) (v : V) :
  d !! key = Some v → dict_get d key = Ok v.
Proof. intros Hv. unfold dict_get. by rewrite Hv. Qed.

Lemma last_row_snoc {A} (h : list A) (x : A) : last_row (h ++ [x]) = Ok [x].
Proof. unfold last_row. by rewrite py_index_last. Qed.

(** Re-homing: the new track gets the last entry of every enabled history of
    the old track. *)
Lemma rehome_loop t (features : list string) (fs : gmap string (list Val)) :
  (∀ name, name ∈ features → ∃ h x, feats t !! name = Some (h ++ [x])) →
  ∃ fs',
    for_each (fun fs feature_name =>
                history ← dict_get (feats t) feature_name;
                last ← last_row history;
                Ok (<[feature_name := last]> fs))
             features fs = Ok fs' ∧
    (∀ name h x, name ∈ features → feats t !! name = Some (h ++ [x]) →
                 fs' !! name = Some [x]) ∧
    (∀ name, name ∉ features → fs' !! name = fs !! name).
Proof.
  revert fs. induction features as [|f features IH]; intros fs Hall.
  - exists fs. split_and!; [done| |done].
    intros name h x Hin. by apply elem_of_nil in Hin.
  - destruct (Hall f) as (h & x & Hf); [by left|].
    cbn [for_each].
    rewrite (dict_get_Some _ _ _ Hf), bind_Ok, last_row_snoc, !bind_Ok.
    destruct (IH (<[f := [x]]> fs)) as (fs' & -> & Hin & Hout).
    { intros name Hname. apply Hall. by right. }
    exists fs'. split_and!; [done| |].
    + intros name h' x' Hname Hlook.
      destruct (decide (name ∈ features)) as [Hin'|Hnot]; [by eapply Hin|].
      apply elem_of_cons in Hname as [->|Hname]; [|done].
      rewrite Hout, lookup_insert_eq by done.
      rewrite Hf in Hlook. injection Hlook as Heq.
      apply app_inj_tail in Heq as [_ ->]. done.
    + intros name Hname. apply not_elem_of_cons in Hname as [Hne Hname].
      by rewrite Hout, lookup_insert_ne.
Qed.

(** Truncation: every enabled history of the old track loses its last
    entry. *)
Lemma truncate_loop (features : list string) (fs : gmap string (list Val)) :
  NoDup features →
  (∀ name, name ∈ features → is_Some (fs !! name)) →
  ∃ fs',
    for_each (fun fs feature_name =>
                history ← dict_get fs feature_name;
                Ok (<[feature_name := drop_last history]> fs))
             features fs = Ok fs' ∧
    (∀ name, name ∈ features → fs' !! name = drop_last <$> fs !! name) ∧
    (∀ name, name ∉ features → fs' !! name = fs !! name).
Proof.
  revert fs. induction features as [|f features IH]; intros fs Hnd Hall.
  - exists fs. split_and!; [done| |done].
    intros name Hin. by apply elem_of_nil in Hin.
  - apply NoDup_cons in Hnd as [Hf Hnd].
    destruct (Hall f) as [h Hh]; [by left|].
    cbn [for_each]. rewrite (dict_get_Some _ _ _ Hh), !bind_Ok.
    destruct (IH (<[f := drop_last h]> fs) Hnd) as (fs' & -> & Hin & Hout).
    { intros name Hname. destruct (decide (name = f)) as [->|Hne].
      - rewrite lookup_insert_eq. by eexists.
      - rewrite lookup_insert_ne by done. apply Hall. by right. }
    exists fs'. split_and!; [done| |].
    + intros name [->|Hname]%elem_of_cons.
      * by rewrite Hout, lookup_insert_eq, Hh.
      * rewrite Hin by done. rewrite lookup_insert_ne; [done|].
        intros ->. done.
    + intros name Hname. apply not_elem_of_cons in Hname as [Hne Hname].
      by rewrite Hout, lookup_insert_ne.
Qed.

(** X19.  The repair asks [_get_features] for the label the track got at its
    creation; a frame without that label ends it. *)
Lemma repair_step_label_absent self frame st track t id y_frame :
  st_tracks st !! track = Some t →
  daughters t ≠ [] → frame ∈ frames t → new_track_id st = Some id →
  y self !! frame = Some y_frame → label t ∉ y_frame →
  repair_step self frame st track = Raise IndexError.
Proof.
  intros Ht Hd Hf Hid Hy Hl. unfold repair_step, index. rewrite Ht, bind_Ok.
  destruct (daughters t) as [|d ds]; [done|]. simpl.
  rewrite bool_decide_eq_true_2 by done. rewrite Hid, bind_Ok.
  unfold create_new_track, get_features, get_frame. rewrite Hy, bind_Ok.
  by rewrite bool_decide_eq_false_2.
Qed.

End repair_facts.

Section births_facts.
Context `{Collaborators}.

(** X20.  Every assignment that passes the birth test adds one track, no
    other assignment adds any. *)
Lemma assignment_loop_births (self : cell_tracker) (frame : nat)
    (y_frame : list Z) (N M : Z) (assignments : list (nat * nat))
    (st st' : frame_state) :
  for_each (assignment_step self frame y_frame N M) assignments st = Ok st' →
  length (st_tracks st')
  = (length (st_tracks st) + count (is_birth N M) assignments)%nat.
Proof.
  revert st. induction assignments as [|[track cell] rest IH]; intros st Hrun.
  - simpl in Hrun. injection Hrun as <-. simpl. lia.
  - cbn [for_each] in Hrun.
    destruct (assignment_step self frame y_frame N M st (track, cell))
      as [st1|] eqn:Hstep; [|done].
    rewrite bind_Ok in Hrun. rewrite (IH _ Hrun). cbn [count].
    enough (length (st_tracks st1)
            = (length (st_tracks st)
               + (if is_birth N M (track, cell) then 1 else 0))%nat) by lia.
    unfold assignment_step in Hstep.
    destruct (is_continuation N M (track, cell)) eqn:Hcont.
    + assert (is_birth N M (track, cell) = false) as Hbirth.
      { unfold is_continuation, is_birth in *. simpl in *.
        destruct (Z.ltb_spec (Z.of_nat track) N); [|done].
        destruct (Z.gtb_spec (Z.of_nat track) (N - 1)); [lia|done]. }
      rewrite Hbirth in *.
      destruct (continue_track self frame y_frame track _ st) as [st2|] eqn:Hc;
        [|done].
      rewrite !bind_Ok in Hstep.
      assert (st1 = st2) as -> by (destruct (is_death _ _ _); congruence).
      apply continue_track_inv in Hc as (t & fs & _ & -> & _).
      rewrite length_insert. lia.
    + rewrite bind_Ok in Hstep.
      destruct (is_birth N M (track, cell)).
      * destruct (birth_track self frame y_frame cell st) as [st2|] eqn:Hb;
          [|done].
        rewrite bind_Ok in Hstep.
        assert (st1 = st2) as -> by (destruct (is_death _ _ _); congruence).
        apply birth_track_inv in Hb as (new_t & r & Hl & _).
        apply link_parent_inv in Hl as [-> _]. rewrite length_app. simpl. lia.
      * rewrite bind_Ok in Hstep.
        assert (st1 = st) as -> by (destruct (is_death _ _ _); congruence).
        lia.
Qed.
End births_facts.

Section repair_loop_facts.
Context `{Collaborators}.
Implicit Types (self : cell_tracker) (st : frame_state) (t : track).

Lemma repair_step_inv self frame st track st' :
  repair_step self frame st track = Ok st' →
  ∃ t, st_tracks st !! track = Some t ∧
    ((st' = st ∧ (daughters t = [] ∨ frame ∉ frames t)) ∨
     (daughters t ≠ [] ∧ frame ∈ frames t ∧
      ∃ fs0 fs_new fs_old,
        st_tracks st'
        = <[track := Track (label t) (list_remove frame (frames t))
                           (daughters t ++ [length (st_tracks st)])
                           (capped t) (parent t) fs_old]>
            (<[length (st_tracks st) :=
                 Track (label t) [frame] [] false (Some track) fs_new]>
               (st_tracks st ++ [Track (label t) [frame] [] false None fs0])))).
Proof.
  unfold repair_step, index. intros Hr.
  destruct (st_tracks st !! track) as [t|] eqn:Ht; [|done].
  rewrite bind_Ok in Hr. exists t. split; [done|].
  destruct (daughters t) as [|d ds] eqn:Hd.
  { left. injection Hr as <-. split; [done|by left]. }
  cbn [length Nat.ltb Nat.leb] in Hr.
  destruct (decide (frame ∈ frames t)) as [Hin|Hnot].
  - rewrite bool_decide_eq_true_2 in Hr by done.
    destruct (new_track_id st) as [id|]; [|done]. rewrite bind_Ok in Hr.
    unfold create_new_track in Hr.
    destruct (get_features (y self) frame (Some (label t))) as [fs|]; [|done].
    rewrite !bind_Ok in Hr. rewrite length_app in Hr. cbn [length] in Hr.
    replace (length (st_tracks st) + 1 - 1)%nat with (length (st_tracks st))
      in Hr by lia.
    rewrite lookup_app_r, Nat.sub_diag in Hr by lia.
    cbn [lookup list_lookup] in Hr. rewrite bind_Ok in Hr. cbn [feats] in Hr.
    destruct (for_each _ (features self) (dict_update ∅ fs)) as [fs_new|];
      [|done].
    rewrite bind_Ok in Hr.
    destruct (for_each _ (features self) (feats t)) as [fs_old|]; [|done].
    rewrite bind_Ok in Hr. injection Hr as <-. right.
    split_and!; [done|done|]. by eexists _, _, _.
  - rewrite bool_decide_eq_false_2 in Hr by done. injection Hr as <-.
    left. split; [done|by right].
Qed.

Lemma repair_step_invariant self frame N' st track rest st' :
  repair_invariant frame N' (track :: rest) st → track ∉ rest →
  repair_step self frame st track = Ok st' →
  repair_invariant frame N' rest st'.
Proof.
  intros [Hlen Hall] Hfresh Hr.
  apply repair_step_inv in Hr as (t & Ht & [[-> Hskip]|(Hd & Hin & Hst')]).
  - split; [done|]. intros i t0 Hi.
    destruct (Hall i t0 Hi) as (Hcap & Hlast & Hdone & Hnew).
    split_and!; [done|done| |done].
    intros HiN Hi' Hdi. destruct (decide (i = track)) as [->|Hne].
    + rewrite Ht in Hi. injection Hi as <-. by destruct Hskip.
    + apply Hdone; [done| |done]. by apply not_elem_of_cons.
  - destruct Hst' as (fs0 & fs_new & fs_old & Hst').
    apply lookup_lt_Some in Ht as Htrack.
    destruct (Hall _ _ Ht) as (Hcap & Hlast & _ & Hnew).
    split; [rewrite Hst', !length_insert, length_app; simpl; lia|].
    intros i t' Hi. rewrite Hst' in Hi.
    apply list_lookup_insert_Some in Hi as [(<- & <- & _)|[Hne Hi]].
    + split_and!.
      * intros _. simpl. by destruct (daughters t).
      * left. by apply holds_at_most_last_removed.
      * intros _ _ _. by apply holds_at_most_last_removed.
      * done.
    + apply list_lookup_insert_Some in Hi as [(<- & <- & _)|[Hne' Hi]].
      * split_and!; [done| |simpl; lia|done].
        right. exists []. split; [apply not_elem_of_nil|done].
      * assert (i < length (st_tracks st))%nat as Hlt.
        { apply lookup_lt_Some in Hi. rewrite length_app in Hi. simpl in Hi.
          lia. }
        rewrite lookup_app_l in Hi by done.
        destruct (Hall i t' Hi) as (Hcap' & Hlast' & Hdone' & Hnew').
        split_and!; [done|done| |done].
        intros HiN Hi' Hdi. apply Hdone'; [done| |done].
        apply not_elem_of_cons. split; [congruence|done].
Qed.
End repair_loop_facts.

Section update_tracks_facts.
Context `{Collaborators}.
Implicit Types (self : cell_tracker) (st : frame_state) (t : track).

(** X17.  When [_update_tracks] runs to its end on a matching that continues
    each track at most once, from tracks that do not hold the frame yet and
    whose capped ones have a daughter, no capped track holds the frame. *)
Lemma update_tracks_releases_capped self assignments frame self' :
  update_tracks self assignments frame = Ok self' →
  NoDup (map fst assignments) →
  (∀ t, t ∈ tracks self → frame ∉ frames t) →
  (∀ t, t ∈ tracks self → capped_has_daughter t) →
  ∀ t, t ∈ tracks self' → capped_has_daughter t ∧
                          (capped t = true → frame ∉ frames t).
Proof.
  unfold update_tracks. intros Hrun Hnd Hfresh Hcapped.
  destruct (get_frame (y self) frame) as [y_frame|]; [|done].
  rewrite bind_Ok in Hrun.
  destruct (amax y_frame) as [M|]; [|done]. rewrite bind_Ok in Hrun.
  destruct (for_each (assignment_step self frame y_frame _ M) assignments _)
    as [st1|] eqn:Hloop; [|done].
  rewrite bind_Ok in Hrun.
  destruct (for_each (repair_step self frame) _ _) as [st2|] eqn:Hrepair;
    [|done].
  rewrite bind_Ok in Hrun. injection Hrun as <-. cbn [tracks set_y_tracked set_tracks].
  (* the loop over assignments *)
  apply (for_each_invariant _ (loop_invariant frame
                                 (Z.of_nat (length (tracks self)))))
    in Hloop as (_ & _ & Hall1).
  2:{ intros a rest s s'. apply assignment_step_invariant. }
  2:{ split_and!; [done|simpl; lia|]. intros i t Hi. simpl in Hi.
      apply list_elem_of_lookup_2 in Hi. split; [by apply Hcapped|].
      left. by apply Hfresh. }
  (* the repair loop *)
  cbn [st_tracks] in Hrepair.
  set (N' := length (cap_tracks (st_tracks st1))) in Hrepair.
  apply (for_each_invariant _
           (fun rem st => NoDup rem ∧ repair_invariant frame N' rem st))
    in Hrepair as (_ & _ & Hall2).
  2:{ intros track rest s s' [[Hfr Hnd']%NoDup_cons HI] Hstep.
      split; [done|]. by eapply repair_step_invariant. }
  2:{ split; [apply NoDup_seq|]. split; [done|].
      intros i t Hi. cbn [st_tracks] in Hi.
      apply lookup_lt_Some in Hi as HiN. fold N' in HiN.
      rewrite cap_tracks_map, list_lookup_fmap in Hi.
      destruct (st_tracks st1 !! i) as [t1|] eqn:Ht1; [|done].
      injection Hi as <-. destruct (Hall1 _ _ Ht1) as [Hcap1 Hframes1].
      destruct (daughters t1) as [|d ds] eqn:Hd1; simpl.
      - split_and!; [done| | |lia].
        + destruct Hframes1 as [?|[? _]]; [by left|by right].
        + intros _ Hnot. exfalso. apply Hnot, elem_of_seq. lia.
      - split_and!; [by intros _| | |lia].
        + destruct Hframes1 as [?|[? _]]; [by left|by right].
        + intros _ Hnot. exfalso. apply Hnot, elem_of_seq. lia. }
  intros t [i Hi]%list_elem_of_lookup_1.
  destruct (Hall2 i t Hi) as (Hcap & _ & Hdone & Hnew).
  split; [done|]. intros Hc.
  destruct (decide (i < N')%nat) as [Hlt|Hge].
  - apply Hdone; [done|apply not_elem_of_nil|by apply Hcap].
  - rewrite Hnew in Hc by lia. done.
Qed.
End update_tracks_facts.

(** C1 (code bug).  Track 0 was capped in an earlier frame; in frame 2 the
    matching continues tracks 0 and 1 and has no birth.  After the loop over
    assignments and the capping, track 0 is capped and holds frame 2; the
    repair pass then reads [new_track_id], which no birth has assigned, and
    raises [UnboundLocalError]: the frame is not removed and no fresh
    daughter is attached. *)
Theorem repair_reads_unbound_new_track_id :
  @update_tracks sample_collaborators divided_tracker
    [(0, 0); (1, 1); (2, 2); (3, 3)]%nat 2
  = Raise (UnboundLocalError "new_track_id") ∧
  ∃ st t,
    for_each (@assignment_step sample_collaborators divided_tracker 2
                               [1; 2; 0; 0] 2 2)
             [(0, 0); (1, 1); (2, 2); (3, 3)]%nat
             (FrameState (tracks divided_tracker) [0; 0; 0; 0] None) = Ok st ∧
    new_track_id st = None ∧
    cap_tracks (st_tracks st) !! 0%nat = Some t ∧
    capped t = true ∧ daughters t = [1%nat] ∧ frames t = [0; 2]%nat.
Proof.
  split; [reflexivity|].
  eexists _, _. split_and!; reflexivity.
Qed.

(** * Further properties *)

(** ** Clean-up, cell counts and the first tracks *)

Section relabelled_frames.
Implicit Types (y_frame l : list Z).

Lemma sorted_lt_ext l1 l2 :
  StronglySorted Z.lt l1 → StronglySorted Z.lt l2 →
  (∀ x, x ∈ l1 ↔ x ∈ l2) → l1 = l2.
Proof.
  intros Hs1. revert l2. induction Hs1 as [|h1 t1 Hs1 IH Hh1]; intros l2 Hs2 Hext.
  - destruct l2 as [|h2 t2]; [done|].
    exfalso. eapply elem_of_nil, Hext. by left.
  - destruct Hs2 as [|h2 t2 Hs2 Hh2].
    { exfalso. eapply elem_of_nil, Hext. by left. }
    assert (h1 = h2) as <-.
    { assert (h1 ∈ h2 :: t2) as [->|Hin1]%elem_of_cons by (apply Hext; by left);
        [done|].
      assert (h2 ∈ h1 :: t1) as [->|Hin2]%elem_of_cons by (apply Hext; by left);
        [done|].
      eapply Forall_forall in Hh1; [|exact Hin2].
      eapply Forall_forall in Hh2; [|exact Hin1]. lia. }
    f_equal. apply IH; [done|]. intros x. split; intros Hx.
    + assert (x ∈ h1 :: t2) as [->|?]%elem_of_cons by (apply Hext; by right);
        [|done].
      eapply Forall_forall in Hh1; [|exact Hx]. lia.
    + assert (x ∈ h1 :: t1) as [->|?]%elem_of_cons by (apply Hext; by right);
        [|done].
      eapply Forall_forall in Hh2; [|exact Hx]. lia.
Qed.

Lemma ranks_sorted (s n : nat) : StronglySorted Z.lt (map Z.of_nat (seq s n)).
Proof.
  revert s. induction n as [|n IH]; intros s; simpl; constructor; [apply IH|].
  apply Forall_forall. intros x [k [-> Hk]]%list_elem_of_fmap.
  apply elem_of_seq in Hk. lia.
Qed.

Lemma elem_of_clean_frame y_frame x :
  x ∈ clean_frame y_frame ↔
  ∃ k : nat, x = Z.of_nat k ∧ (k < length (np_unique y_frame))%nat.
Proof.
  split.
  - intros [p Hp]%list_elem_of_lookup_1.
    destruct (lookup_lt_is_Some_2 y_frame p) as [v Hv].
    { apply lookup_lt_Some in Hp. by rewrite clean_frame_length in Hp. }
    destruct (np_unique_lookup_total y_frame v) as [k Hk].
    { by eapply list_elem_of_lookup_2. }
    rewrite (clean_frame_lookup _ _ _ _ Hv Hk) in Hp. injection Hp as <-.
    exists k. split; [done|]. by eapply lookup_lt_Some.
  - intros (k & -> & Hk).
    destruct (lookup_lt_is_Some_2 (np_unique y_frame) k Hk) as [v Hv].
    assert (v ∈ y_frame) as [p Hp]%list_elem_of_lookup_1.
    { apply elem_of_np_unique. by eapply list_elem_of_lookup_2. }
    eapply list_elem_of_lookup_2. by eapply clean_frame_lookup.
Qed.

(** The distinct values of a cleaned frame are the ranks 0, 1, ..., K. *)
Lemma np_unique_clean_frame y_frame :
  np_unique (clean_frame y_frame)
  = map Z.of_nat (seq 0 (length (np_unique y_frame))).
Proof.
  apply sorted_lt_ext; [apply np_unique_sorted|apply ranks_sorted|].
  intros x. rewrite elem_of_np_unique, elem_of_clean_frame. split.
  - intros (k & -> & Hk). apply list_elem_of_fmap. exists k.
    split; [done|]. apply elem_of_seq. lia.
  - intros [k [-> Hk]]%list_elem_of_fmap. exists k. split; [done|].
    apply elem_of_seq in Hk. lia.
Qed.

Lemma clean_frame_idempotent y_frame :
  clean_frame (clean_frame y_frame) = clean_frame y_frame.
Proof.
  apply list_eq. intros p.
  destruct (clean_frame y_frame !! p) as [x|] eqn:Hx.
  - assert (x ∈ clean_frame y_frame) as (k & -> & Hk)%elem_of_clean_frame
        by by eapply list_elem_of_lookup_2.
    apply (clean_frame_lookup _ _ _ _ Hx).
    rewrite np_unique_clean_frame, list_lookup_fmap, lookup_seq_lt by done.
    done.
  - apply lookup_ge_None. rewrite clean_frame_length.
    by apply lookup_ge_None.
Qed.

Lemma amax_spec l :
  l ≠ [] → ∃ m, amax l = Ok m ∧ m ∈ l ∧ ∀ x, x ∈ l → x ≤ m.
Proof.
  destruct l as [|h t]; [done|]. intros _. simpl.
  assert (∀ t h, let r := fold_left Z.max t h in
                 (r = h ∨ r ∈ t) ∧ h ≤ r ∧ ∀ x, x ∈ t → x ≤ r) as Hfold.
  { clear. induction t as [|a t IH]; intros h; simpl.
    - split_and!; [by left|lia|]. intros x Hx. by apply elem_of_nil in Hx.
    - destruct (IH (Z.max h a)) as (Hin & Hle & Hall). split_and!.
      + destruct Hin as [->|Hin]; [|right; by right].
        destruct (Z.max_spec h a) as [[_ ->]|[_ ->]]; [right; by left|by left].
      + lia.
      + intros x [->|Hx]%elem_of_cons; [lia|by apply Hall]. }
  destruct (Hfold t h) as (Hin & Hle & Hall).
  eexists. split_and!; [done| |].
  - destruct Hin as [->|Hin]; [by left|by right].
  - intros x [->|Hx]%elem_of_cons; [done|by apply Hall].
Qed.
End relabelled_frames.

(** X1.  Clean-up is idempotent: relabelling a label volume that was already
    relabelled changes nothing. *)
Theorem clean_up_annotations_idempotent (y : list (list Z)) :
  clean_up_annotations (clean_up_annotations y) = clean_up_annotations y.
Proof.
  rewrite !clean_up_annotations_map, map_map.
  apply map_ext. intros y_frame. apply clean_frame_idempotent.
Qed.

(** X2.  In a cleaned frame the largest label, which [_get_cost_matrix] and
    [_update_tracks] take as the number of cells, is the number of distinct
    labels of the original frame minus one, and every label from 0 up to it
    occurs. *)
Theorem number_of_cells_after_clean_up (y : list (list Z)) (frame : nat)
    (y_frame : list Z) :
  y !! frame = Some y_frame → y_frame ≠ [] →
  ∃ y_new,
    clean_up_annotations y !! frame = Some y_new ∧
    amax y_new = Ok (Z.of_nat (length (np_unique y_frame)) - 1) ∧
    ∀ l, 0 ≤ l ≤ Z.of_nat (length (np_unique y_frame)) - 1 → l ∈ y_new.
Proof.
  intros Hf Hne. exists (clean_frame y_frame). split_and!.
  - by rewrite clean_up_annotations_map, list_lookup_fmap, Hf.
  - assert (0 < length (np_unique y_frame))%nat as Hpos.
    { destruct y_frame as [|v rest]; [done|].
      destruct (np_unique_lookup_total (v :: rest) v) as [k Hk]; [by left|].
      apply lookup_lt_Some in Hk. lia. }
    destruct (amax_spec (clean_frame y_frame)) as (m & -> & Hm & Hmax).
    { intros Hnil. apply (f_equal length) in Hnil.
      rewrite clean_frame_length in Hnil. by destruct y_frame. }
    f_equal. apply elem_of_clean_frame in Hm as (k & -> & Hk).
    assert (Z.of_nat (length (np_unique y_frame) - 1) ≤ Z.of_nat k); [|lia].
    apply Hmax, elem_of_clean_frame. eexists. split; [done|lia].
  - intros l Hl. apply elem_of_clean_frame. exists (Z.to_nat l). split; lia.
Qed.

Lemma number_of_cells_after_clean_up_witness :
  ∃ y_new,
    clean_up_annotations [[0; 7; 7; 3]; [5; 9; 5]] !! 1%nat = Some y_new ∧
    amax y_new = Ok 1.
Proof.
  destruct (number_of_cells_after_clean_up [[0; 7; 7; 3]; [5; 9; 5]] 1 [5; 9; 5])
    as (y_new & Hy & Hmax & _); [reflexivity|done|].
  exists y_new. split; [exact Hy|exact Hmax].
Defined.

Section first_tracks.
Context `{Collaborators}.
Implicit Types (y : list (list Z)) (ts : list track).

Lemma create_new_track_present y ts frame (y_frame : list Z) l :
  y !! frame = Some y_frame → l ∈ y_frame →
  create_new_track y ts frame (Some l) = Ok (ts ++ [new_track y frame l]).
Proof.
  intros Hf Hl. unfold create_new_track, get_features, get_frame, new_track.
  rewrite Hf, bind_Ok, bool_decide_eq_true_2 by done.
  by destruct (extract y frame l) as [[[a c] g] p].
Qed.

Lemma create_new_track_absent y ts frame (y_frame : list Z) l :
  y !! frame = Some y_frame → l ∉ y_frame →
  create_new_track y ts frame (Some l) = Raise IndexError.
Proof.
  intros Hf Hl. unfold create_new_track, get_features, get_frame.
  by rewrite Hf, bind_Ok, bool_decide_eq_false_2.
Qed.

Lemma new_track_history y frame l name :
  name ∈ feature_names → ∃ v, feats (new_track y frame l) !! name = Some [v].
Proof.
  unfold new_track. destruct (extract y frame l) as [[[a c] g] p].
  intros Hname. unfold feature_names in Hname.
  repeat (apply elem_of_cons in Hname as [->|Hname]; [by eexists|]).
  by apply elem_of_nil in Hname.
Qed.

Lemma create_tracks_map y (y0 : list Z) labels ts :
  y !! 0%nat = Some y0 → (∀ l, l ∈ labels → l ∈ y0) →
  for_each (fun ts label => create_new_track y ts 0 (Some label)) labels ts
  = Ok (ts ++ map (new_track y 0) labels).
Proof.
  intros Hy0. revert ts. induction labels as [|l labels IH]; intros ts Hin.
  - simpl. by rewrite app_nil_r.
  - cbn [for_each].
    rewrite (create_new_track_present y ts 0 y0 l) by (done || apply Hin; by left).
    rewrite bind_Ok, IH by (intros l' Hl'; apply Hin; by right).
    by rewrite <- app_assoc.
Qed.

Lemma initialize_tracks_map y (y0 : list Z) :
  y !! 0%nat = Some y0 →
  initialize_tracks y
  = Ok (map (new_track y 0) (filter (fun l => l ≠ 0) (np_unique y0)), [y0]).
Proof.
  intros Hy0. unfold initialize_tracks, get_frame. rewrite Hy0, bind_Ok.
  rewrite (create_tracks_map y y0); [done..|].
  intros l [_ Hl]%list_elem_of_filter. by apply elem_of_np_unique.
Qed.
End first_tracks.

Lemma filter_nonzero_ranks (n : nat) :
  filter (fun l => l ≠ 0) (map Z.of_nat (seq 0 n))
  = map Z.of_nat (seq 1 (n - 1)).
Proof.
  destruct n as [|n]; [done|]. simpl. rewrite Nat.sub_0_r.
  rewrite filter_cons_False by (intros Hne; by apply Hne).
  assert (∀ s, (1 ≤ s)%nat →
            filter (fun l => l ≠ 0) (map Z.of_nat (seq s n))
            = map Z.of_nat (seq s n)) as Hkeep.
  { induction n as [|n IH]; intros s Hs; simpl; [done|].
    rewrite filter_cons_True by lia. by rewrite IH by lia. }
  by apply Hkeep.
Qed.

Section first_tracks_claims.
Context `{Collaborators}.

(** X3.  [_initialize_tracks] opens one track per distinct non-zero label of
    frame 0, in ascending label order: track [i] carries the [i]-th such
    label, holds frame 0 only, has no parent and no daughter, is not capped,
    and has one recorded value for each of the four features; the tracked
    volume starts as frame 0. *)
Theorem initialize_tracks_one_per_cell (y : list (list Z)) (y0 : list Z) :
  y !! 0%nat = Some y0 →
  ∃ tracks,
    initialize_tracks y = Ok (tracks, [y0]) ∧
    map label tracks = filter (fun l => l ≠ 0) (np_unique y0) ∧
    Forall (fun t =>
              frames t = [0%nat] ∧ daughters t = [] ∧ capped t = false ∧
              parent t = None ∧
              ∀ name, name ∈ feature_names → ∃ v, feats t !! name = Some [v])
           tracks.
Proof.
  intros Hy0. eexists. split_and!.
  - by apply initialize_tracks_map.
  - rewrite map_map. rewrite <- (map_id (filter _ _)) at 2.
    apply map_ext. intros l. unfold new_track.
    by destruct (extract y 0 l) as [[[a c] g] p].
  - apply Forall_forall. intros t [l [-> _]]%list_elem_of_fmap.
    split_and!; try (unfold new_track;
                     by destruct (extract y 0 l) as [[[a c] g] p]).
    intros name. apply new_track_history.
Qed.

(** X4.  Construction composes clean-up and initialisation: with any feature
    collection given, the tracker starts with the cleaned volume, the cleaned
    frame 0 as tracked volume, and tracks labelled 1, 2, ..., K in this
    order, K being the number of distinct labels of the original frame 0
    minus one. *)
Theorem init_numbers_tracks (annotation : list (list Z)) (a0 : list Z)
    (channels : nat) (fs : list string) (crop_dim : nat)
    (death birth division : Q) (max_distance : R)
    (track_length occupancy_grid_size : nat) :
  annotation !! 0%nat = Some a0 →
  ∃ self,
    init annotation channels (Some fs) crop_dim death birth division
         max_distance track_length occupancy_grid_size = Ok self ∧
    y self = clean_up_annotations annotation ∧
    y_tracked self = [clean_frame a0] ∧
    features self = py_sorted fs ∧
    map label (tracks self)
    = map Z.of_nat (seq 1 (length (np_unique a0) - 1)) ∧
    Forall (fun t => frames t = [0%nat] ∧ daughters t = [] ∧
                     capped t = false ∧ parent t = None) (tracks self).
Proof.
  intros Ha0. unfold init.
  assert (clean_up_annotations annotation !! 0%nat = Some (clean_frame a0))
    as Hy0 by by rewrite clean_up_annotations_map, list_lookup_fmap, Ha0.
  rewrite (initialize_tracks_map _ _ Hy0), bind_Ok.
  eexists. split; [done|]. cbn [y y_tracked features tracks].
  split_and!; [done..| |].
  - rewrite map_map, np_unique_clean_frame, filter_nonzero_ranks.
    rewrite <- (map_id (map Z.of_nat _)) at 2.
    apply map_ext. intros l. unfold new_track.
    by destruct (extract _ 0 l) as [[[a c] g] p].
  - apply Forall_forall. intros t [l [-> _]]%list_elem_of_fmap.
    unfold new_track. by destruct (extract _ 0 l) as [[[a c] g] p].
Qed.
End first_tracks_claims.

Lemma initialize_tracks_one_per_cell_witness :
  ∃ tracks,
    @initialize_tracks sample_collaborators [[0; 2; 2; 1]] = Ok (tracks, [[0; 2; 2; 1]]) ∧
    map label tracks = [1; 2].
Proof.
  destruct (@initialize_tracks_one_per_cell sample_collaborators
              [[0; 2; 2; 1]] [0; 2; 2; 1])
    as (tracks & Hinit & Hlabels & _); [reflexivity|].
  exists tracks. split; [exact Hinit|exact Hlabels].
Defined.

Lemma init_numbers_tracks_witness :
  ∃ self,
    @init sample_collaborators [[0; 3; 3; 7]] 1 (Some ["distance"; "appearance"])
          32 (9 # 10) (9 # 10) (2 # 10) 200 1 10 = Ok self ∧
    map label (tracks self) = [1; 2].
Proof.
  destruct (@init_numbers_tracks sample_collaborators [[0; 3; 3; 7]] [0; 3; 3; 7]
              1 ["distance"; "appearance"] 32 (9 # 10) (9 # 10) (2 # 10) 200 1 10)
    as (self & Hinit & _ & _ & _ & Hlabels & _); [reflexivity|].
  exists self. split; [exact Hinit|exact Hlabels].
Defined.

(** ** The windows of all tracks *)

Section traverse_more.
Context {A B : Type} (f : A → result B).

Lemma traverse_total (P : A → B → Prop) xs :
  (∀ x, x ∈ xs → ∃ y, f x = Ok y ∧ P x y) →
  ∃ ys, traverse f xs = Ok ys ∧ Forall2 P xs ys.
Proof.
  induction xs as [|x xs IH]; intros Hall.
  - exists []. split; [done|constructor].
  - destruct (Hall x) as (y0 & Hy & HP); [by left|].
    destruct IH as (ys & Hys & HF); [intros x' Hx'; apply Hall; by right|].
    exists (y0 :: ys). split; [|by constructor].
    cbn [traverse]. by rewrite Hy, bind_Ok, Hys.
Qed.

Lemma traverse_raises xs x :
  x ∈ xs → (∃ e, f x = Raise e) → ∃ e, traverse f xs = Raise e.
Proof.
  intros Hx [e He]. induction xs as [|h xs IH]; [by apply elem_of_nil in Hx|].
  cbn [traverse]. destruct (f h) as [b|e'] eqn:Hh; [|by eexists].
  rewrite bind_Ok.
  apply elem_of_cons in Hx as [->|Hx]; [congruence|].
  destruct (IH Hx) as [e'' ->]. by eexists.
Qed.
End traverse_more.

Section track_windows.
Implicit Types (self : cell_tracker) (t : track).

Lemma fetch_window_empty {A} (W : nat) :
  (1 ≤ W)%nat → fetch_window W ([] : list A) = Raise IndexError.
Proof.
  intros HW. unfold fetch_window.
  destruct (Z.gtb_spec (Z.of_nat (length ([] : list A))) (Z.of_nat W - 1));
    [simpl in *; lia|].
  destruct W as [|W]; [lia|]. reflexivity.
Qed.

Lemma fetch_window_guarded_recorded {A} (zero : A) (W : nat) (h : list A) :
  (1 ≤ W)%nat → h ≠ [] →
  ∃ w, fetch_window_guarded zero W h = w ∧ fetch_window W h = Ok w ∧
       length w = W ∧ ∀ x, x ∈ w → x ∈ h.
Proof.
  intros HW Hh. destruct (fetch_window_recorded W h HW Hh) as (w & Hw & Hlen & Hin).
  exists w. unfold fetch_window_guarded. by rewrite Hw.
Qed.

(** X5.  With a window of at least one frame and a non-empty history of the
    feature in every track, [_fetch_track_feature] answers, for each of the
    four features, one window per track, of exactly [track_length] values,
    each of them a value recorded for that feature in that track. *)
Theorem fetch_track_feature_windows self (name : string) :
  (1 ≤ track_length self)%nat → name ∈ feature_names →
  (∀ t, t ∈ tracks self → ∃ h, feats t !! name = Some h ∧ h ≠ []) →
  ∃ windows,
    fetch_track_feature self name = Ok windows ∧
    Forall2 (fun t w =>
               length w = track_length self ∧
               ∀ x, x ∈ w → ∃ h, feats t !! name = Some h ∧ x ∈ h)
            (tracks self) windows.
Proof.
  intros HW Hname Hall. unfold feature_names in Hname.
  unfold fetch_track_feature, fetch_track_appearances, fetch_track_centroids,
    fetch_track_perimeters, fetch_track_occupancy_grids.
  repeat (apply elem_of_cons in Hname as [->|Hname]); simpl;
    [| | | |by apply elem_of_nil in Hname];
    apply traverse_total; intros t Ht;
    destruct (Hall t Ht) as (h & Hh & Hne);
    rewrite (dict_get_Some _ _ _ Hh), bind_Ok.
  - destruct (fetch_window_recorded _ h HW Hne) as (w & -> & Hlen & Hin).
    exists w. split_and!; [done..|]. intros x Hx. exists h. auto.
  - destruct (fetch_window_guarded_recorded [0%R; 0%R] _ h HW Hne)
      as (w & -> & _ & Hlen & Hin).
    exists w. split_and!; [done..|]. intros x Hx. exists h. auto.
  - destruct (fetch_window_recorded _ h HW Hne) as (w & -> & Hlen & Hin).
    exists w. split_and!; [done..|]. intros x Hx. exists h. auto.
  - destruct (fetch_window_guarded_recorded [0%R] _ h HW Hne)
      as (w & -> & _ & Hlen & Hin).
    exists w. split_and!; [done..|]. intros x Hx. exists h. auto.
Qed.

(** X6.  A track whose history is empty: fetching appearances or occupancy
    grids then raises, while fetching centroids or perimeters, whose
    short-history branch swallows the exception, answers as long as every
    track has the key, with a window of zeros for that track. *)
Theorem fetch_track_feature_empty_history self t :
  (1 ≤ track_length self)%nat → t ∈ tracks self →
  (feats t !! "appearance" = Some [] →
   ∃ e, fetch_track_feature self "appearance" = Raise e) ∧
  (feats t !! "neighborhood" = Some [] →
   ∃ e, fetch_track_feature self "neighborhood" = Raise e) ∧
  (feats t !! "distance" = Some [] →
   (∀ t', t' ∈ tracks self → is_Some (feats t' !! "distance")) →
   ∃ windows, fetch_track_feature self "distance" = Ok windows ∧
              replicate (track_length self) [0%R; 0%R] ∈ windows) ∧
  (feats t !! "perimeter" = Some [] →
   (∀ t', t' ∈ tracks self → is_Some (feats t' !! "perimeter")) →
   ∃ windows, fetch_track_feature self "perimeter" = Ok windows ∧
              replicate (track_length self) [0%R] ∈ windows).
Proof.
  intros HW Ht.
  unfold fetch_track_feature, fetch_track_appearances, fetch_track_centroids,
    fetch_track_perimeters, fetch_track_occupancy_grids. simpl.
  split_and!.
  - intros Hempty. eapply traverse_raises; [exact Ht|].
    rewrite (dict_get_Some _ _ _ Hempty), bind_Ok, fetch_window_empty by done.
    by eexists.
  - intros Hempty. eapply traverse_raises; [exact Ht|].
    rewrite (dict_get_Some _ _ _ Hempty), bind_Ok, fetch_window_empty by done.
    by eexists.
  - intros Hempty Hkeys.
    destruct (traverse_total
                (fun t => cen ← dict_get (feats t) "distance";
                          Ok (fetch_window_guarded [0%R; 0%R] (track_length self) cen))
                (fun t w => ∀ cen, feats t !! "distance" = Some cen →
                                   w = fetch_window_guarded [0%R; 0%R]
                                         (track_length self) cen)
                (tracks self)) as (ws & Hws & HF).
    { intros t' Ht'. destruct (Hkeys t' Ht') as [cen Hcen].
      rewrite (dict_get_Some _ _ _ Hcen), bind_Ok. eexists. split; [done|].
      intros cen' Hcen'. congruence. }
    exists ws. split; [done|].
    apply list_elem_of_lookup_1 in Ht as [i Hi].
    destruct (Forall2_lookup_l _ _ _ _ _ HF Hi) as (w & Hw & Hspec).
    rewrite (Hspec _ Hempty) in Hw. apply list_elem_of_lookup_2 in Hw.
    unfold fetch_window_guarded in Hw.
    by rewrite fetch_window_empty in Hw by done.
  - intros Hempty Hkeys.
    destruct (traverse_total
                (fun t => per ← dict_get (feats t) "perimeter";
                          Ok (fetch_window_guarded [0%R] (track_length self) per))
                (fun t w => ∀ per, feats t !! "perimeter" = Some per →
                                   w = fetch_window_guarded [0%R]
                                         (track_length self) per)
                (tracks self)) as (ws & Hws & HF).
    { intros t' Ht'. destruct (Hkeys t' Ht') as [per Hper].
      rewrite (dict_get_Some _ _ _ Hper), bind_Ok. eexists. split; [done|].
      intros per' Hper'. congruence. }
    exists ws. split; [done|].
    apply list_elem_of_lookup_1 in Ht as [i Hi].
    destruct (Forall2_lookup_l _ _ _ _ _ HF Hi) as (w & Hw & Hspec).
    rewrite (Hspec _ Hempty) in Hw. apply list_elem_of_lookup_2 in Hw.
    unfold fetch_window_guarded in Hw.
    by rewrite fetch_window_empty in Hw by done.
Qed.
End track_windows.

Lemma fetch_track_feature_windows_witness :
  ∃ windows,
    fetch_track_feature two_frame_tracker "appearance" = Ok windows ∧
    length windows = 1%nat.
Proof.
  destruct (fetch_track_feature_windows two_frame_tracker "appearance")
    as (windows & Hw & HF).
  - simpl. lia.
  - by left.
  - intros t Ht. apply list_elem_of_singleton in Ht as ->.
    eexists. split; [reflexivity|done].
  - exists windows. split; [exact Hw|].
    apply Forall2_length in HF. by rewrite <- HF.
Defined.

Lemma fetch_track_feature_empty_history_witness :
  (∃ e, fetch_track_feature emptied_tracker "appearance" = Raise e) ∧
  (∃ windows, fetch_track_feature emptied_tracker "distance" = Ok windows ∧
              replicate 1 [0%R; 0%R] ∈ windows).
Proof.
  destruct (fetch_track_feature_empty_history emptied_tracker
              (sample_track [] [1%nat] true [] []))
    as (Happ & _ & Hcen & _).
  - simpl. lia.
  - by left.
  - split; [by apply Happ|]. apply Hcen; [reflexivity|].
    intros t Ht. apply list_elem_of_singleton in Ht as ->. by eexists.
Defined.

(** ** Feature names the tracker cannot work with *)

Lemma for_each_raises {S A} (body : S → A → result S) (xs : list A) (x : A) :
  x ∈ xs → (∀ s, ∃ e, body s x = Raise e) →
  ∀ s, ∃ e, for_each body xs s = Raise e.
Proof.
  intros Hx Hbody. induction xs as [|h xs IH]; intros s;
    [by apply elem_of_nil in Hx|].
  cbn [for_each]. destruct (body s h) as [s'|e] eqn:Hh; [|by eexists].
  rewrite bind_Ok. apply elem_of_cons in Hx as [->|Hx].
  - destruct (Hbody s) as [e He]. congruence.
  - by apply IH.
Qed.

Section feature_names_facts.
Context `{Collaborators}.
Implicit Types (self : cell_tracker).

Lemma fetch_track_feature_unknown self name :
  name ∉ feature_names →
  fetch_track_feature self name
  = Raise (ValueError "_fetch_track_feature: Unknown feature").
Proof.
  intros Hname. unfold fetch_track_feature.
  assert (∀ s, s ∈ feature_names → (name =? s)%string = false) as Hneq.
  { intros s Hs. apply String.eqb_neq. by intros ->. }
  rewrite !Hneq; [done|unfold feature_names..]; set_solver.
Qed.

Lemma fetch_track_features_unknown self name :
  name ∈ features self → name ∉ feature_names →
  ∃ e, fetch_track_features self = Raise e.
Proof.
  intros Hin Hname. unfold fetch_track_features.
  apply (for_each_raises _ _ name); [done|]. intros d.
  rewrite fetch_track_feature_unknown by done. by eexists.
Qed.

(** X7.  With a feature name outside the four known ones among the enabled
    features, the windows of the tracks cannot be fetched: [_get_cost_matrix]
    raises for every frame and [_get_parent] for every cell. *)
Theorem unknown_feature_stops_tracking self name (frame : nat) (cell : Z) :
  name ∈ features self → name ∉ feature_names →
  (∃ e, get_cost_matrix self frame = Raise e) ∧
  (∃ e, get_parent self frame cell = Raise e).
Proof.
  intros Hin Hname.
  destruct (fetch_track_features_unknown self name Hin Hname) as [e He].
  split.
  - unfold get_cost_matrix.
    destruct (get_frame (y self) frame) as [y_frame|]; [|by eexists].
    rewrite bind_Ok. destruct (amax y_frame) as [m|]; [|by eexists].
    rewrite bind_Ok. destruct (m <? 0); [by eexists|].
    rewrite He. by eexists.
  - unfold get_parent. rewrite He. by eexists.
Qed.
End feature_names_facts.

Lemma unknown_feature_stops_tracking_witness :
  (∃ e, @get_cost_matrix sample_collaborators
          (sample_tracker [[0; 1]; [0; 1]] 1 ["appearance"; "bogus"]
             [sample_track [0%nat] [] false [[1%R]] [[0%R; 0%R]]]) 1
        = Raise e).
Proof.
  apply (@unknown_feature_stops_tracking sample_collaborators
           (sample_tracker [[0; 1]; [0; 1]] 1 ["appearance"; "bogus"]
              [sample_track [0%nat] [] false [[1%R]] [[0%R; 0%R]]])
           "bogus" 1 1).
  - right. by left.
  - unfold feature_names. intros Hin.
    repeat (apply elem_of_cons in Hin as [Heq|Hin]; [discriminate|]).
    by apply elem_of_nil in Hin.
Defined.

Section missing_feature.
Context `{Collaborators}.
Implicit Types (self : cell_tracker) (d : gmap string (list Val)).

Lemma zero_frame_features_keys self (M : nat) d :
  zero_frame_features self M = Ok d →
  ∀ key, is_Some (d !! key) → key ∈ features self.
Proof.
  unfold zero_frame_features. intros Hrun.
  apply (for_each_invariant _
           (fun rem d => (∀ x, x ∈ rem → x ∈ features self) ∧
                         ∀ key, is_Some (d !! key) → key ∈ features self))
    in Hrun as [_ Hkeys]; [done| |].
  - intros x rest d0 d1 [Hrem Hkeys] Hbody. split.
    + intros x' Hx'. apply Hrem. by right.
    + destruct (dict_get (feature_shape self) x) as [shape|]; [|done].
      rewrite bind_Ok in Hbody. injection Hbody as <-.
      intros key. destruct (decide (key = x)) as [->|Hne].
      * intros _. apply Hrem. by left.
      * rewrite lookup_insert_ne by done. apply Hkeys.
  - split; [done|]. intros key. rewrite lookup_empty. by intros [? ?].
Qed.

Lemma dict_get_None {V} (d : gmap string V) (key : string) :
  d !! key = None → dict_get d key = Raise (KeyError key).
Proof. intros Hv. unfold dict_get. by rewrite Hv. Qed.

Lemma fill_cell_missing_key
    (items : list (string * list Val)) (cell : nat) name d :
  name ∈ map fst items → d !! name = None →
  ∃ e,
    for_each (fun d '(feature_name, feature_value) =>
                column ← dict_get d feature_name;
                Ok (<[feature_name := <[cell := concat feature_value]> column]> d))
             items d = Raise e.
Proof.
  revert d. induction items as [|[key value] items IH]; intros d Hin Hnone;
    [by apply elem_of_nil in Hin|].
  cbn [for_each].
  destruct (d !! key) as [column|] eqn:Hkey;
    [|rewrite (dict_get_None _ _ Hkey); by eexists].
  rewrite (dict_get_Some _ _ _ Hkey), !bind_Ok. simpl in Hin.
  apply elem_of_cons in Hin as [->|Hin]; [congruence|].
  apply IH; [done|]. rewrite lookup_insert_ne; [done|]. congruence.
Qed.

(** X8.  [_get_cost_matrix] files the measurements of every cell under all
    four feature names, whichever features are enabled: when one of the four
    is not enabled and the frame shows at least one cell, it raises. *)
Theorem missing_feature_stops_cost_matrix self name (frame : nat)
    (y_frame : list Z) (M : Z) :
  name ∈ feature_names → name ∉ features self →
  y self !! frame = Some y_frame → amax y_frame = Ok M → 1 ≤ M →
  ∃ e, get_cost_matrix self frame = Raise e.
Proof.
  intros Hname Hmissing Hframe Hmax HM. unfold get_cost_matrix, get_frame.
  rewrite Hframe, bind_Ok, Hmax, bind_Ok.
  destruct (Z.ltb_spec M 0); [lia|].
  destruct (fetch_track_features self) as [tf|]; [|by eexists].
  rewrite bind_Ok.
  destruct (zero_frame_features self (Z.to_nat M)) as [zf|] eqn:Hzf;
    [|by eexists].
  rewrite bind_Ok.
  assert (zf !! name = None) as Hnone.
  { destruct (zf !! name) eqn:Hz; [|done]. exfalso. apply Hmissing.
    eapply zero_frame_features_keys; [exact Hzf|]. by eexists. }
  assert (∃ e, fill_frame_features self frame (Z.to_nat M) zf = Raise e)
    as [e ->]; [|by eexists].
  unfold fill_frame_features.
  destruct (Z.to_nat M) as [|n] eqn:Hn; [lia|].
  cbn [seq for_each].
  destruct (get_features (y self) frame (Some (Z.of_nat 0 + 1)))
    as [items|] eqn:Hitems; [|by eexists].
  rewrite bind_Ok.
  assert (map fst items = feature_names) as Hkeys.
  { unfold get_features, get_frame in Hitems.
    rewrite Hframe, bind_Ok in Hitems.
    destruct (bool_decide _); [|done].
    destruct (extract _ _ _) as [[[a c] g] p]. by injection Hitems as <-. }
  destruct (fill_cell_missing_key items 0 name zf) as [e ->];
    [by rewrite Hkeys|done|by eexists].
Qed.
End missing_feature.

Lemma missing_feature_stops_cost_matrix_witness :
  ∃ e, @get_cost_matrix sample_collaborators
         (sample_tracker [[0; 1]; [0; 1]] 1 ["appearance"]
            [sample_track [0%nat] [] false [[1%R]] [[0%R; 0%R]]]) 1
       = Raise e.
Proof.
  apply (@missing_feature_stops_cost_matrix sample_collaborators
           (sample_tracker [[0; 1]; [0; 1]] 1 ["appearance"]
              [sample_track [0%nat] [] false [[1%R]] [[0%R; 0%R]]])
           "distance" 1 [0; 1] 1).
  - right. by left.
  - intros Hin. apply list_elem_of_singleton in Hin. discriminate.
  - reflexivity.
  - reflexivity.
  - lia.
Defined.

(** ** The shape of the cost matrix *)

Section cost_matrix_shape.
Context `{Collaborators}.
Implicit Types (self : cell_tracker).

Lemma set_block_length (m block : matrix) (r0 r1 c0 c1 : nat) :
  length (set_block m r0 r1 c0 c1 block) = length m.
Proof. unfold set_block. by rewrite length_imap. Qed.

Lemma set_block_row_lengths (m block : matrix) (r0 r1 c0 c1 n : nat) :
  Forall (fun row => length row = n) m →
  Forall (fun row => length row = n) (set_block m r0 r1 c0 c1 block).
Proof.
  intros Hm. apply Forall_forall. intros row [i Hi]%list_elem_of_lookup_1.
  unfold set_block in Hi. rewrite list_lookup_imap in Hi.
  destruct (m !! i) as [r|] eqn:Hr; [|done]. simpl in Hi. injection Hi as <-.
  eapply Forall_lookup_1 in Hm; [|exact Hr].
  destruct (_ && _); [by rewrite length_imap|done].
Qed.

Lemma assemble_cost_matrix_shape self (N M : nat) predictions :
  length (assemble_cost_matrix self N M predictions) = (N + M)%nat ∧
  Forall (fun row => length row = (N + M)%nat)
         (assemble_cost_matrix self N M predictions).
Proof.
  rewrite assemble_cost_matrix_blocks. split.
  - rewrite !set_block_length. unfold np_zeros. by rewrite length_replicate.
  - do 4 apply set_block_row_lengths. unfold np_zeros.
    apply Forall_forall. intros row [-> _]%elem_of_replicate.
    by rewrite length_replicate.
Qed.

Lemma get_cost_matrix_inv self (frame : nat) (cost_matrix : matrix) :
  get_cost_matrix self frame = Ok cost_matrix →
  ∃ (y_frame : list Z) (M : nat) predictions,
    y self !! frame = Some y_frame ∧ amax y_frame = Ok (Z.of_nat M) ∧
    length predictions = length (tracks self) ∧
    Forall (fun row => length row = M) predictions ∧
    cost_matrix = assemble_cost_matrix self (length (tracks self)) M predictions.
Proof.
  unfold get_cost_matrix, get_frame. intros Hcm.
  destruct (y self !! frame) as [y_frame|] eqn:Hframe; [|done].
  rewrite bind_Ok in Hcm.
  destruct (amax y_frame) as [m|] eqn:Hmax; [|done]. rewrite bind_Ok in Hcm.
  destruct (Z.ltb_spec m 0); [done|].
  destruct (fetch_track_features self) as [tf|]; [|done].
  rewrite bind_Ok in Hcm.
  destruct (zero_frame_features self (Z.to_nat m)) as [zf|]; [|done].
  rewrite bind_Ok in Hcm.
  destruct (fill_frame_features self frame (Z.to_nat m) zf) as [ff|]; [|done].
  rewrite bind_Ok in Hcm.
  destruct (model_inputs self (length (tracks self)) (Z.to_nat m) tf ff)
    as [mi|]; [|done].
  rewrite bind_Ok in Hcm.
  destruct (reshape (length (tracks self)) (Z.to_nat m) (predict mi))
    as [predictions|] eqn:Hre; [|done].
  rewrite bind_Ok in Hcm. injection Hcm as <-.
  destruct (reshape_shape _ _ _ _ Hre) as [Hrows Hcols].
  exists y_frame, (Z.to_nat m), predictions.
  split_and!; [done| |done..]. rewrite Hmax. f_equal. lia.
Qed.

(** X9.  A cost matrix that [_get_cost_matrix] returns is square: its side is
    the number of tracks plus the number of cells, the largest label of the
    frame. *)
Theorem get_cost_matrix_square self (frame : nat) (cost_matrix : matrix) :
  get_cost_matrix self frame = Ok cost_matrix →
  ∃ (y_frame : list Z) (M : nat),
    y self !! frame = Some y_frame ∧ amax y_frame = Ok (Z.of_nat M) ∧
    length cost_matrix = (length (tracks self) + M)%nat ∧
    Forall (fun row => length row = (length (tracks self) + M)%nat) cost_matrix.
Proof.
  intros (y_frame & M & predictions & Hf & Hmax & _ & _ & ->)%get_cost_matrix_inv.
  exists y_frame, M. split_and!; [done..| |]; apply assemble_cost_matrix_shape.
Qed.

(** X10.  For a frame without any cell (largest label 0) the cost matrix has
    nothing but the death block: one row and one column per track, the death
    cost on the diagonal and 1 elsewhere. *)
Theorem get_cost_matrix_empty_frame self (frame : nat) (y_frame : list Z)
    (cost_matrix : matrix) :
  get_cost_matrix self frame = Ok cost_matrix →
  y self !! frame = Some y_frame → amax y_frame = Ok 0 →
  length cost_matrix = length (tracks self) ∧
  ∀ i j, (i < length (tracks self))%nat → (j < length (tracks self))%nat →
         ∃ v, entry cost_matrix i j = Some v ∧
              (v == if (i =? j)%nat then death self else 1)%Q.
Proof.
  intros (y_frame' & M & predictions & Hf & Hmax & HN & HM & ->)%get_cost_matrix_inv
         Hframe Hzero.
  assert (M = 0%nat) as -> by (rewrite Hf in Hframe; injection Hframe as ->;
                                rewrite Hmax in Hzero; injection Hzero; lia).
  split.
  - destruct (assemble_cost_matrix_shape self (length (tracks self)) 0
                                         predictions) as [-> _]. lia.
  - intros i j Hi Hj.
    destruct (entry_death_block (length (tracks self)) (death self) i j Hi Hj)
      as (v & Hv & Heq).
    exists v. split; [|done].
    rewrite assemble_cost_matrix_blocks, !entry_set_block.
    rewrite entry_np_zeros by lia. simpl. decide_bounds.
    rewrite !Nat.sub_0_r. by rewrite Hv.
Qed.
End cost_matrix_shape.

Lemma get_cost_matrix_square_witness :
  ∃ cost_matrix,
    @get_cost_matrix sample_collaborators resting_tracker 1 = Ok cost_matrix ∧
    length cost_matrix = 2%nat.
Proof.
  destruct (@get_cost_matrix sample_collaborators resting_tracker 1)
    as [cost_matrix|e] eqn:Hcm; [|vm_compute in Hcm; discriminate].
  exists cost_matrix. split; [reflexivity|].
  destruct (@get_cost_matrix_square sample_collaborators resting_tracker 1
              cost_matrix Hcm) as (y_frame & M & Hf & Hmax & Hlen & _).
  injection Hf as <-. rewrite Hlen. simpl in Hmax.
  injection Hmax as HM. simpl. lia.
Defined.

Lemma get_cost_matrix_empty_frame_witness :
  ∃ cost_matrix,
    @get_cost_matrix sample_collaborators resting_tracker 1 = Ok cost_matrix ∧
    length cost_matrix = 2%nat.
Proof.
  destruct (@get_cost_matrix sample_collaborators resting_tracker 1)
    as [cost_matrix|e] eqn:Hcm; [|vm_compute in Hcm; discriminate].
  exists cost_matrix. split; [reflexivity|].
  by destruct (@get_cost_matrix_empty_frame sample_collaborators
                 resting_tracker 1 [0; 0; 0; 0] cost_matrix Hcm eq_refl eq_refl)
    as [-> _].
Defined.

(** ** The displacements handed to the model *)

Section displacement_facts.
Open Scope R_scope.
Implicit Types (dist out : Val) (centroids : list Val).

Lemma np_diff_length centroids :
  length (np_diff centroids) = (length centroids - 1)%nat.
Proof.
  unfold np_diff. rewrite length_zip_with.
  destruct centroids as [|c cs]; [done|]. cbn [tail length].
  rewrite Nat.min_r by lia. lia.
Qed.

Lemma clamp_bounded max_distance dist out :
  0 <= max_distance → clamp max_distance dist = Ok out →
  norm out <= max_distance.
Proof.
  intros Hmax Hout.
  destruct (clamp_spec max_distance dist Hmax) as (out' & Hout' & Hgt & Hle).
  rewrite Hout in Hout'. injection Hout' as <-.
  destruct (Rle_or_lt (norm dist) max_distance) as [Hsmall|Hbig].
  - by rewrite (Hle Hsmall).
  - destruct (Hgt Hbig) as (_ & _ & _ & ->). lra.
Qed.

Lemma clamp_zero_pad max_distance :
  0 <= max_distance → clamp max_distance [0; 0] = Ok [0; 0].
Proof.
  intros Hmax.
  destruct (clamp_spec max_distance [0; 0] Hmax) as (out & -> & _ & Hle).
  f_equal. apply Hle. by rewrite norm_zero_vector.
Qed.

(** X11.  With a maximum that is not negative, the distance preprocessing of
    [_compute_feature] hands back as many track-side displacements as the
    window has centroids, the first of them the zero pad, plus one cell-side
    displacement, and none of them is longer than the maximum. *)
Theorem compute_feature_distance_shape (max_distance : R)
    (track_feature : list Val) (frame_feature : Val) :
  0 <= max_distance →
  ∃ track_distances frame_distance,
    compute_feature max_distance "distance" track_feature frame_feature
    = Ok (track_distances, frame_distance) ∧
    length track_distances = length track_feature ∧
    (track_feature ≠ [] → track_distances !! 0%nat = Some [0; 0]) ∧
    Forall (fun d => norm d <= max_distance)
           (track_distances ++ [frame_distance]).
Proof.
  intros Hmax.
  set (ds := [0; 0] :: np_diff (track_feature ++ [frame_feature])).
  destruct (traverse_clamp max_distance ds Hmax) as (outs & Houts & Hall).
  assert (length outs = S (length track_feature)) as Hlen.
  { apply Forall2_length in Hall. rewrite <- Hall. subst ds. simpl.
    rewrite np_diff_length, length_app. simpl. lia. }
  assert (∃ init last, outs = init ++ [last]) as (init & last & ->).
  { destruct (decide (outs = [])) as [->|Hne]; [done|].
    destruct (exists_last Hne) as (init & last & ->). by exists init, last. }
  exists init, last. split_and!.
  - rewrite compute_feature_distance. fold ds.
    by rewrite Houts, bind_Ok, py_index_last, bind_Ok, drop_last_snoc.
  - rewrite length_app in Hlen. simpl in Hlen. lia.
  - intros Hne. subst ds.
    apply Forall2_cons_inv_l in Hall as (out0 & outs' & Hout0 & _ & Heq).
    rewrite (clamp_zero_pad _ Hmax) in Hout0. injection Hout0 as <-.
    destruct init as [|i0 init'].
    + rewrite length_app in Hlen. simpl in Hlen.
      destruct track_feature; [done|]. simpl in Hlen. lia.
    + simpl in Heq. by injection Heq as -> _.
  - apply Forall_forall. intros d [i Hi]%list_elem_of_lookup_1.
    destruct (Forall2_lookup_r _ _ _ _ _ Hall Hi) as (dist & _ & Hd).
    by eapply clamp_bounded.
Qed.

Lemma compute_feature_distance_shape_witness :
  ∃ track_distances frame_distance,
    compute_feature 5 "distance" [[0; 0]; [30; 40]] [31; 40]
    = Ok (track_distances, frame_distance) ∧
    length track_distances = 2%nat.
Proof.
  destruct (compute_feature_distance_shape 5 [[0; 0]; [30; 40]] [31; 40])
    as (td & fd & Heq & Hlen & _); [lra|].
  by exists td, fd.
Defined.
End displacement_facts.

Section parent_displacements.
Context `{Collaborators}.
Open Scope R_scope.
Implicit Types (self : cell_tracker) (dist : list Val).

Lemma concat_map_map (f : R → R) dist :
  concat (map (map f) dist) = map f (concat dist).
Proof.
  induction dist as [|row dist IH]; simpl; [done|]. by rewrite IH, map_app.
Qed.

Lemma clamp_cell_distance (max_distance : R) dist :
  0 <= max_distance →
  ∃ out,
    (if Rgt_dec (norm (concat dist)) max_distance then
       if Req_dec_T (norm (concat dist)) 0 then Raise FloatingPointError
       else Ok (map (map (fun x => x / norm (concat dist) * max_distance)) dist)
     else Ok dist) = Ok out ∧
    norm (concat out) <= max_distance.
Proof.
  intros Hmax.
  pose proof (clamp_bounded max_distance (concat dist)) as Hbound.
  unfold clamp in Hbound.
  destruct (Rgt_dec (norm (concat dist)) max_distance) as [Hgt|Hle].
  - destruct (Req_dec_T (norm (concat dist)) 0) as [Hz|Hnz]; [lra|].
    eexists. split; [done|]. rewrite concat_map_map. by apply Hbound.
  - eexists. split; [done|]. by apply Hbound.
Qed.

(** X12.  The copy of the distance preprocessing inside [_get_parent], with a
    maximum that is not negative: it answers for every track; the track-side
    displacements are the plain consecutive differences behind the zero pad,
    never rescaled; only the cell-side displacement of each track is brought
    down to the maximum. *)
Theorem get_parent_clamps_cell_side_only self
    (track_feature frame_feature : list (list Val)) :
  0 <= max_distance self →
  ∃ track_distances cell_distances,
    get_track_and_frame_feature self "distance" track_feature frame_feature
    = Ok (track_distances, cell_distances) ∧
    track_distances
    = map (fun centroids => drop_last ([0; 0] :: np_diff centroids))
          (zip_with app track_feature frame_feature) ∧
    length cell_distances = length (zip_with app track_feature frame_feature) ∧
    Forall (fun cell => norm (concat cell) <= max_distance self) cell_distances.
Proof.
  intros Hmax. unfold get_track_and_frame_feature. simpl.
  set (rows := map (fun d => [0; 0] :: d)
                   (map np_diff (zip_with app track_feature frame_feature))).
  destruct (traverse_total last_row (fun _ _ => True) rows)
    as (cells & Hcells & HF1).
  { intros row [d [-> _]]%list_elem_of_fmap.
    destruct (exists_last (l := [0; 0] :: d)) as (init & last & ->); [done|].
    rewrite last_row_snoc. by eexists. }
  rewrite Hcells, bind_Ok.
  destruct (traverse_total
              (fun dist =>
                 if Rgt_dec (norm (concat dist)) (max_distance self) then
                   if Req_dec_T (norm (concat dist)) 0 then
                     Raise FloatingPointError
                   else Ok (map (map (fun x => x / norm (concat dist)
                                               * max_distance self)) dist)
                 else Ok dist)
              (fun _ out => norm (concat out) <= max_distance self) cells)
    as (outs & Houts & HF2).
  { intros dist _. by apply clamp_cell_distance. }
  rewrite Houts, bind_Ok. eexists _, _. split; [done|]. split_and!.
  - subst rows. by rewrite !map_map.
  - apply Forall2_length in HF1, HF2. rewrite <- HF2, <- HF1. subst rows.
    by rewrite !length_map.
  - apply Forall_forall. intros out [i Hi]%list_elem_of_lookup_1.
    by destruct (Forall2_lookup_r _ _ _ _ _ HF2 Hi) as (dist & _ & Hd).
Qed.
End parent_displacements.

Lemma get_parent_clamps_cell_side_only_witness :
  ∃ track_distances cell_distances,
    @get_track_and_frame_feature sample_collaborators two_frame_tracker
      "distance" [[[0%R; 0%R]; [300%R; 400%R]]] [[[301%R; 400%R]]]
    = Ok (track_distances, cell_distances) ∧
    length cell_distances = 1%nat.
Proof.
  destruct (@get_parent_clamps_cell_side_only sample_collaborators
              two_frame_tracker [[[0%R; 0%R]; [300%R; 400%R]]]
              [[[301%R; 400%R]]])
    as (td & cd & Heq & _ & Hlen & _); [simpl; lra|].
  by exists td, cd.
Defined.

(** ** What a frame update keeps of the tracks *)

Lemma for_each_preorder {S A} (body : S → A → result S) (R : S → S → Prop) :
  (∀ s, R s s) → (∀ s1 s2 s3, R s1 s2 → R s2 s3 → R s1 s3) →
  (∀ s x s', body s x = Ok s' → R s s') →
  ∀ xs s s', for_each body xs s = Ok s' → R s s'.
Proof.
  intros Hrefl Htrans Hstep xs.
  induction xs as [|x xs IH]; intros s s' Hrun.
  - simpl in Hrun. injection Hrun as <-. apply Hrefl.
  - cbn [for_each] in Hrun. destruct (body s x) as [s1|] eqn:Hbody; [|done].
    rewrite bind_Ok in Hrun. eapply Htrans; [by eapply Hstep|by apply IH].
Qed.

Lemma filter_list_remove (frame : nat) (l : list nat) :
  filter (fun f => f ≠ frame) (list_remove frame l)
  = filter (fun f => f ≠ frame) l.
Proof.
  induction l as [|f l IH]; [done|]. simpl.
  destruct (Nat.eqb_spec f frame) as [->|Hne].
  - by rewrite filter_cons_False by (intros Hc; by apply Hc).
  - by rewrite !filter_cons_True, IH by done.
Qed.

Section lineage_facts.
Context `{Collaborators}.
Implicit Types (self : cell_tracker) (st : frame_state) (t : track).
Implicit Types (ts : list track).

Lemma keeps_lineage_refl frame t : keeps_lineage frame t t.
Proof. by split_and!. Qed.

Lemma keeps_lineage_trans frame t1 t2 t3 :
  keeps_lineage frame t1 t2 → keeps_lineage frame t2 t3 →
  keeps_lineage frame t1 t3.
Proof.
  intros (Hl1 & Hp1 & Hd1 & Hc1 & Hf1) (Hl2 & Hp2 & Hd2 & Hc2 & Hf2).
  split_and!; [congruence|congruence|by etrans|auto|congruence].
Qed.

Lemma extends_tracks_refl frame ts : extends_tracks frame ts ts.
Proof. intros i t Hi. exists t. split; [done|apply keeps_lineage_refl]. Qed.

Lemma extends_tracks_trans frame ts1 ts2 ts3 :
  extends_tracks frame ts1 ts2 → extends_tracks frame ts2 ts3 →
  extends_tracks frame ts1 ts3.
Proof.
  intros H12 H23 i t1 Hi. destruct (H12 _ _ Hi) as (t2 & Hi2 & Hk12).
  destruct (H23 _ _ Hi2) as (t3 & Hi3 & Hk23).
  exists t3. split; [done|by eapply keeps_lineage_trans].
Qed.

Lemma extends_tracks_insert frame ts k t t1 :
  ts !! k = Some t → keeps_lineage frame t t1 →
  extends_tracks frame ts (<[k := t1]> ts).
Proof.
  intros Hk Hl i t0 Hi. destruct (decide (i = k)) as [->|Hne].
  - exists t1. split; [apply list_lookup_insert_eq; by eapply lookup_lt_Some|].
    congruence.
  - exists t0. rewrite list_lookup_insert_ne by done.
    split; [done|apply keeps_lineage_refl].
Qed.

Lemma extends_tracks_length frame ts ts' :
  extends_tracks frame ts ts' → (length ts ≤ length ts')%nat.
Proof.
  intros Hext. destruct (decide (length ts ≤ length ts')%nat); [done|].
  destruct (lookup_lt_is_Some_2 ts (length ts')) as [t Ht]; [lia|].
  destruct (Hext _ _ Ht) as (t' & Ht' & _). apply lookup_lt_Some in Ht'. lia.
Qed.

Lemma link_parent_extends frame ts ts' new_id r :
  link_parent ts new_id r = Ok ts' →
  ∀ i t, i ≠ new_id → ts !! i = Some t →
         ∃ t', ts' !! i = Some t' ∧ keeps_lineage frame t t'.
Proof.
  unfold link_parent, index. intros Hlink i t Hne Hi.
  destruct (ts !! new_id) as [new_t|] eqn:Hnew; [|done].
  rewrite bind_Ok in Hlink. destruct r as [p|].
  - set (ts1 := <[new_id := _]> ts) in Hlink.
    destruct (ts1 !! p) as [parent_t|] eqn:Hp; [|done].
    rewrite bind_Ok in Hlink. injection Hlink as <-.
    assert (ts1 !! i = Some t) as Hi1.
    { subst ts1. by rewrite list_lookup_insert_ne. }
    destruct (decide (i = p)) as [->|Hnp].
    + rewrite Hp in Hi1. injection Hi1 as ->. eexists.
      split; [apply list_lookup_insert_eq; by eapply lookup_lt_Some|].
      split_and!; simpl; [done|done|by apply prefix_app_r|done|done].
    + exists t. rewrite list_lookup_insert_ne by done.
      split; [done|apply keeps_lineage_refl].
  - injection Hlink as <-. exists t. rewrite list_lookup_insert_ne by done.
    split; [done|apply keeps_lineage_refl].
Qed.

Lemma assignment_step_inv self frame y_frame N M st a st' :
  assignment_step self frame y_frame N M st a = Ok st' →
  (is_continuation N M a = true ∧ is_birth N M a = false ∧
   continue_track self frame y_frame a.1 (Z.of_nat a.2 + 1) st = Ok st') ∨
  (is_continuation N M a = false ∧ is_birth N M a = true ∧
   birth_track self frame y_frame a.2 st = Ok st') ∨
  (is_continuation N M a = false ∧ is_birth N M a = false ∧ st' = st).
Proof.
  destruct a as [track cell]. unfold assignment_step. intros Hstep.
  destruct (is_continuation N M (track, cell)) eqn:Hcont.
  - assert (is_birth N M (track, cell) = false) as Hbirth.
    { unfold is_continuation, is_birth in *. simpl in *.
      destruct (Z.ltb_spec (Z.of_nat track) N); [|done].
      destruct (Z.gtb_spec (Z.of_nat track) (N - 1)); [lia|done]. }
    rewrite Hbirth in Hstep.
    destruct (continue_track self frame y_frame track (Z.of_nat cell + 1) st)
      as [st1|] eqn:Hc; [|done].
    rewrite !bind_Ok in Hstep.
    assert (st' = st1) as -> by (destruct (is_death _ _ _); congruence).
    by left.
  - rewrite bind_Ok in Hstep. right.
    destruct (is_birth N M (track, cell)) eqn:Hbirth.
    + destruct (birth_track self frame y_frame cell st) as [st2|] eqn:Hb;
        [|done].
      rewrite bind_Ok in Hstep.
      assert (st' = st2) as -> by (destruct (is_death _ _ _); congruence).
      by left.
    + rewrite bind_Ok in Hstep.
      assert (st' = st) as -> by (destruct (is_death _ _ _); congruence).
      by right.
Qed.

Lemma continue_track_extends self frame y_frame track cell_id st st' :
  continue_track self frame y_frame track cell_id st = Ok st' →
  extends_tracks frame (st_tracks st) (st_tracks st').
Proof.
  intros (t & fs & Ht & -> & _)%continue_track_inv.
  eapply extends_tracks_insert; [done|].
  split_and!; simpl; [done|done|done|done|].
  rewrite filter_app, filter_cons_False by (intros Hc; by apply Hc).
  by rewrite filter_nil, app_nil_r.
Qed.

Lemma birth_track_extends self frame y_frame cell st st' :
  birth_track self frame y_frame cell st = Ok st' →
  extends_tracks frame (st_tracks st) (st_tracks st').
Proof.
  intros (new_t & r & Hl & _)%birth_track_inv. intros i t Hi.
  apply lookup_lt_Some in Hi as Hlt.
  eapply link_parent_extends; [exact Hl|lia|by apply lookup_app_l_Some].
Qed.

Lemma assignment_step_extends self frame y_frame N M st a st' :
  assignment_step self frame y_frame N M st a = Ok st' →
  extends_tracks frame (st_tracks st) (st_tracks st').
Proof.
  intros [(_ & _ & Hc)|[(_ & _ & Hb)|(_ & _ & ->)]]%assignment_step_inv.
  - by eapply continue_track_extends.
  - by eapply birth_track_extends.
  - apply extends_tracks_refl.
Qed.

Lemma cap_tracks_extends frame ts : extends_tracks frame ts (cap_tracks ts).
Proof.
  intros i t Hi. rewrite cap_tracks_map, list_lookup_fmap, Hi. simpl.
  eexists. split; [done|].
  destruct (0 <? length (daughters t))%nat; [|apply keeps_lineage_refl].
  by split_and!.
Qed.

Lemma repair_step_extends self frame st track st' :
  repair_step self frame st track = Ok st' →
  extends_tracks frame (st_tracks st) (st_tracks st').
Proof.
  intros (t & Ht & [[-> _]|(_ & _ & fs0 & fs_new & fs_old & ->)])%repair_step_inv.
  { apply extends_tracks_refl. }
  intros i t0 Hi. apply lookup_lt_Some in Hi as Hlt.
  destruct (decide (i = track)) as [->|Hne].
  - rewrite Ht in Hi. injection Hi as <-. eexists. split.
    + apply list_lookup_insert_eq.
      rewrite length_insert, length_app. simpl. lia.
    + split_and!; simpl; [done|done|by apply prefix_app_r|done|].
      apply filter_list_remove.
  - exists t0. rewrite !list_lookup_insert_ne by lia.
    split; [by apply lookup_app_l_Some|apply keeps_lineage_refl].
Qed.

(** X13.  A call of [_update_tracks] that returns never drops a track and
    never moves one to another key; of a track that existed before the call
    it keeps the label, the parent and the frames other than the processed
    one, keeps the daughters as the first daughters, and leaves it capped if
    it was. *)
Theorem update_tracks_keeps_lineage self assignments frame self' :
  update_tracks self assignments frame = Ok self' →
  (length (tracks self) ≤ length (tracks self'))%nat ∧
  ∀ i t, tracks self !! i = Some t →
    ∃ t', tracks self' !! i = Some t' ∧
      label t' = label t ∧ parent t' = parent t ∧
      daughters t `prefix_of` daughters t' ∧
      (capped t = true → capped t' = true) ∧
      filter (fun f => f ≠ frame) (frames t')
      = filter (fun f => f ≠ frame) (frames t).
Proof.
  unfold update_tracks. intros Hrun.
  destruct (get_frame (y self) frame) as [y_frame|]; [|done].
  rewrite bind_Ok in Hrun.
  destruct (amax y_frame) as [M|]; [|done]. rewrite bind_Ok in Hrun.
  destruct (for_each (assignment_step self frame y_frame _ M) assignments _)
    as [st1|] eqn:Hloop; [|done].
  rewrite bind_Ok in Hrun.
  destruct (for_each (repair_step self frame) _ _) as [st2|] eqn:Hrepair;
    [|done].
  rewrite bind_Ok in Hrun. injection Hrun as <-.
  cbn [tracks set_y_tracked set_tracks].
  apply (for_each_preorder _
           (fun s s' => extends_tracks frame (st_tracks s) (st_tracks s')))
    in Hloop.
  2:{ intros s. apply extends_tracks_refl. }
  2:{ intros s1 s2 s3. apply extends_tracks_trans. }
  2:{ intros s x s'. apply assignment_step_extends. }
  apply (for_each_preorder _
           (fun s s' => extends_tracks frame (st_tracks s) (st_tracks s')))
    in Hrepair.
  2:{ intros s. apply extends_tracks_refl. }
  2:{ intros s1 s2 s3. apply extends_tracks_trans. }
  2:{ intros s x s'. apply repair_step_extends. }
  cbn [st_tracks] in Hloop, Hrepair.
  assert (extends_tracks frame (tracks self) (st_tracks st2)) as Hext.
  { eapply extends_tracks_trans; [exact Hloop|].
    eapply extends_tracks_trans; [apply cap_tracks_extends|exact Hrepair]. }
  split; [by eapply extends_tracks_length|]. exact Hext.
Qed.
End lineage_facts.

Lemma update_tracks_keeps_lineage_witness :
  ∃ self',
    @update_tracks dividing_collaborators dividing_tracker
      [(0, 0); (1, 1); (2, 2)]%nat 1 = Ok self' ∧
    (length (tracks dividing_tracker) ≤ length (tracks self'))%nat.
Proof.
  destruct (@update_tracks dividing_collaborators dividing_tracker
              [(0, 0); (1, 1); (2, 2)]%nat 1) as [self'|e] eqn:Hrun;
    [|vm_compute in Hrun; discriminate].
  exists self'. split; [done|].
  by destruct (@update_tracks_keeps_lineage dividing_collaborators _ _ _ _ Hrun)
    as [Hlen _].
Defined.

(** ** What a frame update writes into the tracked plane *)

Section plane_facts.
Context `{Collaborators}.
Implicit Types (self : cell_tracker) (st : frame_state) (t : track).
Implicit Types (ts : list track) (plane : list Z).

Lemma mask_assign_lookup (y_frame : list Z) (old new : Z) plane k (v w : Z) :
  y_frame !! k = Some v → plane !! k = Some w →
  mask_assign y_frame old new plane !! k
  = Some (if v =? old then new else w).
Proof.
  intros Hv Hw. unfold mask_assign. by rewrite lookup_zip_with, Hv, Hw.
Qed.

Lemma continue_track_plane self frame (y_frame : list Z) track cell_id st st' :
  continue_track self frame y_frame track cell_id st = Ok st' →
  y_tracked_update st'
  = mask_assign y_frame cell_id (Z.of_nat track + 1) (y_tracked_update st).
Proof.
  unfold continue_track, index. intros Hc.
  destruct (st_tracks st !! track) as [t|]; [|done]. rewrite bind_Ok in Hc.
  destruct (get_features (y self) frame (Some cell_id)) as [cf|]; [|done].
  rewrite bind_Ok in Hc.
  destruct (for_each _ cf (feats t)) as [fs|]; [|done].
  rewrite bind_Ok in Hc. by injection Hc as <-.
Qed.

Lemma birth_track_plane self frame (y_frame : list Z) cell st st' :
  birth_track self frame y_frame cell st = Ok st' →
  y_tracked_update st'
  = mask_assign y_frame (Z.of_nat cell + 1)
                (Z.of_nat (length (st_tracks st)) + 1) (y_tracked_update st).
Proof.
  unfold birth_track, create_new_track. intros Hb.
  destruct (get_features (y self) frame (Some (Z.of_nat cell + 1)))
    as [fs|]; [|done].
  rewrite !bind_Ok in Hb.
  destruct (get_parent _ frame (Z.of_nat cell + 1)) as [r|]; [|done].
  rewrite bind_Ok in Hb.
  rewrite length_app in Hb. cbn [length] in Hb.
  replace (length (st_tracks st) + 1 - 1)%nat with (length (st_tracks st))
    in Hb by lia.
  destruct (link_parent _ (length (st_tracks st)) r) as [tracks'|]; [|done].
  rewrite bind_Ok in Hb. by injection Hb as <-.
Qed.

Lemma link_parent_frames ts ts' new_id r :
  link_parent ts new_id r = Ok ts' →
  ∀ i t, ts !! i = Some t → ∃ t', ts' !! i = Some t' ∧ frames t' = frames t.
Proof.
  intros [Hlen Hshape]%link_parent_inv i t Hi.
  destruct (lookup_lt_is_Some_2 ts' i) as [t' Ht'].
  { rewrite Hlen. by eapply lookup_lt_Some. }
  destruct (Hshape _ _ Ht') as (t0 & Ht0 & Hf & _).
  exists t'. split; [done|]. congruence.
Qed.

Lemma tracked_pixel_mono frame ts ts' (w : Z) :
  (∀ i t, ts !! i = Some t →
          ∃ t', ts' !! i = Some t' ∧ (frame ∈ frames t → frame ∈ frames t')) →
  tracked_pixel frame ts w → tracked_pixel frame ts' w.
Proof.
  intros Hmono [->|(Hpos & t & Ht & Hin)]; [by left|]. right.
  split; [done|]. destruct (Hmono _ _ Ht) as (t' & Ht' & Hin').
  exists t'. auto.
Qed.

(** The repair of one track, tracks and plane. *)
Lemma repair_step_inv_plane self frame st track st' :
  repair_step self frame st track = Ok st' →
  st' = st ∨
  ∃ t fs0 fs_new fs_old,
    st_tracks st !! track = Some t ∧
    st_tracks st'
    = <[track := Track (label t) (list_remove frame (frames t))
                       (daughters t ++ [length (st_tracks st)])
                       (capped t) (parent t) fs_old]>
        (<[length (st_tracks st) :=
             Track (label t) [frame] [] false (Some track) fs_new]>
           (st_tracks st ++ [Track (label t) [frame] [] false None fs0])) ∧
    y_tracked_update st'
    = map (fun v => if v =? Z.of_nat track + 1
                    then Z.of_nat (length (st_tracks st)) + 1 else v)
          (y_tracked_update st).
Proof.
  unfold repair_step, index. intros Hr.
  destruct (st_tracks st !! track) as [t|] eqn:Ht; [|done].
  rewrite bind_Ok in Hr.
  destruct (daughters t) as [|d ds] eqn:Hd.
  { left. by injection Hr as <-. }
  cbn [length Nat.ltb Nat.leb] in Hr.
  destruct (decide (frame ∈ frames t)) as [Hin|Hnot].
  - rewrite bool_decide_eq_true_2 in Hr by done.
    destruct (new_track_id st) as [id|]; [|done]. rewrite bind_Ok in Hr.
    unfold create_new_track in Hr.
    destruct (get_features (y self) frame (Some (label t))) as [fs|]; [|done].
    rewrite !bind_Ok in Hr. rewrite length_app in Hr. cbn [length] in Hr.
    replace (length (st_tracks st) + 1 - 1)%nat with (length (st_tracks st))
      in Hr by lia.
    rewrite lookup_app_r, Nat.sub_diag in Hr by lia.
    cbn [lookup list_lookup] in Hr. rewrite bind_Ok in Hr. cbn [feats] in Hr.
    destruct (for_each _ (features self) (dict_update ∅ fs)) as [fs_new|];
      [|done].
    rewrite bind_Ok in Hr.
    destruct (for_each _ (features self) (feats t)) as [fs_old|]; [|done].
    rewrite bind_Ok in Hr. injection Hr as <-. right.
    exists t. eexists _, _, _. rewrite Hd. by split_and!.
  - rewrite bool_decide_eq_false_2 in Hr by done. left. by injection Hr as <-.
Qed.

(** The plane between two steps of either loop of [_update_tracks]. *)
Lemma plane_step_assign frame (y_frame : list Z) ts ts' plane (cell_id new : Z)
    (key : nat) t' :
  1 ≤ cell_id → new = Z.of_nat key + 1 →
  ts' !! key = Some t' → frame ∈ frames t' →
  (∀ i t, ts !! i = Some t →
          ∃ t0, ts' !! i = Some t0 ∧ (frame ∈ frames t → frame ∈ frames t0)) →
  length plane = length y_frame →
  (∀ k v w, y_frame !! k = Some v → plane !! k = Some w →
            tracked_pixel frame ts w ∧ (v ≤ 0 → w = 0)) →
  ∀ k v w', y_frame !! k = Some v →
    mask_assign y_frame cell_id new plane !! k = Some w' →
    tracked_pixel frame ts' w' ∧ (v ≤ 0 → w' = 0) ∧
    ∃ w, plane !! k = Some w ∧ w' = (if v =? cell_id then new else w).
Proof.
  intros Hcell -> Hkey Hin Hmono Hlen Hinv k v w' Hv Hw'.
  destruct (lookup_lt_is_Some_2 plane k) as [w Hw].
  { rewrite Hlen. by eapply lookup_lt_Some. }
  rewrite (mask_assign_lookup _ _ _ _ _ _ _ Hv Hw) in Hw'.
  injection Hw' as <-. destruct (Hinv _ _ _ Hv Hw) as [Hpix Hzero].
  split_and!.
  - destruct (Z.eqb_spec v cell_id) as [->|Hne].
    + right. split; [lia|]. exists t'.
      replace (Z.to_nat (Z.of_nat key + 1 - 1)) with key by lia. done.
    + by eapply tracked_pixel_mono.
  - intros Hv0. destruct (Z.eqb_spec v cell_id); [lia|auto].
  - by exists w.
Qed.
End plane_facts.

Section plane_loops.
Context `{Collaborators}.
Implicit Types (self : cell_tracker) (st : frame_state) (t : track).
Implicit Types (ts : list track) (plane : list Z).

Lemma tracked_pixel_repair (frame : nat) ts (key : nat) t
    (repaired fresh filed : track) (w : Z) :
  ts !! key = Some t → frame ∈ frames fresh →
  tracked_pixel frame ts w →
  tracked_pixel frame
    (<[key := repaired]> (<[length ts := fresh]> (ts ++ [filed])))
    (if w =? Z.of_nat key + 1 then Z.of_nat (length ts) + 1 else w).
Proof.
  intros Ht Hfresh Hpix. apply lookup_lt_Some in Ht as Hlt.
  destruct (Z.eqb_spec w (Z.of_nat key + 1)) as [->|Hne].
  - right. split; [lia|]. exists fresh.
    replace (Z.to_nat (Z.of_nat (length ts) + 1 - 1)) with (length ts) by lia.
    split; [|done]. rewrite list_lookup_insert_ne by lia.
    apply list_lookup_insert_eq. rewrite length_app. simpl. lia.
  - destruct Hpix as [->|(Hpos & t0 & Ht0 & Hin)]; [by left|]. right.
    split; [done|]. exists t0. split; [|done].
    apply lookup_lt_Some in Ht0 as Hlt0.
    rewrite !list_lookup_insert_ne by lia. by apply lookup_app_l_Some.
Qed.

(** The loop over assignments, seen from the plane: [rest] holds the
    assignments still to come. *)
Lemma assignment_step_plane self frame (y_frame : list Z) (N M : Z)
    (covered : Z → Prop) a rest st st' :
  (∀ v, v ∈ y_frame → v ≤ M) →
  assignment_step self frame y_frame N M st a = Ok st' →
  (length (y_tracked_update st) = length y_frame ∧
   ∀ k v w, y_frame !! k = Some v → y_tracked_update st !! k = Some w →
     tracked_pixel frame (st_tracks st) w ∧ (v ≤ 0 → w = 0) ∧
     (0 < v → covered v →
      0 < w ∨ ∃ track, (track, Z.to_nat (v - 1)) ∈ a :: rest)) →
  length (y_tracked_update st') = length y_frame ∧
  ∀ k v w, y_frame !! k = Some v → y_tracked_update st' !! k = Some w →
    tracked_pixel frame (st_tracks st') w ∧ (v ≤ 0 → w = 0) ∧
    (0 < v → covered v →
     0 < w ∨ ∃ track, (track, Z.to_nat (v - 1)) ∈ rest).
Proof.
  intros Hmax Hstep [Hlen Hinv].
  assert (∀ k v w, y_frame !! k = Some v → y_tracked_update st !! k = Some w →
            tracked_pixel frame (st_tracks st) w ∧ (v ≤ 0 → w = 0)) as Hinv2.
  { intros k v w Hv Hw. destruct (Hinv _ _ _ Hv Hw) as (? & ? & _). done. }
  assert (∀ k v w (new : Z), y_frame !! k = Some v →
            y_tracked_update st !! k = Some w → 0 < new → 0 < v →
            covered v →
            0 < (if v =? Z.of_nat a.2 + 1 then new else w) ∨
            ∃ track, (track, Z.to_nat (v - 1)) ∈ rest) as Hcover.
  { intros k v w new Hv Hw Hnew Hpos Hc.
    destruct (Z.eqb_spec v (Z.of_nat a.2 + 1)) as [->|Hne]; [by left|].
    destruct (Hinv _ _ _ Hv Hw) as (_ & _ & [Hw0|[track Hin]]);
      [done|done|by left|].
    apply elem_of_cons in Hin as [Heq|Hin]; [|right; by exists track].
    subst a. simpl in Hne. lia. }
  apply assignment_step_inv in Hstep
    as [(_ & _ & Hc)|[(_ & _ & Hb)|(Hcont & Hbirth & ->)]].
  - pose proof (continue_track_plane _ _ _ _ _ _ _ Hc) as Hplane.
    apply continue_track_inv in Hc as (t & fs & Ht & Htracks & _).
    rewrite Hplane, Htracks. split; [by apply mask_assign_length|].
    intros k v w' Hv Hw'.
    destruct (plane_step_assign frame y_frame (st_tracks st)
                (<[a.1 := Track (label t) (frames t ++ [frame]) (daughters t)
                                (capped t) (parent t) fs]> (st_tracks st))
                (y_tracked_update st) (Z.of_nat a.2 + 1) (Z.of_nat a.1 + 1)
                a.1 (Track (label t) (frames t ++ [frame]) (daughters t)
                           (capped t) (parent t) fs))
      with (k := k) (v := v) (w' := w') as (Hpix & Hzero & w & Hw & ->);
      [lia|done| | | |done|done|done|done|].
    + apply list_lookup_insert_eq. by eapply lookup_lt_Some.
    + simpl. apply elem_of_app. right. by left.
    + intros i t0 Hi. destruct (decide (i = a.1)) as [->|Hne].
      * eexists. split; [apply list_lookup_insert_eq; by eapply lookup_lt_Some|].
        simpl. intros _. apply elem_of_app. right. by left.
      * exists t0. by rewrite list_lookup_insert_ne.
    + split_and!; [done|done|]. intros Hpos Hc.
      eapply Hcover; [done|done|lia|done|done].
  - pose proof (birth_track_plane _ _ _ _ _ _ Hb) as Hplane.
    apply birth_track_inv in Hb as (new_t & r & Hl & Hf & _).
    pose proof (link_parent_frames _ _ _ _ Hl) as Hframes.
    destruct (Hframes (length (st_tracks st)) new_t) as (t' & Ht' & Hft').
    { by rewrite lookup_app_r, Nat.sub_diag by lia. }
    rewrite Hplane. split; [by apply mask_assign_length|].
    intros k v w' Hv Hw'.
    destruct (plane_step_assign frame y_frame (st_tracks st) (st_tracks st')
                (y_tracked_update st) (Z.of_nat a.2 + 1)
                (Z.of_nat (length (st_tracks st)) + 1)
                (length (st_tracks st)) t')
      with (k := k) (v := v) (w' := w') as (Hpix & Hzero & w & Hw & ->);
      [lia|done|done| | |done|done|done|done|].
    + rewrite Hft', Hf. by left.
    + intros i t0 Hi.
      destruct (Hframes i t0) as (t1 & Ht1 & Hf1); [by apply lookup_app_l_Some|].
      exists t1. split; [done|]. by rewrite Hf1.
    + split_and!; [done|done|]. intros Hpos Hc.
      eapply Hcover; [done|done|lia|done|done].
  - split; [done|]. intros k v w Hv Hw.
    destruct (Hinv _ _ _ Hv Hw) as (Hpix & Hzero & Hcov).
    split_and!; [done|done|]. intros Hpos Hc.
    destruct (Hcov Hpos Hc) as [Hw0|[track Hin]]; [by left|].
    apply elem_of_cons in Hin as [Heq|Hin]; [|right; by exists track].
    exfalso. subst a. unfold is_continuation, is_birth in Hcont, Hbirth.
    simpl in Hcont, Hbirth.
    assert (v ≤ M) as HvM.
    { apply Hmax. by eapply list_elem_of_lookup_2. }
    destruct (Z.ltb_spec (Z.of_nat (Z.to_nat (v - 1))) M); [|lia].
    destruct (Z.ltb_spec (Z.of_nat track) N); [done|].
    destruct (Z.gtb_spec (Z.of_nat track) (N - 1)); [done|lia].
Qed.

(** The repair loop, seen from the plane. *)
Lemma repair_step_plane self frame (y_frame : list Z) track st st'
    (covered : Z → Prop) :
  repair_step self frame st track = Ok st' →
  (length (y_tracked_update st) = length y_frame ∧
   ∀ k v w, y_frame !! k = Some v → y_tracked_update st !! k = Some w →
     tracked_pixel frame (st_tracks st) w ∧ (v ≤ 0 → w = 0) ∧
     (0 < v → covered v → 0 < w)) →
  length (y_tracked_update st') = length y_frame ∧
  ∀ k v w, y_frame !! k = Some v → y_tracked_update st' !! k = Some w →
    tracked_pixel frame (st_tracks st') w ∧ (v ≤ 0 → w = 0) ∧
    (0 < v → covered v → 0 < w).
Proof.
  intros [->|(t & fs0 & fs_new & fs_old & Ht & Htracks & Hplane)]%repair_step_inv_plane
    [Hlen Hinv]; [done|].
  rewrite Hplane, Htracks. split; [by rewrite length_map|].
  intros k v w' Hv Hw'. rewrite list_lookup_fmap in Hw'.
  destruct (y_tracked_update st !! k) as [w|] eqn:Hw; [|done].
  injection Hw' as <-. destruct (Hinv _ _ _ Hv Hw) as (Hpix & Hzero & Hcov).
  split_and!.
  - eapply tracked_pixel_repair; [done|by left|done].
  - intros Hv0. rewrite (Hzero Hv0).
    destruct (Z.eqb_spec 0 (Z.of_nat track + 1)); [lia|done].
  - intros Hpos Hc. specialize (Hcov Hpos Hc).
    destruct (Z.eqb_spec w (Z.of_nat track + 1)); lia.
Qed.

(** X14.  The plane a call of [_update_tracks] appends to the tracked volume
    has the size of the frame; each of its pixels is 0 or the key plus one of
    a track that holds the frame after the call; a pixel that is background
    in the frame is 0 in the plane, and the pixels of a cell that occurs in
    the matching are not. *)
Theorem update_tracks_plane self assignments frame self' :
  update_tracks self assignments frame = Ok self' →
  ∃ y_frame plane,
    y self !! frame = Some y_frame ∧
    y_tracked self' = y_tracked self ++ [plane] ∧
    length plane = length y_frame ∧
    ∀ k v, y_frame !! k = Some v →
      ∃ w, plane !! k = Some w ∧
        tracked_pixel frame (tracks self') w ∧
        (v ≤ 0 → w = 0) ∧
        (0 < v → (∃ track, (track, Z.to_nat (v - 1)) ∈ assignments) → 0 < w).
Proof.
  unfold update_tracks, get_frame. intros Hrun.
  destruct (y self !! frame) as [y_frame|] eqn:Hy; [|done].
  rewrite bind_Ok in Hrun.
  destruct (amax y_frame) as [M|] eqn:HM; [|done]. rewrite bind_Ok in Hrun.
  assert (∀ v, v ∈ y_frame → v ≤ M) as Hmax.
  { destruct (amax_spec y_frame) as (m & Hm & _ & Hall).
    - intros ->. done.
    - rewrite HM in Hm. injection Hm as <-. done. }
  destruct (for_each (assignment_step self frame y_frame _ M) assignments _)
    as [st1|] eqn:Hloop; [|done].
  rewrite bind_Ok in Hrun.
  destruct (for_each (repair_step self frame) _ _) as [st2|] eqn:Hrepair;
    [|done].
  rewrite bind_Ok in Hrun. injection Hrun as <-.
  cbn [tracks y_tracked set_y_tracked set_tracks].
  set (covered := fun v : Z =>
                    ∃ track, (track, Z.to_nat (v - 1)) ∈ assignments).
  apply (for_each_invariant _
           (fun rest st =>
              length (y_tracked_update st) = length y_frame ∧
              ∀ k v w, y_frame !! k = Some v →
                y_tracked_update st !! k = Some w →
                tracked_pixel frame (st_tracks st) w ∧ (v ≤ 0 → w = 0) ∧
                (0 < v → covered v →
                 0 < w ∨ ∃ track, (track, Z.to_nat (v - 1)) ∈ rest)))
    in Hloop as [Hlen1 Hinv1].
  2:{ intros a rest s s' HI Hstep. by eapply assignment_step_plane. }
  2:{ cbn [y_tracked_update st_tracks]. split; [by rewrite length_replicate|].
      intros k v w Hv Hw. apply lookup_replicate in Hw as [-> _].
      split_and!; [by left|done|]. intros _ Hc. by right. }
  apply (for_each_invariant _
           (fun _ st =>
              length (y_tracked_update st) = length y_frame ∧
              ∀ k v w, y_frame !! k = Some v →
                y_tracked_update st !! k = Some w →
                tracked_pixel frame (st_tracks st) w ∧ (v ≤ 0 → w = 0) ∧
                (0 < v → covered v → 0 < w)))
    in Hrepair as [Hlen2 Hinv2].
  2:{ intros track rest s s' HI Hstep. by eapply repair_step_plane. }
  2:{ cbn [y_tracked_update st_tracks]. split; [done|].
      intros k v w Hv Hw. destruct (Hinv1 _ _ _ Hv Hw) as (Hpix & Hzero & Hcov).
      split_and!; [|done|].
      - eapply tracked_pixel_mono; [|exact Hpix].
        intros i t Hi. rewrite cap_tracks_map, list_lookup_fmap, Hi. simpl.
        eexists. split; [done|].
        by destruct (0 <? length (daughters t))%nat.
      - intros Hpos Hc. destruct (Hcov Hpos Hc) as [?|[track Hin]]; [done|].
        by apply elem_of_nil in Hin. }
  exists y_frame, (y_tracked_update st2). split_and!; [done|done|done|].
  intros k v Hv.
  destruct (lookup_lt_is_Some_2 (y_tracked_update st2) k) as [w Hw].
  { rewrite Hlen2. by eapply lookup_lt_Some. }
  exists w. destruct (Hinv2 _ _ _ Hv Hw) as (Hpix & Hzero & Hcov).
  by split_and!.
Qed.
End plane_loops.

Lemma update_tracks_plane_witness :
  ∃ self' plane,
    @update_tracks dividing_collaborators dividing_tracker
      [(0, 0); (1, 1); (2, 2)]%nat 1 = Ok self' ∧
    y_tracked self' = y_tracked dividing_tracker ++ [plane] ∧
    length plane = 2%nat.
Proof.
  destruct (@update_tracks dividing_collaborators dividing_tracker
              [(0, 0); (1, 1); (2, 2)]%nat 1) as [self'|e] eqn:Hrun;
    [|vm_compute in Hrun; discriminate].
  destruct (@update_tracks_plane dividing_collaborators _ _ _ _ Hrun)
    as (y_frame & plane & Hy & Htracked & Hlen & _).
  exists self', plane. split_and!; [done|done|].
  injection Hy as <-. exact Hlen.
Defined.

(** ** Frames without cells, and parents continued without a birth *)

Lemma for_each_fixed {S A} (body : S → A → result S) (xs : list A) (s : S) :
  (∀ x, x ∈ xs → body s x = Ok s) → for_each body xs s = Ok s.
Proof.
  induction xs as [|x xs IH]; intros Hall; [done|].
  cbn [for_each]. rewrite Hall, bind_Ok by (by left).
  apply IH. intros x' Hx'. apply Hall. by right.
Qed.

Lemma for_each_total {S A} (body : S → A → result S) (I : list A → S → Prop) :
  (∀ x xs s, I (x :: xs) s → ∃ s', body s x = Ok s' ∧ I xs s') →
  ∀ xs s, I xs s → ∃ s', for_each body xs s = Ok s' ∧ I [] s'.
Proof.
  intros Hstep xs. induction xs as [|x xs IH]; intros s HI.
  - by exists s.
  - destruct (Hstep _ _ _ HI) as (s1 & Hbody & HI1).
    destruct (IH _ HI1) as (s' & Hrun & HI').
    exists s'. split; [|done]. cbn [for_each]. by rewrite Hbody, bind_Ok.
Qed.

Section quiet_frames.
Context `{Collaborators}.
Implicit Types (self : cell_tracker) (st : frame_state) (t : track).

Lemma assignment_step_no_cell self frame (y_frame : list Z) (N M : Z) st a :
  M ≤ 0 → assignment_step self frame y_frame N M st a = Ok st.
Proof.
  intros HM. destruct a as [track cell]. unfold assignment_step.
  assert (is_continuation N M (track, cell) = false) as ->.
  { unfold is_continuation. simpl.
    destruct (Z.ltb_spec (Z.of_nat cell) M); [lia|].
    by rewrite andb_false_r. }
  assert (is_birth N M (track, cell) = false) as ->.
  { unfold is_birth. simpl.
    destruct (Z.ltb_spec (Z.of_nat cell) M); [lia|].
    by rewrite andb_false_r. }
  rewrite !bind_Ok. by destruct (is_death _ _ _).
Qed.

(** X15.  A frame whose largest label is 0: whatever the matching, the call
    of [_update_tracks] returns when no track with a daughter holds the
    frame already; it appends a plane of zeros, and of the tracks it sets
    the capped flag of those that have a daughter and changes nothing
    else. *)
Theorem update_tracks_empty_frame self assignments frame (y_frame : list Z)
    (M : Z) :
  y self !! frame = Some y_frame → amax y_frame = Ok M → M ≤ 0 →
  (∀ t, t ∈ tracks self → daughters t ≠ [] → frame ∉ frames t) →
  ∃ self',
    update_tracks self assignments frame = Ok self' ∧
    y_tracked self' = y_tracked self ++ [replicate (length y_frame) 0] ∧
    tracks self'
    = map (fun t => if (0 <? length (daughters t))%nat
                    then Track (label t) (frames t) (daughters t) true
                               (parent t) (feats t)
                    else t) (tracks self).
Proof.
  intros Hy HM Hle Hfree. unfold update_tracks, get_frame.
  rewrite Hy, bind_Ok, HM, bind_Ok.
  rewrite for_each_fixed, bind_Ok
    by (intros a _; by apply assignment_step_no_cell).
  cbn [st_tracks y_tracked_update new_track_id].
  rewrite for_each_fixed, bind_Ok.
  - eexists. split; [done|]. cbn. split; [done|apply cap_tracks_map].
  - intros i Hi. apply elem_of_seq in Hi as [_ Hi]. simpl in Hi.
    destruct (lookup_lt_is_Some_2 (cap_tracks (tracks self)) i) as [t' Ht'];
      [done|].
    eapply repair_step_skip; [exact Ht'|].
    rewrite cap_tracks_map, list_lookup_fmap in Ht'.
    destruct (tracks self !! i) as [t|] eqn:Ht; [|done].
    injection Ht' as <-. apply list_elem_of_lookup_2 in Ht.
    destruct (daughters t) as [|d ds] eqn:Hd; simpl; [left; by rewrite Hd|].
    right. apply Hfree; [done|by rewrite Hd].
Qed.
End quiet_frames.

Lemma update_tracks_empty_frame_witness :
  ∃ self',
    @update_tracks sample_collaborators resting_tracker
      [(0, 0); (1, 1)]%nat 1 = Ok self' ∧
    y_tracked self' = y_tracked resting_tracker ++ [replicate 4 0].
Proof.
  destruct (@update_tracks_empty_frame sample_collaborators resting_tracker
              [(0, 0); (1, 1)]%nat 1 [0; 0; 0; 0] 0)
    as (self' & Hrun & Hplane & _); [done|done|lia| |by exists self'].
  intros t Ht Hd. exfalso. apply Hd.
  apply elem_of_cons in Ht as [->|Ht]; [done|].
  by apply list_elem_of_singleton in Ht as ->.
Defined.

Section parents_without_birth.
Context `{Collaborators}.
Implicit Types (self : cell_tracker) (st : frame_state) (t : track).

Lemma append_features_total (pairs : list (string * list Val))
    (d : gmap string (list Val)) :
  (∀ p, p ∈ pairs → is_Some (d !! p.1)) →
  ∃ d',
    for_each (fun fs '(feature_name, cell_feature) =>
                old ← dict_get fs feature_name;
                Ok (<[feature_name := old ++ cell_feature]> fs))
             pairs d = Ok d' ∧
    ∀ name, is_Some (d' !! name) ↔ is_Some (d !! name).
Proof.
  revert d. induction pairs as [|[n cf] pairs IH]; intros d Hall.
  - by exists d.
  - destruct (Hall (n, cf)) as [old Hold]; [by left|]. simpl in Hold.
    assert (∀ name, is_Some (<[n := old ++ cf]> d !! name)
                    ↔ is_Some (d !! name)) as Hkeys.
    { intros name. destruct (decide (name = n)) as [->|Hne].
      - rewrite lookup_insert_eq, Hold. split; by eexists.
      - by rewrite lookup_insert_ne. }
    destruct (IH (<[n := old ++ cf]> d)) as (d' & Hrun & Hiff).
    { intros p Hp. apply Hkeys, Hall. by right. }
    exists d'. split.
    + cbn [for_each]. by rewrite (dict_get_Some _ _ _ Hold), !bind_Ok.
    + intros name. by rewrite Hiff, Hkeys.
Qed.

Lemma continue_track_total self frame (y_frame l_frame : list Z) track
    (cell_id : Z) st t :
  st_tracks st !! track = Some t →
  y self !! frame = Some l_frame → cell_id ∈ l_frame →
  (∀ name, name ∈ feature_names → is_Some (feats t !! name)) →
  ∃ fs,
    continue_track self frame y_frame track cell_id st
    = Ok (FrameState
            (<[track := Track (label t) (frames t ++ [frame]) (daughters t)
                              (capped t) (parent t) fs]> (st_tracks st))
            (mask_assign y_frame cell_id (Z.of_nat track + 1)
                         (y_tracked_update st))
            (new_track_id st)) ∧
    ∀ name, is_Some (fs !! name) ↔ is_Some (feats t !! name).
Proof.
  intros Ht Hy Hcell Hkeys. unfold continue_track, index.
  rewrite Ht, bind_Ok. unfold get_features, get_frame.
  rewrite Hy, bind_Ok, bool_decide_eq_true_2 by done.
  destruct (extract (y self) frame cell_id) as [[[a c] g] p].
  rewrite bind_Ok.
  destruct (append_features_total
              [("appearance", [a]); ("distance", [c]);
               ("neighborhood", [g]); ("perimeter", [p])] (feats t))
    as (fs & Hfs & Hiff).
  { intros q Hq. apply Hkeys. unfold feature_names.
    repeat (apply elem_of_cons in Hq as [->|Hq]); simpl;
      [by left|right; by left|do 2 right; by left|do 3 right; by left|].
    by apply elem_of_nil in Hq. }
  rewrite Hfs, bind_Ok. by exists fs.
Qed.

Lemma repair_loop_unbound self frame st (xs : list nat) (i : nat) t :
  new_track_id st = None →
  (∀ j, j ∈ xs → (j < length (st_tracks st))%nat) →
  i ∈ xs → st_tracks st !! i = Some t →
  daughters t ≠ [] → frame ∈ frames t →
  for_each (repair_step self frame) xs st
  = Raise (UnboundLocalError "new_track_id").
Proof.
  intros Hid Hrange Hi Ht Hd Hf.
  induction xs as [|x xs IH]; [by apply elem_of_nil in Hi|].
  cbn [for_each].
  destruct (lookup_lt_is_Some_2 (st_tracks st) x) as [tx Htx];
    [apply Hrange; by left|].
  destruct (decide (daughters tx ≠ [] ∧ frame ∈ frames tx)) as [[Hdx Hfx]|Hskip].
  - by rewrite (repair_step_unbound _ _ _ _ _ Htx Hdx Hfx Hid).
  - rewrite (repair_step_skip _ _ _ _ _ Htx), bind_Ok.
    + apply IH; [intros j Hj; apply Hrange; by right|].
      apply elem_of_cons in Hi as [->|Hi]; [|done].
      exfalso. apply Hskip. rewrite Htx in Ht. by injection Ht as ->.
    + destruct (daughters tx) as [|d ds]; [by left|]. right.
      intros Hfx. by apply Hskip.
Qed.

(** X16.  A frame whose labels have no gap, tracks that carry the four
    feature histories, and a matching without any birth that continues a
    track which has a daughter: the loop over assignments runs to its end,
    and the repair then reads [new_track_id] before anything assigned it.
    The call raises [UnboundLocalError]. *)
Theorem update_tracks_parent_continued_without_birth self assignments frame
    (y_frame : list Z) (M : Z) (track cell : nat) t :
  y self !! frame = Some y_frame → amax y_frame = Ok M →
  (∀ l, 1 ≤ l ≤ M → l ∈ y_frame) →
  (∀ t0, t0 ∈ tracks self →
         ∀ name, name ∈ feature_names → is_Some (feats t0 !! name)) →
  (∀ a, a ∈ assignments →
        is_birth (Z.of_nat (length (tracks self))) M a = false) →
  (track, cell) ∈ assignments →
  is_continuation (Z.of_nat (length (tracks self))) M (track, cell) = true →
  tracks self !! track = Some t → daughters t ≠ [] →
  update_tracks self assignments frame
  = Raise (UnboundLocalError "new_track_id").
Proof.
  intros Hy HM Hgap Hkeys Hnobirth Hin Hcont Ht Hd.
  unfold update_tracks, get_frame. rewrite Hy, bind_Ok, HM, bind_Ok.
  set (N := Z.of_nat (length (tracks self))) in *.
  destruct (for_each_total (assignment_step self frame y_frame N M)
              (fun rem st =>
                 (∀ a, a ∈ rem → is_birth N M a = false) ∧
                 new_track_id st = None ∧
                 length (st_tracks st) = length (tracks self) ∧
                 (∀ i t', st_tracks st !! i = Some t' →
                    (∀ name, name ∈ feature_names →
                             is_Some (feats t' !! name)) ∧
                    ∃ t0, tracks self !! i = Some t0 ∧
                          daughters t' = daughters t0) ∧
                 ((track, cell) ∈ rem ∨
                  ∃ t', st_tracks st !! track = Some t' ∧ frame ∈ frames t')))
    with (xs := assignments)
         (s := FrameState (tracks self) (replicate (length y_frame) 0) None)
    as (st1 & Hloop & _ & Hid & Hlen & Hall & Hheld).
  { intros [tr c] rest st (Hnb & Hid & Hlen & Hall & Hheld).
    assert (is_birth N M (tr, c) = false) as Hbirth by (apply Hnb; by left).
    destruct (is_continuation N M (tr, c)) eqn:Hc.
    - unfold is_continuation in Hc. simpl in Hc.
      destruct (Z.ltb_spec (Z.of_nat tr) N); [|done].
      destruct (Z.ltb_spec (Z.of_nat c) M); [|done].
      destruct (lookup_lt_is_Some_2 (st_tracks st) tr) as [t' Ht'];
        [subst N; lia|].
      destruct (Hall _ _ Ht') as (Hkeys' & t0 & Ht0 & Hd0).
      destruct (continue_track_total self frame y_frame y_frame tr
                  (Z.of_nat c + 1) st t')
        as (fs & Hcontinue & Hiff); [done|done|apply Hgap; lia|done|].
      eexists. split.
      { unfold assignment_step, is_continuation. simpl.
        destruct (Z.ltb_spec (Z.of_nat tr) N); [|lia].
        destruct (Z.ltb_spec (Z.of_nat c) M); [|lia].
        simpl. rewrite Hcontinue, bind_Ok. unfold is_birth in *. simpl in *.
        rewrite Hbirth, bind_Ok. by destruct (is_death _ _ _). }
      cbn [st_tracks new_track_id]. split_and!.
      + intros a Ha. apply Hnb. by right.
      + done.
      + by rewrite length_insert.
      + intros i t'' Hi.
        apply list_lookup_insert_Some in Hi as [(-> & <- & _)|[Hne Hi]].
        * split; [intros name Hname; by apply Hiff, Hkeys'|].
          by exists t0.
        * by apply Hall.
      + destruct (decide (tr = track)) as [->|Hne].
        * right. eexists.
          split; [apply list_lookup_insert_eq; by eapply lookup_lt_Some|].
          simpl. apply elem_of_app. right. by left.
        * destruct Hheld as [Hrem|(t'' & Ht'' & Hf'')].
          -- left. apply elem_of_cons in Hrem as [Heq|Hrem]; [|done].
             congruence.
          -- right. exists t''. by rewrite list_lookup_insert_ne.
    - exists st. split.
      { unfold assignment_step. rewrite Hc, bind_Ok, Hbirth, bind_Ok.
        by destruct (is_death _ _ _). }
      split_and!; [|done|done|done|].
      + intros a Ha. apply Hnb. by right.
      + destruct Hheld as [Hrem|Hheld]; [|by right].
        left. apply elem_of_cons in Hrem as [Heq|Hrem]; [|done].
        injection Heq as <- <-. congruence. }
  { cbn [st_tracks new_track_id]. split_and!; [done|done|done| |by left].
    intros i t' Hi. split; [|by exists t'].
    apply Hkeys. by eapply list_elem_of_lookup_2. }
  rewrite Hloop, bind_Ok. cbn [st_tracks y_tracked_update new_track_id].
  destruct Hheld as [Hnil|(t' & Ht' & Hf')]; [by apply elem_of_nil in Hnil|].
  destruct (Hall _ _ Ht') as (_ & t0 & Ht0 & Hd0).
  rewrite Ht in Ht0. injection Ht0 as <-.
  rewrite (repair_loop_unbound self frame _ _ track
             (if (0 <? length (daughters t'))%nat
              then Track (label t') (frames t') (daughters t') true
                         (parent t') (feats t')
              else t')); [done|done| | | | |].
  - intros j Hj. by apply elem_of_seq in Hj as [_ Hj].
  - apply elem_of_seq. split; [lia|]. simpl.
    rewrite cap_tracks_map, length_map. by eapply lookup_lt_Some.
  - cbn [st_tracks]. by rewrite cap_tracks_map, list_lookup_fmap, Ht'.
  - rewrite <- Hd0 in Hd. by destruct (0 <? length (daughters t'))%nat.
  - by destruct (0 <? length (daughters t'))%nat.
Qed.
End parents_without_birth.

Lemma update_tracks_parent_continued_without_birth_witness :
  @update_tracks sample_collaborators divided_tracker
    [(0, 0); (1, 1); (2, 2); (3, 3)]%nat 2
  = Raise (UnboundLocalError "new_track_id").
Proof.
  apply (@update_tracks_parent_continued_without_birth sample_collaborators
           divided_tracker [(0, 0); (1, 1); (2, 2); (3, 3)]%nat 2
           [1; 2; 0; 0] 2 0 0
           (sample_track [0%nat] [1%nat] true [[1%R]] [[0%R; 0%R]])).
  - reflexivity.
  - reflexivity.
  - intros l Hl. assert (l = 1 ∨ l = 2) as [-> | ->] by lia;
      [by left|right; by left].
  - intros t0 Ht0 name Hname. unfold feature_names in Hname.
    apply elem_of_cons in Ht0 as [->|Ht0];
      [|apply list_elem_of_singleton in Ht0 as ->];
      repeat (apply elem_of_cons in Hname as [->|Hname]);
      try (by apply elem_of_nil in Hname); by eexists.
  - intros a Ha.
    repeat (apply elem_of_cons in Ha as [->|Ha]); try reflexivity.
    by apply elem_of_nil in Ha.
  - by left.
  - reflexivity.
  - reflexivity.
  - done.
Defined.

(** ** Runs of the repair and of the loop over assignments *)

Lemma update_tracks_releases_capped_witness :
  ∃ self',
    @update_tracks dividing_collaborators dividing_tracker
      [(0, 0); (1, 1); (2, 2)]%nat 1 = Ok self' ∧
    ∀ t, t ∈ tracks self' → capped t = true → 1%nat ∉ frames t.
Proof.
  destruct (@update_tracks dividing_collaborators dividing_tracker
              [(0, 0); (1, 1); (2, 2)]%nat 1) as [self'|e] eqn:Hrun;
    [|vm_compute in Hrun; discriminate].
  exists self'. split; [done|]. intros t Ht.
  eapply (@update_tracks_releases_capped dividing_collaborators);
    [exact Hrun| | | |exact Ht].
  - simpl. repeat (apply NoDup_cons; split;
                   [intros Hin; repeat (apply elem_of_cons in Hin as [Hin|Hin];
                                        [done|]);
                    by apply elem_of_nil in Hin|]).
    apply NoDup_nil_2.
  - intros t0 Ht0. apply list_elem_of_singleton in Ht0 as ->. simpl.
    intros Hin. apply elem_of_cons in Hin as [Hin|Hin]; [done|].
    by apply elem_of_nil in Hin.
  - intros t0 Ht0. apply list_elem_of_singleton in Ht0 as ->. by intros Hc.
Defined.


Lemma repair_step_label_absent_witness :
  @repair_step sample_collaborators dividing_tracker 1
    (FrameState [Track 7 [0; 1]%nat [1%nat] true None ∅] [0; 0] (Some 0%nat)) 0
  = Raise IndexError.
Proof.
  apply (@repair_step_label_absent sample_collaborators dividing_tracker 1
           (FrameState [Track 7 [0; 1]%nat [1%nat] true None ∅] [0; 0]
                       (Some 0%nat))
           0 (Track 7 [0; 1]%nat [1%nat] true None ∅) 0%nat [1; 2]).
  - reflexivity.
  - done.
  - simpl. right. by left.
  - reflexivity.
  - reflexivity.
  - simpl. intros Hin.
    repeat (apply elem_of_cons in Hin as [Hin|Hin]; [done|]).
    by apply elem_of_nil in Hin.
Defined.

Lemma assignment_loop_births_witness :
  ∃ st',
    for_each (@assignment_step dividing_collaborators dividing_tracker 1
                               [1; 2] 1 2)
             [(0, 0); (1, 1); (2, 2)]%nat
             (FrameState (tracks dividing_tracker) [0; 0] None) = Ok st' ∧
    length (st_tracks st') = 2%nat.
Proof.
  destruct (for_each (@assignment_step dividing_collaborators dividing_tracker
                                       1 [1; 2] 1 2)
                     [(0, 0); (1, 1); (2, 2)]%nat
                     (FrameState (tracks dividing_tracker) [0; 0] None))
    as [st'|e] eqn:Hrun; [|vm_compute in Hrun; discriminate].
  exists st'. split; [done|].
  by rewrite (@assignment_loop_births dividing_collaborators _ _ _ _ _ _ _ _ Hrun).
Defined.

(** ** Births *)

Lemma first_where_inv (m : Q) (probs : list Q) (i : nat) :
  first_where m probs = Ok i → ∃ x, probs !! i = Some x ∧ (x == m)%Q.
Proof.
  revert i. induction probs as [|p probs IH]; intros i Hfw; [done|].
  simpl in Hfw. destruct (Qeq_bool p m) eqn:Hp.
  - injection Hfw as <-. exists p. split; [done|by apply Qeq_bool_iff].
  - destruct (first_where m probs) as [j|]; [|done].
    rewrite bind_Ok in Hfw. injection Hfw as <-. by apply IH.
Qed.

(** With a threshold that is not negative, the parent search never answers
    a capped track, whatever the number of scores the model hands back. *)
Lemma choose_parent_uncapped (tracks : list track) (division : Q)
    (probs : list Q) (p : nat) :
  (0 <= division)%Q → choose_parent tracks division probs = Ok (Some p) →
  capped_at tracks p = false.
Proof.
  unfold choose_parent. intros Hdiv Hc.
  destruct (for_each _ (seq 0 (length tracks)) probs) as [pr|] eqn:Hmask;
    [|done].
  rewrite bind_Ok in Hc. destruct (amaxQ pr) as [m|]; [|done].
  rewrite bind_Ok in Hc. destruct (first_where m pr) as [j|] eqn:Hfw; [|done].
  rewrite bind_Ok in Hc.
  destruct (Qle_bool m division) eqn:Hle; simpl in Hc; [done|].
  injection Hc as ->. apply first_where_inv in Hfw as (x & Hx & Hxm).
  assert (∀ i, (i < length tracks)%nat → capped_at tracks i = true →
               pr !! i = Some 0%Q) as Hzero.
  { intros i Hi. eapply (for_each_invariant _
             (fun rem pr => ∀ i, (i < length tracks)%nat → i ∉ rem →
                                 capped_at tracks i = true →
                                 pr !! i = Some 0%Q));
      [| |exact Hmask|exact Hi|apply not_elem_of_nil].
    - intros x0 xs s s' HI Hstep. unfold index in Hstep.
      destruct (tracks !! x0) as [t|] eqn:Ht; [|done].
      rewrite bind_Ok in Hstep. destruct (capped t) eqn:Hcap.
      + destruct (x0 <? length s)%nat eqn:Hlt; [|done].
        injection Hstep as <-. intros i' Hi' Hnot Hci.
        destruct (decide (i' = x0)) as [->|Hne].
        * apply list_lookup_insert_eq. by apply Nat.ltb_lt.
        * rewrite list_lookup_insert_ne by done.
          apply HI; [done| |done]. by apply not_elem_of_cons.
      + injection Hstep as <-. intros i' Hi' Hnot Hci.
        destruct (decide (i' = x0)) as [->|Hne].
        * unfold capped_at in Hci. rewrite Ht, Hcap in Hci. done.
        * apply HI; [done| |done]. by apply not_elem_of_cons.
    - intros i' Hi' Hnot. exfalso. apply Hnot, elem_of_seq. lia. }
  destruct (capped_at tracks p) eqn:Hcp; [|done]. exfalso.
  assert (p < length tracks)%nat as Hlt.
  { unfold capped_at in Hcp. destruct (tracks !! p) eqn:Htp; [|done].
    by eapply lookup_lt_Some. }
  rewrite (Hzero p Hlt Hcp) in Hx. injection Hx as <-.
  assert (m <= division)%Q as Hmd by (by rewrite <- Hxm).
  apply Qle_bool_iff in Hmd. congruence.
Qed.

Lemma link_parent_inv_full (ts ts' : list track) (new_id : nat)
    (r : option nat) :
  link_parent ts new_id r = Ok ts' →
  ∃ new_t, ts !! new_id = Some new_t ∧
    match r with
    | Some p =>
        ∃ parent_t,
          <[new_id := Track (label new_t) (frames new_t) (daughters new_t)
                            (capped new_t) (Some p) (feats new_t)]> ts !! p
          = Some parent_t ∧
          ts' = <[p := Track (label parent_t) (frames parent_t)
                             (daughters parent_t ++ [new_id])
                             (capped parent_t) (parent parent_t)
                             (feats parent_t)]>
                  (<[new_id := Track (label new_t) (frames new_t)
                                     (daughters new_t) (capped new_t)
                                     (Some p) (feats new_t)]> ts)
    | None =>
        ts' = <[new_id := Track (label new_t) (frames new_t) (daughters new_t)
                                (capped new_t) None (feats new_t)]> ts
    end.
Proof.
  unfold link_parent, index. intros Hlink.
  destruct (ts !! new_id) as [new_t|] eqn:Hnew; [|done].
  rewrite bind_Ok in Hlink. exists new_t. split; [done|].
  destruct r as [p|].
  - destruct (<[new_id := _]> ts !! p) as [parent_t|] eqn:Hp; [|done].
    rewrite bind_Ok in Hlink. injection Hlink as <-. by exists parent_t.
  - by injection Hlink as <-.
Qed.

Section birth_facts.
Context `{Collaborators}.
Implicit Types (self : cell_tracker) (st : frame_state) (t : track).

Lemma birth_track_inv_parent self frame (y_frame : list Z) cell st st' :
  birth_track self frame y_frame cell st = Ok st' →
  ∃ fs r,
    get_parent
      (set_tracks self
         (st_tracks st ++ [Track (Z.of_nat cell + 1) [frame] [] false None
                                 (dict_update ∅ fs)]))
      frame (Z.of_nat cell + 1) = Ok r ∧
    link_parent
      (st_tracks st ++ [Track (Z.of_nat cell + 1) [frame] [] false None
                              (dict_update ∅ fs)])
      (length (st_tracks st)) r = Ok (st_tracks st') ∧
    new_track_id st' = Some (length (st_tracks st)).
Proof.
  unfold birth_track, create_new_track. intros Hb.
  destruct (get_features (y self) frame (Some (Z.of_nat cell + 1)))
    as [fs|]; [|done].
  rewrite !bind_Ok in Hb.
  destruct (get_parent _ frame (Z.of_nat cell + 1)) as [r|] eqn:Hp; [|done].
  rewrite bind_Ok in Hb.
  rewrite length_app in Hb. cbn [length] in Hb.
  replace (length (st_tracks st) + 1 - 1)%nat with (length (st_tracks st))
    in Hb by lia.
  destruct (link_parent _ (length (st_tracks st)) r) as [tracks'|] eqn:Hl;
    [|done].
  rewrite bind_Ok in Hb. injection Hb as <-. by exists fs, r.
Qed.

(** X21.  A birth that [_update_tracks] completes, with a division threshold
    that is not negative: the newborn sits under the next key, with the
    label of its cell, the frame as its only frame, not capped.  A parent,
    if it gets one, is a track that is not capped, perhaps the newborn
    itself, which is among the candidates, and that track gets the newborn
    as its last daughter; every other track stays as it was. *)
Theorem birth_track_parent self frame (y_frame : list Z) cell st st' :
  (0 <= division self)%Q →
  birth_track self frame y_frame cell st = Ok st' →
  ∃ new_t,
    st_tracks st' !! length (st_tracks st) = Some new_t ∧
    length (st_tracks st') = S (length (st_tracks st)) ∧
    new_track_id st' = Some (length (st_tracks st)) ∧
    label new_t = Z.of_nat cell + 1 ∧ frames new_t = [frame] ∧
    capped new_t = false ∧
    match parent new_t with
    | Some p =>
        (p ≤ length (st_tracks st))%nat ∧
        (∀ t, st_tracks st !! p = Some t → capped t = false) ∧
        (∃ tp, st_tracks st' !! p = Some tp ∧
               last (daughters tp) = Some (length (st_tracks st))) ∧
        ∀ i t, i ≠ p → st_tracks st !! i = Some t →
               st_tracks st' !! i = Some t
    | None =>
        daughters new_t = [] ∧
        ∀ i t, st_tracks st !! i = Some t → st_tracks st' !! i = Some t
    end.
Proof.
  intros Hdiv (fs & r & Hparent & Hlink & Hid)%birth_track_inv_parent.
  set (n := length (st_tracks st)) in *.
  set (born := Track (Z.of_nat cell + 1) [frame] [] false None
                     (dict_update ∅ fs)) in *.
  assert ((st_tracks st ++ [born]) !! n = Some born) as Hborn.
  { subst n. by rewrite lookup_app_r, Nat.sub_diag by lia. }
  assert (length (st_tracks st ++ [born]) = S n) as Hlen.
  { rewrite length_app. simpl. subst n. lia. }
  apply link_parent_inv_full in Hlink as (new_t & Hnew & Hr).
  rewrite Hborn in Hnew. injection Hnew as <-.
  destruct r as [p|].
  - destruct Hr as (parent_t & Hp & ->).
    apply get_parent_choose in Hparent as (model_input & Hchoose).
    cbn [tracks division set_tracks] in Hchoose.
    apply choose_parent_uncapped in Hchoose; [|done].
    apply lookup_lt_Some in Hp as Hplt. rewrite length_insert, Hlen in Hplt.
    assert (∀ i t, i ≠ p → st_tracks st !! i = Some t →
              <[p := Track (label parent_t) (frames parent_t)
                           (daughters parent_t ++ [n]) (capped parent_t)
                           (parent parent_t) (feats parent_t)]>
                (<[n := Track (label born) (frames born) (daughters born)
                              (capped born) (Some p) (feats born)]>
                   (st_tracks st ++ [born])) !! i = Some t) as Hothers.
    { intros i t Hne Hi. apply lookup_lt_Some in Hi as Hilt. fold n in Hilt.
      rewrite !list_lookup_insert_ne by lia. by apply lookup_app_l_Some. }
    destruct (decide (p = n)) as [->|Hpn].
    + rewrite list_lookup_insert_eq in Hp by lia. injection Hp as <-.
      eexists. split; [apply list_lookup_insert_eq; rewrite length_insert; lia|].
      cbn. split_and!; [by rewrite !length_insert|done..| | |done].
      * intros t Ht. apply lookup_lt_Some in Ht. fold n in Ht. lia.
      * eexists. split; [apply list_lookup_insert_eq; rewrite length_insert; lia|].
        done.
    + rewrite list_lookup_insert_ne in Hp by done.
      assert (st_tracks st !! p = Some parent_t) as Hpt.
      { rewrite lookup_app_l in Hp by lia. done. }
      eexists. split.
      { rewrite list_lookup_insert_ne by done.
        apply list_lookup_insert_eq. lia. }
      cbn. split_and!; [by rewrite !length_insert|done..|lia| | |done].
      * intros t Ht. unfold capped_at in Hchoose.
        rewrite lookup_app_l, Ht in Hchoose by lia. done.
      * eexists. split; [apply list_lookup_insert_eq; rewrite length_insert; lia|].
        simpl. apply last_snoc.
  - rewrite Hr. eexists. split; [apply list_lookup_insert_eq; lia|].
    cbn. split_and!; [by rewrite length_insert|done..|].
    intros i t Hi. apply lookup_lt_Some in Hi as Hilt. fold n in Hilt.
    rewrite list_lookup_insert_ne by lia. by apply lookup_app_l_Some.
Qed.
End birth_facts.

Lemma birth_track_parent_witness :
  ∃ st' new_t,
    @birth_track dividing_collaborators dividing_tracker 1 [1; 2] 1
      (FrameState (tracks dividing_tracker) [0; 0] None) = Ok st' ∧
    st_tracks st' !! 1%nat = Some new_t ∧ frames new_t = [1%nat].
Proof.
  destruct (@birth_track dividing_collaborators dividing_tracker 1 [1; 2] 1
              (FrameState (tracks dividing_tracker) [0; 0] None))
    as [st'|e] eqn:Hrun; [|vm_compute in Hrun; discriminate].
  destruct (@birth_track_parent dividing_collaborators _ _ _ _ _ _
              (ltac:(done) : (0 <= division dividing_tracker)%Q) Hrun)
    as (new_t & Hnew & _ & _ & _ & Hframes & _).
  by exists st', new_t.
Defined.

(** ** Long histories, and frames whose labels have a gap *)


Section long_histories.
Implicit Types (self : cell_tracker) (t : track).

End long_histories.


Section label_gaps.
Context `{Collaborators}.
Implicit Types (self : cell_tracker).

(** X23.  [_get_cost_matrix] measures the cells 1, 2, ... up to the largest
    label of the frame: when one of these labels does not occur in the frame
    it raises, [regionprops] having nothing to measure. *)
Theorem get_cost_matrix_label_gap self frame (y_frame : list Z) (M l : Z) :
  y self !! frame = Some y_frame → amax y_frame = Ok M →
  1 ≤ l ≤ M → l ∉ y_frame →
  ∃ e, get_cost_matrix self frame = Raise e.
Proof.
  intros Hy HM Hl Hgap. unfold get_cost_matrix, get_frame.
  rewrite Hy, bind_Ok, HM, bind_Ok.
  destruct (Z.ltb_spec M 0); [lia|].
  destruct (fetch_track_features self) as [tf|]; [|by eexists].
  rewrite bind_Ok.
  destruct (zero_frame_features self (Z.to_nat M)) as [ff|]; [|by eexists].
  rewrite bind_Ok. unfold fill_frame_features.
  edestruct (for_each_raises
               (fun (d : gmap string (list Val)) (cell : nat) =>
                  cell_features ←
                    get_features (y self) frame (Some (Z.of_nat cell + 1));
                  for_each (fun d '(feature_name, feature_value) =>
                              column ← dict_get d feature_name;
                              Ok (<[feature_name :=
                                      <[cell := concat feature_value]> column]> d))
                           cell_features d)
               (seq 0 (Z.to_nat M)) (Z.to_nat (l - 1))) as [e He].
  - apply elem_of_seq. lia.
  - intros d. unfold get_features, get_frame. rewrite Hy, bind_Ok.
    replace (Z.of_nat (Z.to_nat (l - 1)) + 1) with l by lia.
    rewrite bool_decide_eq_false_2 by done. by eexists.
  - rewrite He. by eexists.
Qed.
End label_gaps.

Lemma get_cost_matrix_label_gap_witness :
  ∃ e,
    @get_cost_matrix sample_collaborators
      (sample_tracker [[0; 2]] 1 ["appearance"] []) 0 = Raise e.
Proof.
  apply (@get_cost_matrix_label_gap sample_collaborators
           (sample_tracker [[0; 2]] 1 ["appearance"] []) 0 [0; 2] 2 1).
  - reflexivity.
  - reflexivity.
  - lia.
  - intros Hin. repeat (apply elem_of_cons in Hin as [Hin|Hin]; [done|]).
    by apply elem_of_nil in Hin.
Defined.

(** ** Feature histories under continuation and repair *)

Lemma append_features_inv (pairs : list (string * list Val))
    (d d' : gmap string (list Val)) :
  NoDup (map fst pairs) →
  for_each (fun fs '(feature_name, cell_feature) =>
              old ← dict_get fs feature_name;
              Ok (<[feature_name := old ++ cell_feature]> fs))
           pairs d = Ok d' →
  (∀ name v, (name, v) ∈ pairs →
             ∃ old, d !! name = Some old ∧ d' !! name = Some (old ++ v)) ∧
  (∀ name, name ∉ map fst pairs → d' !! name = d !! name).
Proof.
  revert d. induction pairs as [|[n cf] pairs IH]; intros d Hnd Hrun.
  - simpl in Hrun. injection Hrun as <-. split; [|done].
    intros name v Hin. by apply elem_of_nil in Hin.
  - simpl in Hnd. apply NoDup_cons in Hnd as [Hfresh Hnd].
    cbn [for_each] in Hrun.
    destruct (d !! n) as [old|] eqn:Hold;
      [rewrite (dict_get_Some _ _ _ Hold) in Hrun
      |by rewrite (dict_get_None _ _ Hold) in Hrun].
    rewrite !bind_Ok in Hrun.
    destruct (IH _ Hnd Hrun) as [Hin Hout]. split.
    + intros name v [Heq|Hpair]%elem_of_cons.
      * injection Heq as -> ->. exists old. split; [done|].
        by rewrite Hout, lookup_insert_eq.
      * destruct (Hin _ _ Hpair) as (old' & Hold' & Hnew).
        assert (name ≠ n) as Hne.
        { intros ->. apply Hfresh.
          apply list_elem_of_fmap. by exists (n, v). }
        rewrite lookup_insert_ne in Hold' by done. by exists old'.
    + intros name Hname. simpl in Hname.
      apply not_elem_of_cons in Hname as [Hne Hname].
      by rewrite Hout, lookup_insert_ne.
Qed.

Section histories.
Context `{Collaborators}.
Implicit Types (self : cell_tracker) (st : frame_state) (t : track).

(** X24.  A continuation that completes changes the one track it continues:
    the frame goes to the end of its frames and, for each of the four
    features, enabled or not, the value measured for the matched cell goes
    to the end of the history; no other history, no other field and no
    other track changes. *)
Theorem continue_track_appends self frame (y_frame : list Z) track
    (cell_id : Z) st st' :
  continue_track self frame y_frame track cell_id st = Ok st' →
  ∃ t t',
    st_tracks st !! track = Some t ∧ st_tracks st' !! track = Some t' ∧
    (∀ i, i ≠ track → st_tracks st' !! i = st_tracks st !! i) ∧
    frames t' = frames t ++ [frame] ∧ label t' = label t ∧
    daughters t' = daughters t ∧ capped t' = capped t ∧
    parent t' = parent t ∧
    (let '(appearance, centroid, occupancy_grid, perimeter) :=
       extract (y self) frame cell_id in
     ∀ name v,
       (name, v) ∈ [("appearance", appearance); ("distance", centroid);
                    ("neighborhood", occupancy_grid);
                    ("perimeter", perimeter)] →
       ∃ h, feats t !! name = Some h ∧ feats t' !! name = Some (h ++ [v])) ∧
    ∀ name, name ∉ feature_names → feats t' !! name = feats t !! name.
Proof.
  unfold continue_track, index, get_features. intros Hc.
  destruct (st_tracks st !! track) as [t|] eqn:Ht; [|done].
  rewrite bind_Ok in Hc.
  destruct (get_frame (y self) frame) as [l_frame|]; [|done].
  rewrite bind_Ok in Hc.
  destruct (bool_decide (cell_id ∈ l_frame)); [|done].
  destruct (extract (y self) frame cell_id) as [[[a c] g] p].
  rewrite bind_Ok in Hc.
  destruct (for_each _ _ (feats t)) as [fs|] eqn:Hfs; [|done].
  rewrite bind_Ok in Hc. injection Hc as <-.
  apply append_features_inv in Hfs as [Hin Hout].
  2:{ simpl. repeat (apply NoDup_cons; split;
                     [intros Hx; repeat (apply elem_of_cons in Hx as [Hx|Hx];
                                         [done|]);
                      by apply elem_of_nil in Hx|]).
      apply NoDup_nil_2. }
  apply lookup_lt_Some in Ht as Hlt.
  eexists t, _. cbn [st_tracks].
  split_and!; [done|by apply list_lookup_insert_eq| |done..| |].
  - intros i Hne. by rewrite list_lookup_insert_ne.
  - intros name v Hpair. cbn [feats].
    repeat (apply elem_of_cons in Hpair as [Heq|Hpair];
            [injection Heq as -> ->; apply (Hin _ [_]);
             repeat (first [by left|right])|]).
    by apply elem_of_nil in Hpair.
  - done.
Qed.
End histories.

Lemma continue_track_appends_witness :
  ∃ st' t',
    @continue_track sample_collaborators dividing_tracker 1 [1; 2] 0 1
      (FrameState (tracks dividing_tracker) [0; 0] None) = Ok st' ∧
    st_tracks st' !! 0%nat = Some t' ∧ frames t' = [0; 1]%nat.
Proof.
  destruct (@continue_track sample_collaborators dividing_tracker 1 [1; 2] 0 1
              (FrameState (tracks dividing_tracker) [0; 0] None))
    as [st'|e] eqn:Hrun; [|vm_compute in Hrun; discriminate].
  destruct (@continue_track_appends sample_collaborators _ _ _ _ _ _ _ Hrun)
    as (t & t' & Ht & Ht' & _ & Hframes & _).
  exists st', t'. split_and!; [done|done|].
  injection Ht as <-. exact Hframes.
Defined.

Section repaired_histories.
Context `{Collaborators}.
Implicit Types (self : cell_tracker) (st : frame_state) (t : track).

(** X25.  The repair moves the last value of the enabled histories only.
    For a feature that is not enabled, the repaired track keeps its whole
    history although it loses the frame, and the fresh track holds what
    [_get_features] measured for the cell that carries the label of the
    repaired track, not the last value of that track. *)
Theorem repair_step_disabled_histories self frame st track t id
    (fs : list (string * list Val)) (name : string) :
  st_tracks st !! track = Some t →
  daughters t ≠ [] → frame ∈ frames t → new_track_id st = Some id →
  get_features (y self) frame (Some (label t)) = Ok fs →
  NoDup (features self) →
  (∀ name, name ∈ features self → ∃ h x, feats t !! name = Some (h ++ [x])) →
  name ∉ features self →
  ∃ st' t' new_t,
    repair_step self frame st track = Ok st' ∧
    st_tracks st' !! track = Some t' ∧
    st_tracks st' !! length (st_tracks st) = Some new_t ∧
    frames t' = list_remove frame (frames t) ∧
    feats t' !! name = feats t !! name ∧
    feats new_t !! name = dict_update ∅ fs !! name.
Proof.
  intros Ht Hd Hf Hid Hfs Hnd Hall Hname.
  apply lookup_lt_Some in Ht as Htrack.
  unfold repair_step, index. rewrite Ht, bind_Ok.
  destruct (daughters t) as [|d ds] eqn:Hdt; [done|].
  cbn [length Nat.ltb Nat.leb].
  rewrite bool_decide_eq_true_2 by done. rewrite Hid, bind_Ok.
  rewrite (create_new_track_ok _ _ _ _ _ Hfs), bind_Ok.
  rewrite length_app. cbn [length].
  replace (length (st_tracks st) + 1 - 1)%nat with (length (st_tracks st))
    by lia.
  rewrite lookup_app_r, Nat.sub_diag by lia.
  cbn [lookup list_lookup]. rewrite bind_Ok. cbn [feats].
  destruct (rehome_loop t (features self) (dict_update ∅ fs) Hall)
    as (new_fs & -> & _ & Hnew).
  rewrite bind_Ok.
  destruct (truncate_loop (features self) (feats t) Hnd)
    as (old_fs & -> & _ & Hold).
  { intros n Hn. destruct (Hall n Hn) as (h & x & ->). by eexists. }
  rewrite bind_Ok. eexists _, _, _. split; [done|]. cbn.
  split_and!.
  - apply list_lookup_insert_eq. rewrite length_insert, length_app. simpl. lia.
  - rewrite list_lookup_insert_ne by lia.
    apply list_lookup_insert_eq. rewrite length_app. simpl. lia.
  - done.
  - by apply Hold.
  - by apply Hnew.
Qed.
End repaired_histories.

Lemma repair_step_disabled_histories_witness :
  ∃ st' t',
    @repair_step dividing_collaborators dividing_tracker 1
      (FrameState
         [sample_track [0; 1]%nat [1%nat] true [[1%R]; [1%R]]
                       [[0%R; 0%R]; [0%R; 0%R]];
          sample_track [1%nat] [] false [[2%R]] [[0%R; 0%R]]]
         [1; 2] (Some 1%nat)) 0 = Ok st' ∧
    st_tracks st' !! 0%nat = Some t' ∧
    frames t' = [0%nat] ∧
    feats t' !! "distance" = Some [[0%R; 0%R]; [0%R; 0%R]].
Proof.
  destruct (@repair_step_disabled_histories dividing_collaborators
              dividing_tracker 1
              (FrameState
                 [sample_track [0; 1]%nat [1%nat] true [[1%R]; [1%R]]
                               [[0%R; 0%R]; [0%R; 0%R]];
                  sample_track [1%nat] [] false [[2%R]] [[0%R; 0%R]]]
                 [1; 2] (Some 1%nat)) 0
              (sample_track [0; 1]%nat [1%nat] true [[1%R]; [1%R]]
                            [[0%R; 0%R]; [0%R; 0%R]])
              1%nat
              [("appearance", [[1%R]]); ("distance", [[0%R; 0%R]]);
               ("neighborhood", [[0%R]]); ("perimeter", [[1%R]])]
              "distance")
    as (st' & t' & new_t & Hrun & Ht' & _ & Hframes & Hfeats & _).
  - reflexivity.
  - done.
  - simpl. right. by left.
  - reflexivity.
  - reflexivity.
  - apply NoDup_singleton.
  - intros name Hname. apply list_elem_of_singleton in Hname as ->.
    by exists [[1%R]], [1%R].
  - intros Hin. apply list_elem_of_singleton in Hin. done.
  - exists st', t'. split_and!; [done|done|exact Hframes|].
    rewrite Hfeats. reflexivity.
Defined.
